(** * hcls-common: the service wrappers, embedded

    A shallow embedding of the three helpers of [src/helpers]:
    [keyprotect-helper.js], [app-id-helper.js] and [cloudant-helper.js].

    The helpers are asynchronous JavaScript that talks to remote services.
    An [async] function is embedded as a function from the state of the world
    before the call to its settled outcome (the value it resolves with, or
    what it rejects with), the state afterwards, and what an observer saw
    meanwhile: log lines, exchanges on the wire, pauses, settled client calls.
    The embedding is sequential, as the helpers are: every call is awaited
    before the next statement runs.

    Beside the helpers' configuration, key, login and connection functions
    the embedding holds [idGenerator] of [helper.js] and the methods of
    [cloudant-helper.js] that create and delete databases. *)

From Stdlib Require Import ZArith List String Bool Lia Arith DecimalString.
From Equations Require Import Equations.
Import ListNotations.

Set Implicit Arguments.
Set Warnings "-register-all".
Local Open Scope string_scope.
Local Open Scope list_scope.
Local Open Scope Z_scope.

(* ===================================================================== *)
(** * Part I. The embedding                                               *)
(* ===================================================================== *)

(** ** JavaScript values, outcomes and effects *)

Module JS.

(** [!s] is [false] exactly for a present, non-empty string. A field that
    is [undefined] is [None]. *)
Definition truthy (s : string) : bool := negb (String.eqb s "").

Definition truthyStr (o : option string) : bool :=
  match o with Some s => truthy s | None => false end.

Definition truthyNum (o : option Z) : bool :=
  match o with Some z => negb (Z.eqb z 0) | None => false end.

(** A template literal: its pieces, joined. *)
Definition tpl (parts : list string) : string := String.concat "" parts.

(** A number inside a template literal. *)
Definition showZ (z : Z) : string := NilEmpty.string_of_int (Z.to_int z).

(** A [moment]: milliseconds since the epoch, or an invalid date. *)
Definition moment := option Z.

(** [a.isBefore(b)]; [false] as soon as one side is invalid. *)
Definition isBefore (a b : moment) : bool :=
  match a, b with
  | Some x, Some y => Z.ltb x y
  | _, _ => false
  end.

(** The body of an error response, as far as the helpers read it:
    [data.resources] (kept as the text [JSON.stringify] gives for it) and
    [data.error_description]. *)
Record ErrBody := {
  resources : option string;
  error_description : option string
}.

(** [response.data] of an error response. The client puts the key on every
    response it builds, with what it read of the body; the helpers test for
    the key and for the value all the same. *)
Inductive Data :=
| NoData                 (* the response has no [data] key *)
| Undefined              (* the key is there and holds [undefined] *)
| Null                   (* the key is there and holds [null] *)
| Body (b : ErrBody).    (* any other value, by the fields read of it *)

(** A body with neither field: an empty body (the client gives [''] for
    it) or an object that has other fields only. *)
Definition emptyData : Data :=
  Body {| resources := None; error_description := None |}.

Record ErrResponse := {
  status : Z;
  statusText : string;
  data : Data
}.

(** What a request rejects with: [error.message], [error.code] and
    [error.response], which is absent when nothing came back. *)
Record Rejection := {
  message : string;
  code : string;
  response : option ErrResponse
}.

(** Values the helpers throw or let through. *)
Inductive Thrown :=
| Error (msg : string)                       (* new Error(msg) *)
| Rejected (f : Rejection)                   (* a failed client call *)
| LoginError (st : Z) (stText : option string) (msg : option string)
                                             (* loginAppID's errorObj *)
| TypeError (msg : string)
| ReferenceError (msg : string)
| Status500 (msg : string).                  (* the literal { status: 500, message } *)

Definition messageOf (e : Thrown) : string :=
  match e with
  | Error m | TypeError m | ReferenceError m | Status500 m => m
  | Rejected f => message f
  | LoginError _ _ m => match m with Some s => s | None => "" end
  end.

Definition responseOf (e : Thrown) : option ErrResponse :=
  match e with
  | Rejected f => response f
  | _ => None
  end.

(** A JSON value, for key payloads. *)
Inductive Json :=
| JNull
| JBool (b : bool)
| JNum (z : Z)
| JStr (s : string)
| JArr (l : list Json)
| JObj (l : list (string * Json)).

Definition truthyJson (j : Json) : bool :=
  match j with
  | JNull => false
  | JBool b => b
  | JNum z => negb (Z.eqb z 0)
  | JStr s => truthy s
  | JArr _ | JObj _ => true
  end.

(** What the helpers take from the platform and from their dependencies
    without defining it: the JSON and base64 codecs of Node, the pause of
    retry-axios's growing backoff policies as a function of the retry
    number, the identifier the key service gives the n-th key it creates,
    and the check the Cloudant SDK's authenticators make of a credential
    they are built with. *)
Class Platform := {
  stringify : Json -> string;               (* JSON.stringify *)
  parse : string -> option Json;            (* JSON.parse; None: it throws *)
  toBase64 : string -> string;              (* Buffer.from(s).toString('base64') *)
  fromBase64 : string -> string;            (* Buffer.from(s, 'base64').toString() *)
  growing : bool -> Z -> Z;                 (* true: exponential, false: linear *)
  keyId : nat -> string;
  badCredential : string -> bool            (* the Cloudant SDK's check of a credential *)
}.

Inductive result (A : Type) :=
| Ok (a : A)
| Throw (e : Thrown).
Arguments Ok {A} a.
Arguments Throw {A} e.

Definition isThrow {A} (r : result A) : bool :=
  match r with Throw _ => true | Ok _ => false end.

Inductive Method := GET | HEAD | OPTIONS | DELETE | PUT | POST.

Definition Method_eqb (a b : Method) : bool :=
  match a, b with
  | GET, GET | HEAD, HEAD | OPTIONS, OPTIONS
  | DELETE, DELETE | PUT, PUT | POST, POST => true
  | _, _ => false
  end.

Inductive Level := LDebug | LInfo | LWarn | LError.

(** What a run lets an observer see, oldest first. *)
Inductive Obs :=
| Log (l : Level) (msg : string)             (* a line of the logger *)
| Attempt (m : Method) (url : string) (ok : bool)
                                             (* one exchange on the wire *)
| Sleep (ms : Z)                             (* the pause before a retry *)
| Called (m : Method) (url : string) (ok : bool)
                                             (* a client call settled *)
| Token (ok : bool).                         (* getCloudIAMToken settled *)

(** An awaited computation over worlds of type [W]. *)
Definition M (W A : Type) : Type := W -> result A * W * list Obs.

Section Monad.
Context {W : Type}.

Definition ret {A} (a : A) : M W A := fun w => (Ok a, w, []).

Definition throw {A} (e : Thrown) : M W A := fun w => (Throw e, w, []).

Definition bind {A B} (c : M W A) (k : A -> M W B) : M W B :=
  fun w =>
    let '(r, w1, o1) := c w in
    match r with
    | Ok a => let '(r2, w2, o2) := k a w1 in (r2, w2, o1 ++ o2)
    | Throw e => (Throw e, w1, o1)
    end.

(** [try { body } catch (error) { handler }] *)
Definition tryCatch {A} (body : M W A) (handler : Thrown -> M W A) : M W A :=
  fun w =>
    let '(r, w1, o1) := body w in
    match r with
    | Ok a => (Ok a, w1, o1)
    | Throw e => let '(r2, w2, o2) := handler e w1 in (r2, w2, o1 ++ o2)
    end.

Definition log (l : Level) (msg : string) : M W unit :=
  fun w => (Ok tt, w, [Log l msg]).

Definition emit (o : Obs) : M W unit := fun w => (Ok tt, w, [o]).

Definition get : M W W := fun w => (Ok w, w, []).

Definition put (w : W) : M W unit := fun _ => (Ok tt, w, []).

End Monad.

Declare Scope js_scope.
Delimit Scope js_scope with js.
Notation "x <- c ;; k" := (bind c (fun x => k))
  (at level 100, c at next level, right associativity) : js_scope.
Notation "c ;;; k" := (bind c (fun _ => k))
  (at level 100, right associativity) : js_scope.

End JS.

(** ** Reading what a run let see *)

Module Seen.
Import JS.

Definition isAttempt (o : Obs) : bool :=
  match o with Attempt _ _ _ => true | _ => false end.

(** How many exchanges went over the wire. *)
Definition attempts (o : list Obs) : nat := List.length (filter isAttempt o).

(** The pauses, in order. *)
Fixpoint sleeps (o : list Obs) : list Z :=
  match o with
  | [] => []
  | Sleep ms :: rest => ms :: sleeps rest
  | _ :: rest => sleeps rest
  end.

Definition isRemote (o : Obs) : bool :=
  match o with Called _ _ _ | Token _ => true | _ => false end.

(** The calls and token requests of a run, settled: what it asked of the
    remote services, in order. *)
Definition remote (o : list Obs) : list Obs := filter isRemote o.

End Seen.

(** ** The retry interceptor *)

(** Modelled from the spec: the interceptor that [rax.attach(client)]
    installs belongs to the retry-axios dependency, whose code is not among
    the sources. Section 4.1 gives its contract: retry when nothing came
    back or when the status is in a retryable range, up to [retry] times,
    and surface the last failure; and the helpers' [raxConfig] objects name
    the switches it reads. A switch that a client leaves unset takes the
    dependency's default, as the comment in [app-id-helper.js] records for
    [backoffType] ('exponential' (default)); [retryDelay] is the pause of
    the static policy only. *)
Module Rax.
Import JS.

Inductive Backoff := Exponential | Static | Linear.

Record RaxConfig := {
  retry : option Z;
  noResponseRetries : option Z;
  statusCodesToRetry : option (list (Z * Z));
  retryDelay : option Z;
  backoffType : option Backoff;
  httpMethodsToRetry : option (list Method);
  onRetryAttempt : Z -> list Obs   (* what the callback logs at retry #n *)
}.

Definition orDefault {A} (o : option A) (d : A) : A :=
  match o with Some a => a | None => d end.

Definition retryOf (cfg : RaxConfig) : Z := orDefault (retry cfg) 3.
Definition noResponseRetriesOf (cfg : RaxConfig) : Z :=
  orDefault (noResponseRetries cfg) 2.
Definition retryDelayOf (cfg : RaxConfig) : Z := orDefault (retryDelay cfg) 100.
Definition methodsOf (cfg : RaxConfig) : list Method :=
  orDefault (httpMethodsToRetry cfg) [GET; HEAD; PUT; OPTIONS; DELETE].
Definition rangesOf (cfg : RaxConfig) : list (Z * Z) :=
  orDefault (statusCodesToRetry cfg) [(100, 199); (429, 429); (500, 599)].

Definition inRange (s : Z) (r : Z * Z) : bool :=
  Z.leb (fst r) s && Z.leb s (snd r).

(** Whether the failed attempt [f] of a request with method [m] is tried
    again, [cur] retries having been made already. *)
Definition shouldRetryRequest (cfg : RaxConfig) (m : Method) (f : Rejection)
    (cur : Z) : bool :=
  if Z.eqb (retryOf cfg) 0 then false
  else if match response f with
          | None => Z.leb (noResponseRetriesOf cfg) cur
          | Some _ => false
          end then false
  else if negb (existsb (Method_eqb m) (methodsOf cfg)) then false
  else if match response f with
          | Some r => negb (Z.eqb (status r) 0)
                      && negb (existsb (inRange (status r)) (rangesOf cfg))
          | None => false
          end then false
  else if Z.leb (retryOf cfg) cur then false
  else true.

(** Keeps the equation of a scrutinee at hand in a definition by cases. *)
Definition inspect {A} (a : A) : {b : A | a = b} := exist _ a eq_refl.

Section Loop.
Context {W R : Type}.

(** The pause of the policies that grow with the retry number: the
    formula is the dependency's, and no field of [raxConfig] enters it. *)
Context {platform : Platform}.

(** One exchange on the wire. *)
Variable exchange : W -> (R + Rejection) * W.

Definition backoffDelay (cfg : RaxConfig) (n : Z) : Z :=
  match backoffType cfg with
  | Some Static => retryDelayOf cfg
  | Some Linear => growing false n
  | Some Exponential | None => growing true n
  end.

(** The request and its retries; [cur] is [currentRetryAttempt]. *)
Equations? send (cfg : RaxConfig) (m : Method) (url : string) (cur : Z) (w : W)
  : (R + Rejection) * W * list Obs
  by wf (Z.to_nat (retryOf cfg - cur)) lt :=
send cfg m url cur w with inspect (exchange w) := {
  | exist _ (inl r, w1) _ := (inl r, w1, [Attempt m url true]);
  | exist _ (inr f, w1) _ with inspect (shouldRetryRequest cfg m f cur) := {
    | exist _ true _ :=
        let '(x, w2, o) := send cfg m url (cur + 1) w1 in
        (x, w2,
         Attempt m url false
           :: onRetryAttempt cfg (cur + 1)
           ++ Sleep (backoffDelay cfg (cur + 1)) :: o);
    | exist _ false _ := (inr f, w1, [Attempt m url false]) } }.
Proof.
  match goal with H : shouldRetryRequest _ _ _ _ = true |- _ =>
    unfold shouldRetryRequest in H;
    destruct (Z.leb (retryOf cfg) cur) eqn:Hle;
    [ repeat match type of H with
             | context [if ?b then _ else _] => destruct b
             end; discriminate H
    | apply Z.leb_gt in Hle ]
  end.
  lia.
Qed.

(** A call through the client: it settles when the interceptor gives up or
    an answer arrives. *)
Definition call (cfg : RaxConfig) (m : Method) (url : string) : M W R :=
  fun w =>
    let '(x, w1, o) := send cfg m url 0 w in
    match x with
    | inl r => (Ok r, w1, o ++ [Called m url true])
    | inr f => (Throw (Rejected f), w1, o ++ [Called m url false])
    end.

(** A call through a client that has no interceptor attached. *)
Definition direct (m : Method) (url : string) : M W R :=
  fun w =>
    match exchange w with
    | (inl r, w1) => (Ok r, w1, [Attempt m url true; Called m url true])
    | (inr f, w1) =>
        (Throw (Rejected f), w1, [Attempt m url false; Called m url false])
    end.

(** The pauses before the retries numbered [from + 1 .. from + k]. *)
Fixpoint pauses (cfg : RaxConfig) (from : Z) (k : nat) : list Z :=
  match k with
  | O => []
  | S k' => backoffDelay cfg (from + 1) :: pauses cfg (from + 1) k'
  end.

(** The world [k] exchanges later. *)
Fixpoint worldAfter (k : nat) (w : W) : W :=
  match k with
  | O => w
  | S k' => worldAfter k' (snd (exchange w))
  end.

End Loop.

(** A failure that carries a status of the 5xx class, of the 4xx class. *)
Definition is5xx (f : Rejection) : Prop :=
  exists r, response f = Some r /\ 500 <= status r <= 599.

Definition is4xx (f : Rejection) : Prop :=
  exists r, response f = Some r /\ 400 <= status r <= 499.

(** An endpoint that answers every exchange with a 5xx status. *)
Definition always5xx {W R} (exchange : W -> (R + Rejection) * W) : Prop :=
  forall w, exists f w1, exchange w = (inr f, w1) /\ is5xx f.

End Rax.

(** ** The network and the token provider *)

Module Net.
Import JS.

(** What the network does to one exchange. A script of these, consumed an
    exchange at a time, is the environment of a run; past its end every
    request is delivered. [B] is what a delivered request is answered
    with, for a service whose state is not modelled. *)
Inductive Event (B : Type) :=
| Deliver (b : B)                          (* the service gets the request and answers *)
| Lost (code msg : string)                 (* nothing comes back: timeout, reset *)
| Refused (r : ErrResponse).               (* an error status comes back *)
Arguments Deliver {B} b.
Arguments Lost {B} code msg.
Arguments Refused {B} r.

(** The rejection the client builds for an error status. *)
Definition badStatus (r : ErrResponse) : Rejection :=
  {| message := tpl ["Request failed with status code "; showZ (status r)];
     code := "";
     response := Some r |}.

Definition noResponse (c msg : string) : Rejection :=
  {| message := msg; code := c; response := None |}.

End Net.

(** ** keyprotect-helper.js *)

Module KeyProtect.
Import JS Net.
Local Open Scope js_scope.

(** [keyProtectObj], as [setConfig] stores it. *)
Record Config := {
  url : option string;
  instanceID : option string;
  apikey : option string;
  retries : option Z;
  retryDelay : option Z;
  timeout : option Z
}.

(** A key resource of the service. The listing gives [id], [name] and
    [creationDate]; reading one key gives its [payload] too. *)
Record KeyRecord := {
  id : string;
  name : string;
  creationDate : moment;     (* moment(key.creationDate) *)
  payload : option string
}.

(** The body of a create request. *)
Record NewKey := {
  nk_type : string;
  nk_name : string;
  nk_description : string;
  nk_extractable : bool;
  nk_payload : string
}.

Record RequestBody := {
  collectionType : string;
  collectionTotal : Z;
  body_resources : list NewKey
}.

(** [response.data.resources] of an answer. *)
Record Response := {
  resp_status : Z;
  resp_resources : option (list KeyRecord)
}.

Record Client := {
  baseURL : option string;
  client_timeout : option Z;
  headers : list (string * string);
  raxConfig : Rax.RaxConfig
}.

(** The module's state ([keyProtectObj]) and its environment: the keys the
    service holds, in listing order; how many it has created; its clock;
    the token the provider hands out; and what the network will do. *)
Record World := {
  keyProtectObj : Config;
  store : list KeyRecord;
  serial : nat;
  clock : Z;
  bearer : string;
  net : list (Event unit)
}.

Definition setConfig (keyProtectDataObj : Config) : M World unit :=
  fun w =>
    (Ok tt,
     {| keyProtectObj := keyProtectDataObj; store := store w;
        serial := serial w; clock := clock w; bearer := bearer w;
        net := net w |},
     []).

(** The world after one exchange that leaves the keys as [s] and the count
    of created keys as [n]. *)
Definition after (w : World) (s : list KeyRecord) (n : nat) : World :=
  {| keyProtectObj := keyProtectObj w; store := s; serial := n;
     clock := clock w + 1; bearer := bearer w; net := tl (net w) |}.

Definition notFound : ErrResponse :=
  {| status := 404; statusText := "Not Found"; data := emptyData |}.

Definition badRequest : ErrResponse :=
  {| status := 400; statusText := "Bad Request"; data := emptyData |}.

Section WithPlatform.
Context {platform : Platform}.

Fixpoint enroll (n : nat) (t : Z) (l : list NewKey) : list KeyRecord :=
  match l with
  | [] => []
  | k :: rest =>
      {| id := keyId n; name := nk_name k; creationDate := Some t;
         payload := Some (nk_payload k) |} :: enroll (S n) t rest
  end.

(** The key service answering a delivered request: list, read, delete,
    create. *)
Definition serve (m : Method) (path : string) (body : option RequestBody)
    (w : World) : (Response + ErrResponse) * World :=
  match m with
  | GET =>
      if truthy path then
        match filter (fun k => String.eqb (id k) path) (store w) with
        | [] => (inr notFound, after w (store w) (serial w))
        | k :: _ =>
            (inl {| resp_status := 200; resp_resources := Some [k] |},
             after w (store w) (serial w))
        end
      else (inl {| resp_status := 200; resp_resources := Some (store w) |},
            after w (store w) (serial w))
  | DELETE =>
      if existsb (fun k => String.eqb (id k) path) (store w) then
        (inl {| resp_status := 204; resp_resources := None |},
         after w (filter (fun k => negb (String.eqb (id k) path)) (store w))
               (serial w))
      else (inr notFound, after w (store w) (serial w))
  | POST =>
      match body with
      | Some b =>
          let created := enroll (serial w) (clock w) (body_resources b) in
          (inl {| resp_status := 201; resp_resources := Some created |},
           after w (store w ++ created)
                 (serial w + List.length (body_resources b))%nat)
      | None => (inr badRequest, after w (store w) (serial w))
      end
  | _ => (inr badRequest, after w (store w) (serial w))
  end.

(** One exchange with the key service. *)
Definition exchange (m : Method) (path : string) (body : option RequestBody)
    (w : World) : (Response + Rejection) * World :=
  match net w with
  | [] | Deliver _ :: _ =>
      match serve m path body w with
      | (inl r, w1) => (inl r, w1)
      | (inr e, w1) => (inr (badStatus e), w1)
      end
  | Lost c msg :: _ => (inr (noResponse c msg), after w (store w) (serial w))
  | Refused r :: _ => (inr (badStatus r), after w (store w) (serial w))
  end.

(** Modelled from the spec: [cloud-iam-helper.js] is required by the
    helpers and is not among the sources. Section 6: [getToken(apiKey) ->
    bearerToken], asynchronous, may itself fail (propagated as-is). It is
    one exchange with the provider. *)
Definition getCloudIAMToken (key : option string) : M World string :=
  fun w =>
    match net w with
    | [] | Deliver _ :: _ =>
        (Ok (bearer w), after w (store w) (serial w), [Token true])
    | Lost c msg :: _ =>
        (Throw (Rejected (noResponse c msg)), after w (store w) (serial w),
         [Token false])
    | Refused r :: _ =>
        (Throw (Rejected (badStatus r)), after w (store w) (serial w),
         [Token false])
    end.

(** [missingVar] at the end of the chain of tests in [validateConfig]. *)
Definition missingVar (c : Config) : option string :=
  if negb (truthyStr (url c)) then Some "KEYPROTECT_URL"
  else if negb (truthyStr (instanceID c)) then Some "KEYPROTECT_GUID"
  else if negb (truthyStr (apikey c)) then Some "KEYPROTECT_APIKEY"
  else if negb (truthyNum (retries c)) then Some "KEYPROTECT_RETRIES"
  else if negb (truthyNum (retryDelay c)) then Some "KEYPROTECT_RETRYDELAY"
  else if negb (truthyNum (timeout c)) then Some "KEYPROTECT_TIMEOUT"
  else None.

Definition invalidConfig (v : string) : string :=
  tpl ["Invalid KeyProtect config: missing variable '"; v; "'"].

Definition validateConfig : M World unit :=
  fun w =>
    match missingVar (keyProtectObj w) with
    | Some v => throw (Error (invalidConfig v)) w
    | None => ret tt w
    end.

Definition keyProtectClient (c : Config) (token : string) : Client :=
  {| baseURL := url c;
     client_timeout := timeout c;
     headers := [("Accept", "application/vnd.ibm.kms.key+json");
                 ("Authorization", tpl ["Bearer "; token]);
                 ("bluemix-instance", Rax.orDefault (instanceID c) "")];
     raxConfig :=
       {| Rax.retry := retries c;
          Rax.noResponseRetries := retries c;
          Rax.statusCodesToRetry := Some [(500, 599)];
          Rax.retryDelay := retryDelay c;
          Rax.backoffType := None;
          Rax.httpMethodsToRetry := None;
          Rax.onRetryAttempt := fun n =>
            [Log LWarn "No response received from KeyProtect, retrying request:";
             Log LWarn (tpl ["Retry attempt #"; showZ n])] |} |}.

Definition newClient (token : string) : M World Client :=
  fun w => (Ok (keyProtectClient (keyProtectObj w) token), w, []).

(** The address a call goes to. *)
Definition target (client : Client) (path : string) : string :=
  if truthy path then tpl [Rax.orDefault (baseURL client) ""; "/"; path]
  else Rax.orDefault (baseURL client) "".

Definition request (client : Client) (m : Method) (path : string)
    (body : option RequestBody) : M World Response :=
  Rax.call (exchange m path body) (raxConfig client) m (target client path).

Definition failureReasons (error : Thrown) : string :=
  match responseOf error with
  | Some {| data := Body {| resources := Some r |} |} => r
  | _ => if truthy (messageOf error) then messageOf error else ""
  end.

Definition countOf {A} (l : list A) : string := showZ (Z.of_nat (List.length l)).

Definition getAllKeysHelper (client : Client) : M World (list KeyRecord) :=
  tryCatch
    (validateConfig ;;;
     response <- request client GET "" None ;;
     match resp_resources response with
     | Some keysArray =>
         log LInfo (tpl ["Successfully retrieved "; countOf keysArray;
                         " from KeyProtect"]) ;;;
         ret keysArray
     | None => throw (TypeError "Cannot read properties of undefined (reading 'length')")
     end)
    (fun error =>
       log LWarn (tpl ["Failed to retrieve keys from KeyProtect: ";
                       failureReasons error]) ;;;
       ret []).

Definition getAllKeys (client : option Client) : M World (list KeyRecord) :=
  match client with
  | None =>
      w <- get ;;
      token <- getCloudIAMToken (apikey (keyProtectObj w)) ;;
      client <- newClient token ;;
      getAllKeysHelper client
  | Some client => getAllKeysHelper client
  end.

Definition getKeysByName (client : option Client) (keyName : string)
    : M World (list KeyRecord) :=
  tryCatch
    (validateConfig ;;;
     response <- getAllKeys client ;;
     let filteredKeys := filter (fun key => String.eqb (name key) keyName) response in
     log LInfo (tpl ["Successfully retrieved "; countOf filteredKeys;
                     " key id(s) for name = "; keyName; " from KeyProtect"]) ;;;
     ret filteredKeys)
    (fun error =>
       log LWarn (tpl ["Failed to retrieve key ids for "; keyName;
                       " from KeyProtect: "; failureReasons error]) ;;;
       ret []).

Definition deleteKey (keyID : string) : M World unit :=
  tryCatch
    (validateConfig ;;;
     w <- get ;;
     token <- getCloudIAMToken (apikey (keyProtectObj w)) ;;
     client <- newClient token ;;
     _ <- request client DELETE keyID None ;;
     log LInfo (tpl ["Successfully deleted key "; keyID; " in KeyProtect"]))
    (fun error =>
       let errMsg := tpl ["Failed to delete key "; keyID; " in KeyProtect: ";
                          failureReasons error] in
       log LError errMsg ;;;
       throw (Error errMsg)).

(** The loop of [getNewestKeyIDByName] over [keyList], from index [i] on. *)
Fixpoint scan (searchName : string) (keyList : list KeyRecord)
    (newestKeyID : string) (newestCreationDate : moment) : M World string :=
  match keyList with
  | [] => ret newestKeyID
  | key :: rest =>
      if String.eqb (name key) searchName then
        let currentCreationDate := creationDate key in
        if isBefore newestCreationDate currentCreationDate then
          (if truthy newestKeyID then
             log LWarn (tpl ["Attempting to delete older key "; newestKeyID;
                             " with name "; searchName; " in KeyProtect"]) ;;;
             deleteKey newestKeyID
           else ret tt) ;;;
          scan searchName rest (id key) currentCreationDate
        else scan searchName rest newestKeyID newestCreationDate
      else scan searchName rest newestKeyID newestCreationDate
  end.

Definition getNewestKeyIDByName (client : option Client) (searchName : string)
    : M World string :=
  keyList <- getKeysByName client searchName ;;
  scan searchName keyList "" (Some 0).

(** What a single read gives: the parsed payload, or [''] . *)
Inductive Fetched :=
| Blank
| Parsed (j : Json).

Definition parseKeyPayload (response : Response) : M World Fetched :=
  tryCatch
    (match resp_resources response with
     | Some (first :: _) =>
         match payload first with
         | Some p =>
             if truthy p then
               match parse (fromBase64 p) with
               | Some jsonPayload =>
                   log LDebug "Successfully parsed key from KeyProtect" ;;;
                   ret (Parsed jsonPayload)
               | None => throw (Error "SyntaxError")
               end
             else log LWarn "Payload not found for key from KeyProtect" ;;;
                  ret Blank
         | None => log LWarn "Payload not found for key from KeyProtect" ;;;
                   ret Blank
         end
     | _ => log LWarn "Payload not found for key from KeyProtect" ;;;
            ret Blank
     end)
    (fun error =>
       log LWarn (tpl ["Failed to parse key from KeyProtect: ";
                       messageOf error]) ;;;
       ret Blank).

Definition parseKeyID (response : Response) : M World string :=
  match resp_resources response with
  | Some (first :: _) =>
      if truthy (id first) then ret (id first)
      else log LWarn "ID not found for key from KeyProtect" ;;; ret ""
  | _ => log LWarn "ID not found for key from KeyProtect" ;;; ret ""
  end.

Definition getKeyByID (keyID : string) : M World Fetched :=
  tryCatch
    (validateConfig ;;;
     w <- get ;;
     token <- getCloudIAMToken (apikey (keyProtectObj w)) ;;
     client <- newClient token ;;
     getKeyResponse <- request client GET keyID None ;;
     log LInfo (tpl ["Successfully retrieved key "; keyID; " from KeyProtect"]) ;;;
     parseKeyPayload getKeyResponse)
    (fun error =>
       log LWarn (tpl ["Failed to retrieve key "; keyID; " from KeyProtect: ";
                       failureReasons error]) ;;;
       ret Blank).

Definition getNewestKeyByName (keyName : string) : M World Fetched :=
  tryCatch
    (validateConfig ;;;
     w <- get ;;
     token <- getCloudIAMToken (apikey (keyProtectObj w)) ;;
     client <- newClient token ;;
     keyID <- getNewestKeyIDByName (Some client) keyName ;;
     if negb (truthy keyID) then
       log LWarn (tpl ["Key "; keyName; " not found in KeyProtect"]) ;;;
       ret Blank
     else
       getKeyResponse <- request client GET keyID None ;;
       log LInfo (tpl ["Successfully retrieved newest key for name = "; keyName;
                       " from KeyProtect (id = "; keyID; ")"]) ;;;
       parseKeyPayload getKeyResponse)
    (fun error =>
       log LWarn (tpl ["Failed to retrieve key "; keyName; " from KeyProtect: ";
                       failureReasons error]) ;;;
       ret Blank).

Definition createBody (keyName encodedPayload : string) : RequestBody :=
  {| collectionType := "application/vnd.ibm.kms.key+json";
     collectionTotal := 1;
     body_resources :=
       [{| nk_type := "application/vnd.ibm.kms.key+json";
           nk_name := keyName;
           nk_description := "Simple Consent Blockchain Admin Identity";
           nk_extractable := true;
           nk_payload := encodedPayload |}] |}.

Definition createKey (keyName : string) (keyPayload : Json) : M World string :=
  tryCatch
    (validateConfig ;;;
     (if negb (truthy keyName) then throw (Error "keyName is empty") else ret tt) ;;;
     (if negb (truthyJson keyPayload) then throw (Error "keyPayload is empty")
      else ret tt) ;;;
     log LDebug "Attempting to check for existing key (before creating new key)" ;;;
     w <- get ;;
     token <- getCloudIAMToken (apikey (keyProtectObj w)) ;;
     client <- newClient token ;;
     existingKeyID <- getNewestKeyIDByName (Some client) keyName ;;
     (if truthy existingKeyID then
        log LDebug "Existing key found, attempting to delete (before creating new key)" ;;;
        deleteKey existingKeyID
      else ret tt) ;;;
     let strPayload := stringify keyPayload in
     let encodedPayload := toBase64 strPayload in
     let requestBody := createBody keyName encodedPayload in
     createResponse <- request client POST "" (Some requestBody) ;;
     keyID <- parseKeyID createResponse ;;
     log LInfo (tpl ["Successfully created key "; keyID; " in KeyProtect"]) ;;;
     ret keyID)
    (fun error =>
       let errMsg := tpl ["Failed to create key in KeyProtect: ";
                          failureReasons error] in
       log LError errMsg ;;;
       throw (Error errMsg)).

End WithPlatform.

(** *** Words for the statements about the helper *)

(** The required fields, in the order [validateConfig] tests them, each
    with the name it is reported under and whether it is set. *)
Definition requiredFields (c : Config) : list (string * bool) :=
  [("KEYPROTECT_URL", truthyStr (url c));
   ("KEYPROTECT_GUID", truthyStr (instanceID c));
   ("KEYPROTECT_APIKEY", truthyStr (apikey c));
   ("KEYPROTECT_RETRIES", truthyNum (retries c));
   ("KEYPROTECT_RETRYDELAY", truthyNum (retryDelay c));
   ("KEYPROTECT_TIMEOUT", truthyNum (timeout c))].

(** Two worlds between which the service and the configuration stand
    still: only time has passed and exchanges were used up. *)
Definition sameService (w w' : World) : Prop :=
  keyProtectObj w' = keyProtectObj w /\ store w' = store w
  /\ serial w' = serial w /\ bearer w' = bearer w.

(** Identifiers as the service assigns them: unique, and not empty. *)
Definition wellFormed (s : list KeyRecord) : Prop :=
  NoDup (map id s) /\ Forall (fun k => truthy (id k) = true) s.

Definition named (n : string) (k : KeyRecord) : bool := String.eqb (name k) n.

(** Creation dates strictly increasing along the list, from [from] on. *)
Fixpoint ascending (from : moment) (l : list KeyRecord) : bool :=
  match l with
  | [] => true
  | k :: rest =>
      isBefore from (creationDate k) && ascending (creationDate k) rest
  end.

(** The records of a listing that the scan makes the newest in turn, the
    newest date so far being [d]. *)
Fixpoint picks (searchName : string) (l : list KeyRecord) (d : moment)
    : list KeyRecord :=
  match l with
  | [] => []
  | key :: rest =>
      if named searchName key && isBefore d (creationDate key)
      then key :: picks searchName rest (creationDate key)
      else picks searchName rest d
  end.

(** The newest date the scan holds after [l], having started from [d]. *)
Fixpoint newest (searchName : string) (l : list KeyRecord) (d : moment)
    : moment :=
  match l with
  | [] => d
  | key :: rest =>
      if named searchName key && isBefore d (creationDate key)
      then newest searchName rest (creationDate key)
      else newest searchName rest d
  end.

(** The address of the collection of keys: where listing and creating go. *)
Definition base (w : World) : string := Rax.orDefault (url (keyProtectObj w)) "".

(** The keys left when those with an identifier in [ids] are gone. *)
Definition without (ids : list string) (s : list KeyRecord) : list KeyRecord :=
  filter (fun k => negb (existsb (String.eqb (id k)) ids)) s.

(** The identifiers the scan deletes when [kid] is the newest so far and
    the records [P] are picked after it: every newest but the last, an
    empty first one apart. *)
Definition doomed (kid : string) (P : list KeyRecord) : list string :=
  filter truthy (removelast (kid :: map id P)).

(** What deleting the keys [ids] one after the other asks of the remote
    services when all goes well. *)
Definition deletions (client : Client) (ids : list string) : list Obs :=
  flat_map (fun i => [Token true; Called DELETE (target client i) true]) ids.

(** A client whose retry callback only logs. *)
Definition quiet (client : Client) : Prop :=
  forall n, Seen.remote (Rax.onRetryAttempt (raxConfig client) n) = [].

(** A token request or a call of the run did not succeed. *)
Definition failedStep (o : list Obs) : Prop :=
  In (Token false) o \/ exists m u, In (Called m u false) o.

(** A token request or a deleting or creating call did not succeed. *)
Definition failedMutation (o : list Obs) : Prop :=
  In (Token false) o
  \/ exists u, In (Called DELETE u false) o \/ In (Called POST u false) o.

Definition warned (o : list Obs) : Prop := exists msg, In (Log LWarn msg) o.

End KeyProtect.

(** ** app-id-helper.js *)

Module AppID.
Import JS Net.
Local Open Scope js_scope.

(** [appIDObj], as [setConfig] stores it. *)
Record Config := {
  url : option string;
  clientID : option string;
  tenantID : option string;
  secret : option string;
  apikey : option string;
  userName : option string;
  userTenantID : option string
}.

Record Role := { role_id : string }.

Record User := { user_id : string; email : string }.

(** [response.data] of an answer of the identity service, as far as the
    helper reads it. *)
Record Body := {
  tokens : string;                  (* the data of a login answer *)
  roles : option (list Role);       (* data.roles *)
  users : option (list User)        (* data.users *)
}.

Definition emptyBody : Body := {| tokens := ""; roles := None; users := None |}.

Record Client := {
  baseURL : string;
  client_timeout : Z;
  headers : list (string * string);
  auth : option (option string * option string);
  raxConfig : option Rax.RaxConfig    (* [None]: nothing attached *)
}.

(** The module's state and its environment. The identity service is not
    modelled: the script says what each exchange is answered with. *)
Record World := {
  appIDObj : Config;
  managementServerUrl : string;
  oauthServerUrl : string;
  pingServerUrl : string;
  bearer : string;
  net : list (Event Body)
}.

Definition retries : Z := 1.
Definition retryDelay : Z := 3000.
Definition timeout : Z := 10000.

(** [${x}] for a value that may be [undefined]. *)
Definition shown (o : option string) : string := Rax.orDefault o "undefined".

Definition setConfig (appIDDataObj : Config) : M World unit :=
  fun w =>
    (Ok tt,
     {| appIDObj := appIDDataObj;
        managementServerUrl :=
          tpl [shown (url appIDDataObj); "/management/v4/";
               shown (tenantID appIDDataObj)];
        oauthServerUrl :=
          tpl [shown (url appIDDataObj); "/oauth/v4/";
               shown (tenantID appIDDataObj)];
        pingServerUrl :=
          tpl [shown (url appIDDataObj); "/oauth/v4/";
               shown (tenantID appIDDataObj); "/publickeys"];
        bearer := bearer w;
        net := net w |},
     []).

Definition after (w : World) : World :=
  {| appIDObj := appIDObj w;
     managementServerUrl := managementServerUrl w;
     oauthServerUrl := oauthServerUrl w;
     pingServerUrl := pingServerUrl w;
     bearer := bearer w;
     net := tl (net w) |}.

(** One exchange with the identity service. *)
Definition exchange (w : World) : (Body + Rejection) * World :=
  match net w with
  | [] => (inl emptyBody, after w)
  | Deliver b :: _ => (inl b, after w)
  | Lost c msg :: _ => (inr (noResponse c msg), after w)
  | Refused r :: _ => (inr (badStatus r), after w)
  end.

Section WithPlatform.
Context {platform : Platform}.

(** Modelled from the spec: [cloud-iam-helper.js] is not among the
    sources. Section 6: [getToken(apiKey) -> bearerToken], asynchronous,
    may itself fail (propagated as-is). It is one exchange with the
    provider. *)
Definition getCloudIAMToken (key : option string) : M World string :=
  fun w =>
    match net w with
    | [] | Deliver _ :: _ => (Ok (bearer w), after w, [Token true])
    | Lost c msg :: _ =>
        (Throw (Rejected (noResponse c msg)), after w, [Token false])
    | Refused r :: _ =>
        (Throw (Rejected (badStatus r)), after w, [Token false])
    end.

(** [missingVar] at the end of the chain of tests in [validateConfig]. *)
Definition missingVar (c : Config) : option string :=
  if negb (truthyStr (url c)) then Some "APP_ID_URL"
  else if negb (truthyStr (clientID c)) then Some "APP_ID_CLIENT_ID"
  else if negb (truthyStr (tenantID c)) then Some "APP_ID_TENANT_ID"
  else if negb (truthyStr (secret c)) then Some "APP_ID_SECRET"
  else None.

Definition validateConfig : M World unit :=
  fun w =>
    match missingVar (appIDObj w) with
    | Some v =>
        throw (Error (tpl ["Invalid AppID config: missing variable '"; v; "'"])) w
    | None => ret tt w
    end.

(** The [raxConfig] of the login client and of the management client; they
    differ in the first line the callback logs. *)
Definition appIdRaxConfig (firstLine : string) : Rax.RaxConfig :=
  {| Rax.retry := Some retries;
     Rax.backoffType := Some Rax.Static;
     Rax.noResponseRetries := Some retries;
     Rax.statusCodesToRetry := Some [(500, 599)];
     Rax.retryDelay := Some retryDelay;
     Rax.httpMethodsToRetry := Some [POST; GET; HEAD; PUT];
     Rax.onRetryAttempt := fun n =>
       [Log LWarn firstLine; Log LWarn (tpl ["Retry attempt #"; showZ n])] |}.

(** A call through [client]: with its interceptor when one is attached. *)
Definition request (client : Client) (m : Method) (path : string)
    : M World Body :=
  match raxConfig client with
  | Some cfg => Rax.call exchange cfg m (tpl [baseURL client; path])
  | None => Rax.direct exchange m (tpl [baseURL client; path])
  end.

(** [const timeout = setTimeout(..., timeout)]: the initialiser of the
    local constant reads the constant itself, which is still in its
    temporal dead zone; the statement stands before the [try]. *)
Definition pingAppID : M World bool :=
  timer <- (throw (ReferenceError "Cannot access 'timeout' before initialization")
            : M World Z) ;;
  w <- get ;;
  let pingClient :=
    {| baseURL := pingServerUrl w;
       client_timeout := timer;
       headers := [("Content-Type", "application/x-www-form-urlencoded");
                   ("accept", "application/json")];
       auth := None;
       raxConfig := None |} in
  tryCatch
    (_ <- request pingClient GET "/" ;;
     log LInfo "AppID health is OK" ;;;
     ret true)
    (fun error =>
       log LError (tpl ["AppID health is not OK: "; messageOf error]) ;;;
       ret false).

(** The client [appIdLoginClient] builds from the module's state. *)
Definition loginClientOf (w : World) : Client :=
  {| baseURL := tpl [oauthServerUrl w; "/token"];
     client_timeout := timeout;
     headers := [("Content-Type", "application/x-www-form-urlencoded");
                 ("accept", "application/json")];
     auth := Some (clientID (appIDObj w), secret (appIDObj w));
     raxConfig := Some (appIdRaxConfig
       "No response received from AppID, retrying login request:") |}.

Definition appIdLoginClient : M World Client :=
  fun w => (Ok (loginClientOf w), w, []).

(** What reading [error_description] of [undefined] or of [null] throws. *)
Definition cannotRead (what : string) : string :=
  tpl ["Cannot read properties of "; what; " (reading 'error_description')"].

(** The error object starts as [new Error()], whose message is ['']; it is
    thrown as it stands unless reading the description of the response's
    data throws first, out of the catch block. *)
Definition loginAppID (username password : string) : M World string :=
  tryCatch
    (validateConfig ;;;
     loginClient <- appIdLoginClient ;;
     log LDebug "Calling AppID to retrieve auth token" ;;;
     response <- request loginClient POST "/" ;;
     log LInfo "Login request to AppID was successful" ;;;
     ret (tokens response))
    (fun error =>
       log LError (tpl ["Login request to AppID failed: "; messageOf error]) ;;;
       match responseOf error with
       | Some errorResponse =>
           match data errorResponse with
           | NoData =>
               throw (LoginError (status errorResponse)
                                 (Some (statusText errorResponse)) (Some ""))
           | Undefined => throw (TypeError (cannotRead "undefined"))
           | Null => throw (TypeError (cannotRead "null"))
           | JS.Body d =>
               throw (LoginError (status errorResponse)
                                 (Some (statusText errorResponse))
                                 (error_description d))
           end
       | None =>
           throw (LoginError 500
                    (match error with
                     | Rejected f => Some (code f)
                     | _ => None
                     end)
                    (Some (messageOf error)))
       end).

(** The client [appIdMgmtClient] builds around a token. *)
Definition mgmtClientOf (w : World) (token : string) : Client :=
  {| baseURL := managementServerUrl w;
     client_timeout := timeout;
     headers := [("Content-Type", "application/json");
                 ("Accept", "application/json");
                 ("Authorization", tpl ["Bearer "; token])];
     auth := None;
     raxConfig := Some (appIdRaxConfig
       "No response received from AppID, retrying") |}.

Definition appIdMgmtClient : M World Client :=
  validateConfig ;;;
  w <- get ;;
  token <- getCloudIAMToken (apikey (appIDObj w)) ;;
  ret (mgmtClientOf w token).

Definition getAllRolesIds (client : Client) : M World (list string) :=
  log LDebug "Getting all roles ids" ;;;
  tryCatch
    (responseRoles <- request client GET "/roles" ;;
     match roles responseRoles with
     | Some rs => ret (map role_id rs)
     | None => throw (TypeError "Cannot read properties of undefined (reading 'map')")
     end)
    (fun error =>
       log LError (tpl ["Failed to get roles from AppID: "; messageOf error]) ;;;
       throw error).

Definition createUserCloudDirectory (username password : string)
    (client : Client) : M World unit :=
  log LDebug "Creating new user in Cloud Directory" ;;;
  tryCatch
    (_ <- request client POST "/cloud_directory/Users" ;;
     ret tt)
    (fun error =>
       log LError (tpl ["Failed to create user in cloud directory: ";
                        messageOf error]) ;;;
       throw error).

Definition activateNewUserProfile (username password : string)
    (client : Client) : M World string :=
  log LDebug "Activating new user profile" ;;;
  tryCatch
    (_ <- loginAppID username password ;;
     responseUsers <- request client GET "/users" ;;
     match users responseUsers with
     | Some us =>
         match find (fun user => String.eqb (email user) username) us with
         | Some user => ret (user_id user)
         | None => throw (TypeError "Cannot read properties of undefined (reading 'id')")
         end
     | None => throw (TypeError "Cannot read properties of undefined (reading 'find')")
     end)
    (fun error =>
       log LError (tpl ["Failed to get new user ID: "; messageOf error]) ;;;
       throw error).

Definition updateUserRoles (roleIds : list string) (newUserId : string)
    (client : Client) : M World unit :=
  log LDebug "Updating new user roles" ;;;
  tryCatch
    (_ <- request client PUT (tpl ["/users/"; newUserId; "/roles"]) ;;
     ret tt)
    (fun error =>
       log LError (tpl ["Failed to update roles: "; messageOf error]) ;;;
       throw error).

Definition updateUserAttributes (newUserId : string) (client : Client)
    : M World unit :=
  log LDebug "Updating new user attributes" ;;;
  tryCatch
    (_ <- request client PUT (tpl ["/users/"; newUserId; "/profile"]) ;;
     ret tt)
    (fun error =>
       log LError (tpl ["Failed to update attributes: "; messageOf error]) ;;;
       throw error).

(** What [existUserCheckFunc] returns: [undefined], or the error it caught. *)
Definition existUserCheckFunc (username password : string)
    : M World (option Thrown) :=
  log LDebug "Exist user check starting" ;;;
  isUserExists <-
    tryCatch
      (log LDebug "Trying to login with current credentials" ;;;
       _ <- loginAppID username password ;;
       ret true)
      (fun error =>
         log LWarn "Login failed, creating new user" ;;;
         ret false) ;;
  if negb isUserExists then
    userObj <-
      tryCatch
        (client <- appIdMgmtClient ;;
         roleIds <- getAllRolesIds client ;;
         ret (inl (client, roleIds)))
        (fun error => ret (inr error)) ;;
    match userObj with
    | inr error => ret (Some error)
    | inl (client, roleIds) =>
        tryCatch
          (createUserCloudDirectory username password client ;;;
           newUserId <- activateNewUserProfile username password client ;;
           updateUserRoles roleIds newUserId client ;;;
           updateUserAttributes newUserId client ;;;
           ret None)
          (fun error => ret (Some error))
    end
  else ret None.

Definition existUserCheck (username password : string) : M World unit :=
  result <- existUserCheckFunc username password ;;
  match result with
  | Some e => log LError (tpl ["Login was not successful! "; messageOf e])
  | None => log LInfo "Login was successful!"
  end.

End WithPlatform.

(** *** Words for the statements about the helper *)

(** Two worlds between which the module's state stands still. *)
Definition sameConfig (w w' : World) : Prop :=
  appIDObj w' = appIDObj w
  /\ managementServerUrl w' = managementServerUrl w
  /\ oauthServerUrl w' = oauthServerUrl w
  /\ pingServerUrl w' = pingServerUrl w
  /\ bearer w' = bearer w.

(** Where the login call goes, and a call of the management client. *)
Definition loginUrl (w : World) : string :=
  tpl [tpl [oauthServerUrl w; "/token"]; "/"].

Definition mgmtUrl (w : World) (path : string) : string :=
  tpl [managementServerUrl w; path].

(** What provisioning a user asks of the remote services after the first
    login has failed, each request waiting for its outcome: the token of
    the management client, the roles, the new account, the login as the
    new user, the users, the roles and the attributes of the new user. *)
Definition provisioning (w : World) (newUserId : string) : list (bool -> Obs) :=
  [Token;
   Called GET (mgmtUrl w "/roles");
   Called POST (mgmtUrl w "/cloud_directory/Users");
   Called POST (loginUrl w);
   Called GET (mgmtUrl w "/users");
   Called PUT (mgmtUrl w (tpl ["/users/"; newUserId; "/roles"]));
   Called PUT (mgmtUrl w (tpl ["/users/"; newUserId; "/profile"]))].

(** How far a sequence of requests got when it ran until a request failed:
    either every request of the sequence was made and succeeded (the flag
    is [true]), or the requests up to some point were made and succeeded,
    the next one was made and failed, and none was made after it (the flag
    is [false]). *)
Inductive Progress : list (bool -> Obs) -> list Obs -> bool -> Prop :=
| Completed : Progress [] [] true
| Failed s rest : Progress (s :: rest) [s false] false
| Advanced s rest o b :
    Progress rest o b -> Progress (s :: rest) (s true :: o) b.

End AppID.

(** ** cloudant-helper.js *)

Module Cloudant.
Import JS Net.
Local Open Scope js_scope.

Record Connection := {
  account : option string;
  iamApiKey : option string;
  url : option string;
  username : option string;
  password : option string;
  proxyUrl : option string;
  timeout : option Z
}.

(** The configuration object passed to [getInstance], kept as [cloudantObj]. *)
Record CloudantData := {
  connection : option Connection;
  dbPartitionKey : option string
}.

Inductive Authenticator :=
| IamAuthenticator (key : string)
| BasicAuthenticator (user pass : string).

(** A [CloudantV1] service object. *)
Record Service := {
  authenticator : Authenticator;
  serviceUrl : option string
}.

(** A [CloudantHelperLib] object: its [cloudant] field, unset at first. *)
Record Helper := { cloudant : option Service }.

(** The module's state ([cloudantObj], [instance]), the helper objects
    allocated so far (an object is named by its position), and what the
    network will do. *)
Record World := {
  cloudantObj : option CloudantData;
  instance : option nat;
  heap : list Helper;
  net : list (Event unit)
}.

Definition initial (script : list (Event unit)) : World :=
  {| cloudantObj := None; instance := None; heap := []; net := script |}.

Section WithPlatform.
Context {platform : Platform}.

(** [new IamAuthenticator(...)], [new BasicAuthenticator(...)]: the SDK
    refuses a credential it finds malformed. *)
Definition newIam (key : string) : M World Authenticator :=
  if badCredential key then throw (Error "Bad credential: apikey")
  else ret (IamAuthenticator key).

Definition newBasic (user pass : string) : M World Authenticator :=
  if badCredential user then throw (Error "Bad credential: username")
  else if badCredential pass then throw (Error "Bad credential: password")
  else ret (BasicAuthenticator user pass).

Definition initCloudant : M World Service :=
  w <- get ;;
  match cloudantObj w with
  | None => throw (TypeError "Cannot read properties of undefined (reading 'connection')")
  | Some obj =>
      match connection obj with
      | None => throw (Error "Missing DB connection configuration")
      | Some c =>
          let useIamAuth := truthyStr (account c) && truthyStr (iamApiKey c) in
          if useIamAuth then
            log LInfo "Use IAM auth for DB connection" ;;;
            authenticator <- newIam (Rax.orDefault (iamApiKey c) "") ;;
            ret {| authenticator := authenticator; serviceUrl := url c |}
          else
            let useLegacyAuth :=
              truthyStr (url c) && truthyStr (username c)
              && truthyStr (password c) in
            if useLegacyAuth then
              log LInfo "Use legacy auth for DB connection" ;;;
              authenticator <- newBasic (Rax.orDefault (username c) "")
                                        (Rax.orDefault (password c) "") ;;
              if truthyStr (proxyUrl c) then
                ret {| authenticator := authenticator; serviceUrl := proxyUrl c |}
              else
                ret {| authenticator := authenticator; serviceUrl := url c |}
            else throw (Error "Missing DB credentials")
      end
  end.

(** [this.cloudant] of the object at [this]. *)
Definition cloudantOf (w : World) (this : nat) : option Service :=
  match nth_error (heap w) this with
  | Some h => cloudant h
  | None => None
  end.

Fixpoint setNth (l : list Helper) (n : nat) (h : Helper) : list Helper :=
  match l, n with
  | [], _ => []
  | _ :: rest, O => h :: rest
  | x :: rest, S k => x :: setNth rest k h
  end.

(** [static getInstance(cloudantDataObj)]. The argument is [None] when the
    call passes [undefined], [null] or nothing: [Object.assign] throws on
    it, before anything is stored and before the instance is looked at. *)
Definition getInstance (cloudantDataObj : option CloudantData) : M World nat :=
  fun w =>
    match cloudantDataObj with
    | None => (Throw (TypeError "Cannot convert undefined or null to object"), w, [])
    | Some obj =>
        let w1 := {| cloudantObj := Some obj; instance := instance w;
                     heap := heap w; net := net w |} in
        match instance w1 with
        | None =>
            let this := List.length (heap w1) in
            (Ok this,
             {| cloudantObj := cloudantObj w1; instance := Some this;
                heap := heap w1 ++ [{| cloudant := None |}]; net := net w1 |},
             [])
        | Some this =>
            match cloudantOf w1 this with
            | None =>
                let errMsg := "Cloudant was not initialized during startup, please check configuration" in
                (Throw (Status500 errMsg), w1, [Log LError errMsg])
            | Some _ => (Ok this, w1, [])
            end
        end
    end.

Definition setupCloudant (this : nat) : M World unit :=
  w <- get ;;
  match cloudantOf w this with
  | None =>
      tryCatch
        (service <- initCloudant ;;
         fun w1 =>
           (Ok tt,
            {| cloudantObj := cloudantObj w1; instance := instance w1;
               heap := setNth (heap w1) this {| cloudant := Some service |};
               net := net w1 |},
            []))
        (fun err =>
           log LError (tpl ["Failed to initCloudant: "; messageOf err]) ;;;
           throw err)
  | Some _ => ret tt
  end.

(** One exchange with the database service. *)
Definition exchange (w : World) : (unit + Rejection) * World :=
  let w1 := {| cloudantObj := cloudantObj w; instance := instance w;
               heap := heap w; net := tl (net w) |} in
  match net w with
  | [] | Deliver _ :: _ => (inl tt, w1)
  | Lost c msg :: _ => (inr (noResponse c msg), w1)
  | Refused r :: _ => (inr (badStatus r), w1)
  end.

(** [getSessionInformation] is embedded as the one call it settles as:
    the exchange for a token that the SDK makes first when the connection
    authenticates with an IAM key is not told apart from it. *)
Definition pingCloudant (this : nat) : M World bool :=
  tryCatch
    (w <- get ;;
     match cloudantOf w this with
     | None => throw (TypeError "Cannot read properties of undefined (reading 'getSessionInformation')")
     | Some service =>
         _ <- Rax.direct exchange GET
                (tpl [Rax.orDefault (serviceUrl service) ""; "/_session"]) ;;
         log LInfo "Cloudant pinged successfully:" ;;;
         ret true
     end)
    (fun error =>
       log LError (tpl ["Failed to ping Cloudant: "; messageOf error]) ;;;
       ret false).

(** *** A caller of the module *)

(** What a program that uses the module does to it, one call after the
    other; it goes on after a call that threw. *)
Inductive Op :=
| CallGetInstance (cloudantDataObj : option CloudantData)
| CallSetup (this : nat)
| CallPing (this : nat).

Inductive Value :=
| VInstance (this : nat)
| VUnit
| VBool (b : bool).

Definition perform (op : Op) : M World Value :=
  match op with
  | CallGetInstance d => this <- getInstance d ;; ret (VInstance this)
  | CallSetup this => setupCloudant this ;;; ret VUnit
  | CallPing this => b <- pingCloudant this ;; ret (VBool b)
  end.

(** The calls of a program with their outcomes, and the world they leave. *)
Fixpoint session (ops : list Op) (w : World)
    : list (Op * result Value) * World :=
  match ops with
  | [] => ([], w)
  | op :: rest =>
      let '(r, w1, _) := perform op w in
      let '(h, w2) := session rest w1 in
      ((op, r) :: h, w2)
  end.

(** No [setupCloudant] on the object [this] has succeeded in [h]. *)
Definition neverSetUp (this : nat) (h : list (Op * result Value)) : Prop :=
  forall v, ~ In (CallSetup this, Ok v) h.

Definition notInitialized : string :=
  "Cloudant was not initialized during startup, please check configuration".

End WithPlatform.

End Cloudant.

(** A platform to run the embedding on. *)
Module Demo.
Import JS.

Definition demoStringify (j : Json) : string :=
  match j with
  | JNull => "null"
  | JBool true => "true"
  | JBool false => "false"
  | JNum z => showZ z
  | JStr s => tpl ["'"; s; "'"]
  | JArr _ => "[]"
  | JObj _ => "{}"
  end.

#[export] Instance demo : Platform := {|
  stringify := demoStringify;
  parse := fun s => if String.eqb s "null" then Some JNull else None;
  toBase64 := fun s => tpl ["base64("; s; ")"];
  fromBase64 := fun s => s;
  growing := fun exponential n =>
    if exponential then (2 ^ n - 1) * 500 else n * 1000;
  keyId := fun n => tpl ["key-"; showZ (Z.of_nat n)];
  badCredential := fun s => String.eqb s "{}"
|}.

(** A complete KeyProtect configuration, a key named K, and a world that
    holds the keys [keys] and whose network follows [script]. *)
Definition kpConfig : KeyProtect.Config :=
  {| KeyProtect.url := Some "https://kp.example/api/v2/keys";
     KeyProtect.instanceID := Some "guid";
     KeyProtect.apikey := Some "apikey";
     KeyProtect.retries := Some 1;
     KeyProtect.retryDelay := Some 3000;
     KeyProtect.timeout := Some 10000 |}.

(** The same without its URL. *)
Definition noUrl : KeyProtect.Config :=
  {| KeyProtect.url := None;
     KeyProtect.instanceID := Some "guid";
     KeyProtect.apikey := Some "apikey";
     KeyProtect.retries := Some 1;
     KeyProtect.retryDelay := Some 3000;
     KeyProtect.timeout := Some 10000 |}.

Definition key (i : string) (t : Z) : KeyProtect.KeyRecord :=
  {| KeyProtect.id := i; KeyProtect.name := "K";
     KeyProtect.creationDate := Some t; KeyProtect.payload := None |}.

Definition kpWorld (c : KeyProtect.Config) (keys : list KeyProtect.KeyRecord)
    (script : list (Net.Event unit)) : KeyProtect.World :=
  {| KeyProtect.keyProtectObj := c; KeyProtect.store := keys;
     KeyProtect.serial := 0; KeyProtect.clock := 1000;
     KeyProtect.bearer := "token"; KeyProtect.net := script |}.

Definition status (n : Z) : ErrResponse :=
  {| JS.status := n; statusText := ""; data := JS.emptyData |}.

(** An endpoint that answers every exchange with the status [n]. *)
Definition answering (n : Z) (w : unit) : (unit + Rejection) * unit :=
  (inr (Net.badStatus (status n)), w).

(** Three keys named K, listed oldest first; and newest first. *)
Definition ascendingKeys : list KeyProtect.KeyRecord :=
  [key "a" 1; key "b" 2; key "c" 3].

Definition descendingKeys : list KeyProtect.KeyRecord :=
  [key "a" 3; key "b" 2; key "c" 1].

(** Two keys named K with one creation date. *)
Definition tiedKeys : list KeyProtect.KeyRecord := [key "a" 5; key "b" 5].

(** A network that serves the token requests and the listing, and answers
    the delete call and its retry with 500. *)
Definition failingDelete : list (Net.Event unit) :=
  [Net.Deliver tt; Net.Deliver tt; Net.Deliver tt;
   Net.Refused (status 500); Net.Refused (status 500)].

Definition answering_503 : unit -> (unit + Rejection) * unit := answering 503.

(** A complete AppID configuration, and the module after [setConfig] with
    it, before a network that follows [script]. *)
Definition appConfig : AppID.Config :=
  {| AppID.url := Some "https://appid.example";
     AppID.clientID := Some "client";
     AppID.tenantID := Some "tenant";
     AppID.secret := Some "secret";
     AppID.apikey := Some "apikey";
     AppID.userName := Some "qa";
     AppID.userTenantID := Some "t1" |}.

Definition appWorld (script : list (Net.Event AppID.Body)) : AppID.World :=
  snd (fst (AppID.setConfig appConfig
              {| AppID.appIDObj :=
                   {| AppID.url := None; AppID.clientID := None;
                      AppID.tenantID := None; AppID.secret := None;
                      AppID.apikey := None; AppID.userName := None;
                      AppID.userTenantID := None |};
                 AppID.managementServerUrl := "undefined";
                 AppID.oauthServerUrl := "undefined";
                 AppID.pingServerUrl := "undefined";
                 AppID.bearer := "token";
                 AppID.net := script |})).

(** Answers of the identity service: to a login, to the listing of the
    roles, and to the listing of the users once [a@b.com] is one. *)
Definition loggedIn : AppID.Body :=
  {| AppID.tokens := "access"; AppID.roles := None; AppID.users := None |}.

Definition twoRoles : AppID.Body :=
  {| AppID.tokens := "";
     AppID.roles := Some [{| AppID.role_id := "r1" |}; {| AppID.role_id := "r2" |}];
     AppID.users := None |}.

Definition withNewUser : AppID.Body :=
  {| AppID.tokens := ""; AppID.roles := None;
     AppID.users := Some [{| AppID.user_id := "u7"; AppID.email := "a@b.com" |}] |}.

(** The login is refused; the token, the roles and the new account are
    served; the roles of the new user are then refused twice over. *)
Definition rolesUpdateFails : list (Net.Event AppID.Body) :=
  [Net.Refused (status 400);
   Net.Deliver AppID.emptyBody; Net.Deliver twoRoles;
   Net.Deliver AppID.emptyBody;
   Net.Deliver loggedIn; Net.Deliver withNewUser;
   Net.Refused (status 503); Net.Refused (status 503)].

(** A Cloudant configuration with IAM credentials. *)
Definition dbConfig : Cloudant.CloudantData :=
  {| Cloudant.connection :=
       Some {| Cloudant.account := Some "acct";
               Cloudant.iamApiKey := Some "key";
               Cloudant.url := Some "https://db.example";
               Cloudant.username := None; Cloudant.password := None;
               Cloudant.proxyUrl := None; Cloudant.timeout := Some 5000 |};
     Cloudant.dbPartitionKey := Some "p" |}.

(** The database module once a program has obtained the instance and set
    it up, before a network that follows [script]. *)
Definition dbReady (script : list (Net.Event unit)) : Cloudant.World :=
  snd (Cloudant.session (platform := demo)
         [Cloudant.CallGetInstance (Some dbConfig); Cloudant.CallSetup 0]
         (Cloudant.initial script)).

(** A network on which the next exchange gets no response. *)
Definition unreachable {B} : list (Net.Event B) :=
  [Net.Lost "ETIMEDOUT" "timeout of 10000ms exceeded"].

End Demo.

(** ** helper.js: identifiers *)

Module Ids.
Import Ascii.

(** A character of [0-9a-z]. *)
Definition alnumLower (c : ascii) : bool :=
  let n := nat_of_ascii c in
  (Nat.leb 48 n && Nat.leb n 57) || (Nat.leb 97 n && Nat.leb n 122).

(** [s.replace(/[^0-9a-z]/g, '')] *)
Fixpoint strip (s : string) : string :=
  match s with
  | EmptyString => EmptyString
  | String c rest => if alnumLower c then String c (strip rest) else strip rest
  end.

(** [idGenerator], [uuid] being what [uuidv4()] gives the call. *)
Definition idGenerator (uuid : string) : string := strip uuid.

(** *** Words for the statements about the generator *)

(** A character of [0-9a-f]. *)
Definition hexLower (c : ascii) : bool :=
  let n := nat_of_ascii c in
  (Nat.leb 48 n && Nat.leb n 57) || (Nat.leb 97 n && Nat.leb n 102).

Fixpoint every (p : ascii -> bool) (s : string) : bool :=
  match s with
  | EmptyString => true
  | String c rest => p c && every p rest
  end.

(** A group of [n] lower-case hexadecimal digits. *)
Definition group (n : nat) (g : string) : Prop :=
  String.length g = n /\ every hexLower g = true.

(** The text form of a UUID: five groups of 8, 4, 4, 4 and 12 lower-case
    hexadecimal digits, joined by hyphens. *)
Definition canonical (g1 g2 g3 g4 g5 : string) : string :=
  (g1 ++ "-" ++ g2 ++ "-" ++ g3 ++ "-" ++ g4 ++ "-" ++ g5)%string.

End Ids.

(** ** A network that delivers *)

Module Delivery.
Import Net.

(** The next [n] exchanges reach the service and are answered by it: none
    of the first [n] events of the script loses or refuses a request. *)
Definition delivered {B} (n : nat) (script : list (Event B)) : Prop :=
  forall i e, (i < n)%nat -> nth_error script i = Some e ->
              exists b, e = Deliver b.

End Delivery.

(** ** cloudant-helper.js: databases, indexes and design documents *)

Module Databases.
Import JS Net Cloudant.
Local Open Scope js_scope.

(** A call of the method [method] of [this.cloudant], which the SDK sends
    as the request [m path] to the URL of the service; a helper object
    that was never set up has no [cloudant] to call. *)
Definition sdk (this : nat) (method : string) (m : Method) (path : string)
    : M World unit :=
  w <- get ;;
  match cloudantOf w this with
  | None =>
      throw (TypeError (tpl ["Cannot read properties of undefined (reading '";
                             method; "')"]))
  | Some service =>
      Rax.direct exchange m (tpl [Rax.orDefault (serviceUrl service) ""; path])
  end.

(** [Object.keys(x)]. [JObj l] holds the properties of an object in the
    order [Object.keys] gives them; [JNull] stands for [null] and for
    [undefined], on which [Object.keys] throws. *)
Definition indices (n : nat) : list string :=
  map (fun i => showZ (Z.of_nat i)) (seq 0 n).

Definition objectKeys (x : Json) : M World (list string) :=
  match x with
  | JNull => throw (TypeError "Cannot convert undefined or null to object")
  | JObj l => ret (map fst l)
  | JArr l => ret (indices (List.length l))
  | JStr s => ret (indices (String.length s))
  | JBool _ | JNum _ => ret []
  end.

(** [payload.ddoc], as the SDK puts it in the path of the request. *)
Definition ddocOf (payload : Json) : string :=
  match payload with
  | JObj l =>
      match find (fun kv => String.eqb (fst kv) "ddoc") l with
      | Some (_, JStr s) => s
      | _ => "undefined"
      end
  | _ => "undefined"
  end.

Section WithPlatform.
Context {platform : Platform}.

Definition createIndex (this : nat) (db : string) (params : Json)
    : M World unit :=
  tryCatch
    (sdk this "postIndex" POST (tpl ["/"; db; "/_index"]) ;;;
     log LInfo (tpl ["Creating Cloudant index in database "; db; ": ";
                     stringify params]))
    (fun err =>
       log LError (tpl ["Failed to create index in database "; db; ": ";
                        stringify params])).

Definition createDesignDocument (this : nat) (db : string) (payload : Json)
    : M World unit :=
  tryCatch
    (sdk this "putDesignDocument" PUT
       (tpl ["/"; db; "/_design/"; ddocOf payload]) ;;;
     log LInfo (tpl ["Created the design view in the database "; db]))
    (fun err =>
       log LError (tpl ["Failed to create design view in the database "; db;
                        ": "; messageOf err]) ;;;
       throw err).

(** The loop of [createDB] over the payloads. *)
Fixpoint eachPayload (this : nat) (db : string) (indexes : list Json)
    : M World unit :=
  match indexes with
  | [] => ret tt
  | payloadForIndex :: rest =>
      keys <- objectKeys payloadForIndex ;;
      (match keys with
       | first :: _ =>
           if String.eqb first "index"
           then createIndex this db payloadForIndex
           else createDesignDocument this db payloadForIndex
       | [] => createDesignDocument this db payloadForIndex
       end) ;;;
      eachPayload this db rest
  end.

Definition createDB (this : nat) (db : string) (indexes : Json)
    : M World unit :=
  tryCatch
    (sdk this "putDatabase" PUT (tpl ["/"; db; "?partitioned=true"]) ;;;
     log LInfo (tpl ["Created Cloudant database "; db]) ;;;
     match indexes with
     | JArr (first :: rest) => eachPayload this db (first :: rest)
     | _ => ret tt
     end)
    (fun e =>
       log LError (tpl ["Failed to create Cloudant database "; db; ": ";
                        messageOf e]) ;;;
       throw e).

Definition getOrCreateDB (this : nat) (db : string) (indexes : Json)
    : M World unit :=
  tryCatch
    (sdk this "getDatabaseInformation" GET (tpl ["/"; db]) ;;;
     log LInfo (tpl ["Successfully got Cloudant database "; db]))
    (fun err =>
       log LError (tpl ["Failed to get Cloudant database "; db; ": ";
                        messageOf err]) ;;;
       createDB this db indexes).

Definition deleteDB (this : nat) (db : string) : M World unit :=
  tryCatch
    (sdk this "getDatabaseInformation" GET (tpl ["/"; db]) ;;;
     log LInfo (tpl ["Deleting Cloudant database "; db]) ;;;
     sdk this "deleteDatabase" DELETE (tpl ["/"; db]))
    (fun e =>
       log LError (tpl ["Failed to delete Cloudant database "; db; ": ";
                        messageOf e]) ;;;
       throw e).

End WithPlatform.

(** *** Words for the statements about these methods *)

(** Where a request of the helper object [this] for [path] goes. *)
Definition address (w : World) (this : nat) (path : string) : string :=
  match cloudantOf w this with
  | Some service => tpl [Rax.orDefault (serviceUrl service) ""; path]
  | None => path
  end.

(** Two worlds between which the module's state and the helper objects
    stand still. *)
Definition sameObjects (w w' : World) : Prop :=
  cloudantObj w' = cloudantObj w /\ instance w' = instance w
  /\ heap w' = heap w.

(** A request to put something has failed. *)
Definition failedPut (calls : list Obs) : Prop :=
  exists u, In (Called PUT u false) calls.

(** A payload [createDB] takes for an index: an object whose first key is
    [index]. *)
Definition indexPayload (p : Json) : bool :=
  match p with
  | JObj ((first, _) :: _) => String.eqb first "index"
  | _ => false
  end.

End Databases.

(** ** More to run the embedding on *)

Module Samples.
Import JS.

(** A platform as [Demo.demo], with a base64 codec that decodes what it
    encodes and a JSON parser that reads the empty object. *)
Definition codec : Platform := {|
  stringify := Demo.demoStringify;
  parse := fun s =>
    if String.eqb s "{}" then Some (JObj [])
    else if String.eqb s "null" then Some JNull else None;
  toBase64 := fun s => ("b64:" ++ s)%string;
  fromBase64 := fun s => String.substring 4 (String.length s - 4) s;
  growing := fun exponential n =>
    if exponential then (2 ^ n - 1) * 500 else n * 1000;
  keyId := fun n => tpl ["key-"; showZ (Z.of_nat n)];
  badCredential := fun s => String.eqb s "{}"
|}.

(** A key of another name than K, and a listing that holds it after the
    three keys named K. *)
Definition otherKey : KeyProtect.KeyRecord :=
  {| KeyProtect.id := "x"; KeyProtect.name := "L";
     KeyProtect.creationDate := Some 7; KeyProtect.payload := None |}.

Definition mixedKeys : list KeyProtect.KeyRecord :=
  Demo.ascendingKeys ++ [otherKey].

(** Two keys named K that carry a payload [codec] reads, oldest first,
    and the key of the other name. *)
Definition storedKey (i : string) (t : Z) : KeyProtect.KeyRecord :=
  {| KeyProtect.id := i; KeyProtect.name := "K";
     KeyProtect.creationDate := Some t; KeyProtect.payload := Some "b64:{}" |}.

Definition storedKeys : list KeyProtect.KeyRecord :=
  [storedKey "a" 1; storedKey "b" 2; otherKey].

(** A network that delivers eight exchanges and loses the ninth: in a
    [createKey] over [Demo.ascendingKeys], the create request. *)
Definition lostCreate : list (Net.Event unit) :=
  repeat (Net.Deliver tt) 8 ++ [Net.Lost "ECONNRESET" "socket hang up"].

(** A network that delivers the token request and loses the listing and
    its retry. *)
Definition lostListing : list (Net.Event unit) :=
  [Net.Deliver tt; Net.Lost "ETIMEDOUT" "timeout of 10000ms exceeded";
   Net.Lost "ETIMEDOUT" "timeout of 10000ms exceeded"].

(** The database module after a first [getInstance], not yet set up. *)
Definition dbFresh : Cloudant.World :=
  snd (fst (Cloudant.getInstance (Some Demo.dbConfig) (Cloudant.initial []))).

(** The response to a login with wrong credentials; and a response whose
    data is [null]. *)
Definition unauthorized : ErrResponse :=
  {| status := 401; statusText := "Unauthorized";
     data := Body {| resources := None;
                     error_description := Some "The user credentials are wrong" |} |}.

Definition nullData : ErrResponse :=
  {| status := 400; statusText := "Bad Request"; data := Null |}.

(** A configuration object that holds no connection. *)
Definition noConnection : Cloudant.CloudantData :=
  {| Cloudant.connection := None; Cloudant.dbPartitionKey := None |}.

(** A configuration with other credentials than [Demo.dbConfig]. *)
Definition legacyConfig : Cloudant.CloudantData :=
  {| Cloudant.connection :=
       Some {| Cloudant.account := None;
               Cloudant.iamApiKey := None;
               Cloudant.url := Some "https://other.example";
               Cloudant.username := Some "admin";
               Cloudant.password := Some "pw";
               Cloudant.proxyUrl := Some "https://proxy.example";
               Cloudant.timeout := Some 5000 |};
     Cloudant.dbPartitionKey := Some "p" |}.

(** The database module once a program has obtained the instance with
    [legacyConfig] and set it up: the connection authenticates with a user
    name and a password, so its first exchange is the call itself. *)
Definition dbLegacy (script : list (Net.Event unit)) : Cloudant.World :=
  snd (Cloudant.session (platform := Demo.demo)
         [Cloudant.CallGetInstance (Some legacyConfig); Cloudant.CallSetup 0]
         (Cloudant.initial script)).

End Samples.

(* ===================================================================== *)
(** * Part II. What the helpers do                                        *)
(* ===================================================================== *)

(** ** Running awaited computations *)

Module Run.
Import JS Seen.

Section Inversion.
Context {W : Type}.

Lemma bind_inv {A B} (c : M W A) (k : A -> M W B) w r w' o :
  bind c k w = (r, w', o) ->
  (exists a w1 o1 o2,
      c w = (Ok a, w1, o1) /\ k a w1 = (r, w', o2) /\ o = o1 ++ o2)
  \/ (exists e, c w = (Throw e, w', o) /\ r = Throw e).
Proof.
  unfold bind. destruct (c w) as [[[a | e] w1] o1].
  - destruct (k a w1) as [[r2 w2] o2] eqn:Hk. intros H. inversion H; subst.
    left. exists a, w1, o1, o2. auto.
  - intros H. inversion H; subst. right. exists e. auto.
Qed.

Lemma tryCatch_inv {A} (body : M W A) (handler : Thrown -> M W A) w r w' o :
  tryCatch body handler w = (r, w', o) ->
  (exists a, body w = (Ok a, w', o) /\ r = Ok a)
  \/ (exists e w1 o1 o2,
         body w = (Throw e, w1, o1) /\ handler e w1 = (r, w', o2)
         /\ o = o1 ++ o2).
Proof.
  unfold tryCatch. destruct (body w) as [[[a | e] w1] o1].
  - intros H. inversion H; subst. left. exists a. auto.
  - destruct (handler e w1) as [[r2 w2] o2] eqn:Hh. intros H.
    inversion H; subst. right. exists e, w1, o1, o2. auto.
Qed.

Lemma ret_inv {A} (a : A) (w : W) r w' o :
  ret a w = (r, w', o) -> r = Ok a /\ w' = w /\ o = [].
Proof. unfold ret. intros H. inversion H. auto. Qed.

Lemma throw_inv {A} (e : Thrown) (w : W) (r : result A) w' o :
  throw e w = (r, w', o) -> r = Throw e /\ w' = w /\ o = [].
Proof. unfold throw. intros H. inversion H. auto. Qed.

Lemma log_inv l msg (w : W) r w' o :
  log l msg w = (r, w', o) -> r = Ok tt /\ w' = w /\ o = [Log l msg].
Proof. unfold log. intros H. inversion H. auto. Qed.

Lemma get_inv (w : W) r w' o :
  get w = (r, w', o) -> r = Ok w /\ w' = w /\ o = [].
Proof. unfold get. intros H. inversion H. auto. Qed.

End Inversion.

(** Takes a run apart along its binds, catches and effects. *)
Ltac settle H := first [discriminate H | inversion H; subst; try clear H].

Ltac step H :=
  match type of H with
  | bind _ _ _ = _ =>
      let a := fresh "a" in let w1 := fresh "w" in
      let o1 := fresh "o" in let o2 := fresh "o" in
      let H1 := fresh "Hrun" in let H2 := fresh "Hrun" in
      let Ho := fresh "Ho" in let Hr := fresh "Hr" in
      let e := fresh "e" in
      apply bind_inv in H;
      destruct H as [(a & w1 & o1 & o2 & H1 & H2 & Ho) | (e & H1 & Hr)];
      [subst | settle Hr]
  | tryCatch _ _ _ = _ =>
      let a := fresh "a" in let e := fresh "e" in
      let w1 := fresh "w" in let o1 := fresh "o" in let o2 := fresh "o" in
      let H1 := fresh "Hrun" in let H2 := fresh "Hrun" in
      let Ho := fresh "Ho" in let Hr := fresh "Hr" in
      apply tryCatch_inv in H;
      destruct H as [(a & H1 & Hr) | (e & w1 & o1 & o2 & H1 & H2 & Ho)];
      [settle Hr | subst]
  | ret _ _ = _ =>
      let Hr := fresh "Hr" in
      apply ret_inv in H; destruct H as (Hr & ? & ?); settle Hr; subst
  | throw _ _ = _ =>
      let Hr := fresh "Hr" in
      apply throw_inv in H; destruct H as (Hr & ? & ?); settle Hr; subst
  | log _ _ _ = _ =>
      let Hr := fresh "Hr" in
      apply log_inv in H; destruct H as (Hr & ? & ?); settle Hr; subst
  | get _ = _ =>
      let Hr := fresh "Hr" in
      apply get_inv in H; destruct H as (Hr & ? & ?); settle Hr; subst
  end.

Lemma remote_app o1 o2 : remote (o1 ++ o2) = remote o1 ++ remote o2.
Proof. unfold remote. apply filter_app. Qed.

Lemma attempts_app o1 o2 : attempts (o1 ++ o2) = (attempts o1 + attempts o2)%nat.
Proof. unfold attempts. rewrite filter_app, length_app. reflexivity. Qed.

Lemma sleeps_app o1 o2 : sleeps (o1 ++ o2) = sleeps o1 ++ sleeps o2.
Proof.
  induction o1 as [| x o1 IH]; simpl; [reflexivity |].
  destruct x; simpl; rewrite ?IH; reflexivity.
Qed.

End Run.

(** ** The retry interceptor *)

Module RaxFacts.
Import JS Seen Rax.

(** A retry is granted only below the bound [retry]. *)
Lemma shouldRetry_bound cfg m f cur :
  shouldRetryRequest cfg m f cur = true -> cur < retryOf cfg.
Proof.
  unfold shouldRetryRequest.
  repeat match goal with
         | |- context [if ?b then _ else _] => destruct b eqn:?
         end; try discriminate.
  intros _. apply Z.leb_gt. assumption.
Qed.

Section Loop.
Context {W R : Type} {platform : Platform}.
Variable exchange : W -> (R + Rejection) * W.

(** The loop, one turn unfolded. *)
Lemma send_eq cfg m url cur w :
  send exchange cfg m url cur w =
  match exchange w with
  | (inl r, w1) => (inl r, w1, [Attempt m url true])
  | (inr f, w1) =>
      if shouldRetryRequest cfg m f cur then
        let '(x, w2, o) := send exchange cfg m url (cur + 1) w1 in
        (x, w2,
         Attempt m url false
           :: onRetryAttempt cfg (cur + 1)
           ++ Sleep (backoffDelay cfg (cur + 1)) :: o)
      else (inr f, w1, [Attempt m url false])
  end.
Proof.
  funelim (send exchange cfg m url cur w).
  - rewrite e. reflexivity.
  - rewrite e, e0. reflexivity.
  - rewrite e, e0. reflexivity.
Qed.

(** Induction along the turns of the loop. *)
Lemma send_rect' cfg m url
    (P : Z -> W -> (R + Rejection) * W * list Obs -> Prop) :
  (forall cur w r w1,
      exchange w = (inl r, w1) -> P cur w (inl r, w1, [Attempt m url true])) ->
  (forall cur w f w1,
      exchange w = (inr f, w1) -> shouldRetryRequest cfg m f cur = false ->
      P cur w (inr f, w1, [Attempt m url false])) ->
  (forall cur w f w1 x w2 o,
      exchange w = (inr f, w1) -> shouldRetryRequest cfg m f cur = true ->
      send exchange cfg m url (cur + 1) w1 = (x, w2, o) ->
      P (cur + 1) w1 (x, w2, o) ->
      P cur w (x, w2,
               Attempt m url false
                 :: onRetryAttempt cfg (cur + 1)
                 ++ Sleep (backoffDelay cfg (cur + 1)) :: o)) ->
  forall cur w, P cur w (send exchange cfg m url cur w).
Proof.
  intros Hok Hstop Hturn cur.
  remember (Z.to_nat (retryOf cfg - cur)) as k eqn:Hk.
  revert cur Hk.
  induction k as [k IH] using lt_wf_ind.
  intros cur Hk w. rewrite send_eq.
  destruct (exchange w) as [[r | f] w1] eqn:He.
  - apply Hok. assumption.
  - destruct (shouldRetryRequest cfg m f cur) eqn:Hs.
    + destruct (send exchange cfg m url (cur + 1) w1) as [[x w2] o] eqn:Hrec.
      apply (Hturn cur w f w1 x w2 o He Hs Hrec).
      rewrite <- Hrec.
      apply (IH (Z.to_nat (retryOf cfg - (cur + 1)))); [| reflexivity].
      apply shouldRetry_bound in Hs. lia.
    + apply Hstop; assumption.
Qed.

(** The exchange that settles a request happens in a world that failed
    exchanges alone separate from the first one. *)
Lemma send_last (I : W -> W -> Prop) cfg m url :
  (forall w, I w w) ->
  (forall w1 w2 w3, I w1 w2 -> I w2 w3 -> I w1 w3) ->
  (forall w f w1, exchange w = (inr f, w1) -> I w w1) ->
  forall cur w x w' o,
    send exchange cfg m url cur w = (x, w', o) ->
    exists wp, I w wp /\ exchange wp = (x, w').
Proof.
  intros Hrefl Htrans Hfail cur w.
  apply (send_rect' cfg m url
           (fun _ w out => forall x w' o, out = (x, w', o) ->
                           exists wp, I w wp /\ exchange wp = (x, w'))).
  - intros c w0 r w1 He x w' o Hs. inversion Hs; subst.
    exists w0. split; [apply Hrefl | assumption].
  - intros c w0 f w1 He Hno x w' o Hs. inversion Hs; subst.
    exists w0. split; [apply Hrefl | assumption].
  - intros c w0 f w1 x w2 o He Hyes Hrec IH x' w' o' Hs. inversion Hs; subst.
    destruct (IH x' w' o eq_refl) as (wp & HI & Hex).
    exists wp. split; [| assumption].
    apply Htrans with w1; [apply (Hfail w0 f w1 He) | assumption].
Qed.

(** The loop settles no call and asks for no token: it shows attempts,
    pauses and what the callback logs. *)
Lemma send_remote cfg m url :
  (forall n, remote (onRetryAttempt cfg n) = []) ->
  forall cur w x w' o,
    send exchange cfg m url cur w = (x, w', o) -> remote o = [].
Proof.
  intros Hcb cur w.
  apply (send_rect' cfg m url
           (fun _ _ out => forall x w' o, out = (x, w', o) -> remote o = [])).
  - intros c w0 r w1 He x w' o Hs. inversion Hs; subst. reflexivity.
  - intros c w0 f w1 He Hno x w' o Hs. inversion Hs; subst. reflexivity.
  - intros c w0 f w1 x w2 o He Hyes Hrec IH x' w' o' Hs. inversion Hs; subst.
    change (remote ([Attempt m url false] ++ onRetryAttempt cfg (c + 1)
                    ++ [Sleep (backoffDelay cfg (c + 1))] ++ o) = []).
    rewrite !Run.remote_app, Hcb, (IH x' w' o eq_refl). reflexivity.
Qed.

Lemma call_inv cfg m url w r w' o :
  call exchange cfg m url w = (r, w', o) ->
  exists x o1,
    send exchange cfg m url 0 w = (x, w', o1)
    /\ ((exists a, x = inl a /\ r = Ok a /\ o = o1 ++ [Called m url true])
        \/ (exists f, x = inr f /\ r = Throw (Rejected f)
                      /\ o = o1 ++ [Called m url false])).
Proof.
  unfold call. destruct (send exchange cfg m url 0 w) as [[x w1] o1].
  destruct x as [a | f]; intros H; inversion H; subst.
  - exists (inl a), o1. split; [reflexivity |]. left. eauto.
  - exists (inr f), o1. split; [reflexivity |]. right. eauto.
Qed.

(** What the predicate decides for a client that retries on 5xx only. *)
Lemma retry_needs_transient cfg m f cur :
  rangesOf cfg = [(500, 599)] ->
  (forall r, response f = Some r -> 100 <= status r <= 599) ->
  shouldRetryRequest cfg m f cur = true ->
  response f = None \/ is5xx f.
Proof.
  intros Hr Hst. unfold shouldRetryRequest, is5xx.
  destruct (response f) as [r |] eqn:Hf; [| auto].
  specialize (Hst r eq_refl). rewrite Hr. simpl. unfold inRange. simpl.
  destruct (Z.eqb (retryOf cfg) 0); [discriminate |].
  destruct (negb (existsb (Method_eqb m) (methodsOf cfg))); [discriminate |].
  destruct (Z.eqb (status r) 0) eqn:H0; [lia |].
  destruct (Z.leb 500 (status r)) eqn:H5; simpl; [| discriminate].
  destruct (Z.leb (status r) 599) eqn:H6; simpl; [| discriminate].
  intros _. right. exists r. split; [reflexivity | lia].
Qed.

Lemma no_retry_4xx cfg m f cur :
  rangesOf cfg = [(500, 599)] -> is4xx f ->
  shouldRetryRequest cfg m f cur = false.
Proof.
  intros Hr (r & Hf & Hst). unfold shouldRetryRequest.
  rewrite Hf, Hr. simpl. unfold inRange. simpl.
  destruct (Z.eqb (retryOf cfg) 0); [reflexivity |].
  destruct (negb (existsb (Method_eqb m) (methodsOf cfg))); [reflexivity |].
  replace (Z.eqb (status r) 0) with false by lia.
  replace (Z.leb 500 (status r)) with false by lia.
  reflexivity.
Qed.

Lemma Method_eqb_refl m : Method_eqb m m = true.
Proof. destruct m; reflexivity. Qed.

Lemma retry_5xx cfg m f cur :
  rangesOf cfg = [(500, 599)] -> In m (methodsOf cfg) ->
  cur < retryOf cfg -> retryOf cfg <> 0 -> is5xx f ->
  shouldRetryRequest cfg m f cur = true.
Proof.
  intros Hr Hm Hcur Hn (r & Hf & Hst). unfold shouldRetryRequest.
  rewrite Hf, Hr. simpl. unfold inRange. simpl.
  replace (Z.eqb (retryOf cfg) 0) with false by lia.
  replace (existsb (Method_eqb m) (methodsOf cfg)) with true.
  2:{ symmetry. apply existsb_exists. exists m. split; [assumption |].
      apply Method_eqb_refl. }
  simpl.
  replace (Z.eqb (status r) 0) with false by lia.
  replace (Z.leb 500 (status r)) with true by lia.
  replace (Z.leb (status r) 599) with true by lia.
  simpl. replace (Z.leb (retryOf cfg) cur) with false by lia.
  reflexivity.
Qed.

Lemma no_retry_other_method cfg m f cur :
  ~ In m (methodsOf cfg) -> shouldRetryRequest cfg m f cur = false.
Proof.
  intros Hm. unfold shouldRetryRequest.
  destruct (Z.eqb (retryOf cfg) 0); [reflexivity |].
  destruct (match response f with
            | None => Z.leb (noResponseRetriesOf cfg) cur
            | Some _ => false
            end); [reflexivity |].
  replace (existsb (Method_eqb m) (methodsOf cfg)) with false; [reflexivity |].
  symmetry. apply not_true_is_false. intros Hex.
  apply existsb_exists in Hex. destruct Hex as (m' & Hin & Heq).
  destruct m, m'; try discriminate; contradiction.
Qed.

Lemma no_retry_at_bound cfg m f cur :
  retryOf cfg <= cur -> shouldRetryRequest cfg m f cur = false.
Proof.
  intros Hb. unfold shouldRetryRequest.
  repeat match goal with
         | |- context [if ?b then _ else _] => destruct b eqn:?
         end; try reflexivity.
  lia.
Qed.

(** Against an endpoint that always answers 5xx, a client that retries the
    method on 5xx uses up its retries: [retry - cur] more attempts after
    the one at hand, a pause before each, and the failure of the last
    exchange as the outcome. *)
Lemma send_always5xx cfg m url :
  always5xx exchange ->
  rangesOf cfg = [(500, 599)] -> In m (methodsOf cfg) ->
  (forall n, attempts (onRetryAttempt cfg n) = 0%nat
             /\ sleeps (onRetryAttempt cfg n) = []) ->
  forall k cur w,
    0 <= cur -> retryOf cfg - cur = Z.of_nat k ->
    exists f w' o,
      send exchange cfg m url cur w = (inr f, w', o)
      /\ exchange (worldAfter exchange k w) = (inr f, w')
      /\ attempts o = S k
      /\ sleeps o = pauses cfg cur k.
Proof.
  intros Hall Hr Hm Hcb k.
  induction k as [| k IH]; intros cur w Hcur Hk.
  - rewrite send_eq. destruct (Hall w) as (f & w1 & He & H5).
    rewrite He, no_retry_at_bound by lia.
    exists f, w1, [Attempt m url false]. simpl. auto.
  - rewrite send_eq. destruct (Hall w) as (f & w1 & He & H5).
    rewrite He, retry_5xx by (try assumption; lia).
    destruct (IH (cur + 1) w1) as (f' & w' & o & Hs & Hlast & Hn & Hp);
      [lia | lia |].
    rewrite Hs. exists f', w', (Attempt m url false
           :: onRetryAttempt cfg (cur + 1)
           ++ Sleep (backoffDelay cfg (cur + 1)) :: o).
    split; [reflexivity |]. split.
    { simpl. rewrite He. simpl. assumption. }
    destruct (Hcb (cur + 1)) as (Ha & Hsl).
    split.
    + change (attempts ([Attempt m url false] ++ onRetryAttempt cfg (cur + 1)
                ++ [Sleep (backoffDelay cfg (cur + 1))] ++ o) = S (S k)).
      rewrite !Run.attempts_app, Ha, Hn. reflexivity.
    + change (sleeps ([Attempt m url false] ++ onRetryAttempt cfg (cur + 1)
                ++ [Sleep (backoffDelay cfg (cur + 1))] ++ o)
              = pauses cfg cur (S k)).
      rewrite !Run.sleeps_app, Hsl, Hp. reflexivity.
Qed.

End Loop.
End RaxFacts.

(** ** Retry policy of the clients *)

Module Resilience.
Import JS Seen Rax.

Lemma kp_ranges (c : KeyProtect.Config) token :
  rangesOf (KeyProtect.raxConfig (KeyProtect.keyProtectClient c token))
  = [(500, 599)].
Proof. reflexivity. Qed.

Lemma appid_ranges line : rangesOf (AppID.appIdRaxConfig line) = [(500, 599)].
Proof. reflexivity. Qed.

(** The KeyProtect client leaves [backoffType] unset: its pause is the
    growing one, whatever [retryDelay] the configuration holds. *)
Lemma kp_pause_ignores_retryDelay {platform : Platform}
    (c : KeyProtect.Config) token n :
  backoffDelay (KeyProtect.raxConfig (KeyProtect.keyProtectClient c token)) n
  = growing true n.
Proof. reflexivity. Qed.

(** C3. A request of the KeyProtect client or of an AppID client is tried
    again only after an attempt that got no response or a status in
    500..599; an attempt answered with a 4xx status is the only one: the
    call settles with that failure after one exchange. *)
Theorem retry_only_without_response_or_on_5xx {platform : Platform}
    (c : KeyProtect.Config) (token line : string) (cfg : RaxConfig) :
  In cfg [KeyProtect.raxConfig (KeyProtect.keyProtectClient c token);
          AppID.appIdRaxConfig line] ->
  (forall m f cur,
      (forall r, response f = Some r -> 100 <= status r <= 599) ->
      shouldRetryRequest cfg m f cur = true ->
      response f = None \/ is5xx f)
  /\ (forall (W R : Type) (exchange : W -> (R + Rejection) * W) m url w f w1,
         exchange w = (inr f, w1) -> is4xx f ->
         call exchange cfg m url w
         = (Throw (Rejected f), w1,
            [Attempt m url false; Called m url false])).
Proof.
  intros Hcfg.
  assert (Hr : rangesOf cfg = [(500, 599)]).
  { destruct Hcfg as [<- | [<- | []]]; reflexivity. }
  split.
  - intros m f cur Hst Hretry.
    eapply RaxFacts.retry_needs_transient; eassumption.
  - intros W R exchange m url w f w1 He H4.
    unfold call. rewrite RaxFacts.send_eq, He.
    rewrite RaxFacts.no_retry_4xx by assumption. reflexivity.
Qed.

Lemma retry_only_witness :
  call (platform := Demo.demo) (Demo.answering 404)
       (KeyProtect.raxConfig (KeyProtect.keyProtectClient Demo.kpConfig "token"))
       GET "u" tt
  = (Throw (Rejected (Net.badStatus (Demo.status 404))), tt,
     [Attempt GET "u" false; Called GET "u" false]).
Proof.
  apply (proj2 (@retry_only_without_response_or_on_5xx Demo.demo
                  Demo.kpConfig "token" "line" _ (or_introl eq_refl))).
  - reflexivity.
  - exists (Demo.status 404). split; [reflexivity | simpl; lia].
Defined.

(** C4, as amended. Against an endpoint that answers every exchange with
    a 5xx status: a POST, GET, HEAD or PUT of an AppID client is attempted
    [retries + 1] times with a pause of [retryDelay] between attempts, and
    the call settles with the failure of the last attempt; a GET or DELETE
    of the KeyProtect client is attempted [retries + 1] times and settles
    with the failure of the last attempt; a POST of the KeyProtect client
    is attempted once. *)
Theorem retry_bound_on_5xx {platform : Platform} {W R : Type}
    (exchange : W -> (R + Rejection) * W) (url : string) (w : W) :
  always5xx exchange ->
  (forall line m,
      In m [POST; GET; HEAD; PUT] ->
      exists f w' o,
        call exchange (AppID.appIdRaxConfig line) m url w
        = (Throw (Rejected f), w', o)
        /\ exchange (worldAfter exchange (Z.to_nat AppID.retries) w)
           = (inr f, w')
        /\ attempts o = Z.to_nat (AppID.retries + 1)
        /\ sleeps o = [AppID.retryDelay])
  /\ (forall c token n m,
         KeyProtect.retries c = Some n -> 0 < n -> In m [GET; DELETE] ->
         exists f w' o,
           call exchange
                (KeyProtect.raxConfig (KeyProtect.keyProtectClient c token))
                m url w
           = (Throw (Rejected f), w', o)
           /\ exchange (worldAfter exchange (Z.to_nat n) w) = (inr f, w')
           /\ attempts o = Z.to_nat (n + 1))
  /\ (forall c token,
         exists f w',
           exchange w = (inr f, w')
           /\ call exchange
                   (KeyProtect.raxConfig (KeyProtect.keyProtectClient c token))
                   POST url w
              = (Throw (Rejected f), w',
                 [Attempt POST url false; Called POST url false])).
Proof.
  intros Hall. split; [| split].
  - intros line m Hm.
    assert (Hm' : In m (methodsOf (AppID.appIdRaxConfig line))) by exact Hm.
    destruct (@RaxFacts.send_always5xx W R platform exchange
                (AppID.appIdRaxConfig line) m url Hall (appid_ranges line) Hm'
                (fun n => conj eq_refl eq_refl) 1%nat 0 w)
      as (f & w' & o & Hs & Hlast & Hn & Hp); [lia | reflexivity |].
    exists f, w', (o ++ [Called m url false]).
    unfold call. rewrite Hs. split; [reflexivity |].
    split; [exact Hlast |].
    rewrite Run.attempts_app, Run.sleeps_app, Hn, Hp. simpl.
    split; reflexivity.
  - intros c token n m Hc Hn Hm.
    set (cfg := KeyProtect.raxConfig (KeyProtect.keyProtectClient c token)).
    assert (Hretry : retryOf cfg = n).
    { unfold cfg, retryOf. simpl. rewrite Hc. reflexivity. }
    assert (Hm' : In m (methodsOf cfg)).
    { simpl. simpl in Hm. tauto. }
    destruct (@RaxFacts.send_always5xx W R platform exchange cfg m url Hall
                (kp_ranges c token) Hm' (fun k => conj eq_refl eq_refl)
                (Z.to_nat n) 0 w)
      as (f & w' & o & Hs & Hlast & Hk & _); [lia | rewrite Hretry; lia |].
    exists f, w', (o ++ [Called m url false]).
    unfold call. rewrite Hs. split; [reflexivity |].
    split; [exact Hlast |].
    rewrite Run.attempts_app, Hk.
    change (attempts [Called m url false]) with 0%nat. lia.
  - intros c token. destruct (Hall w) as (f & w' & He & _).
    exists f, w'. split; [assumption |].
    unfold call. rewrite RaxFacts.send_eq, He.
    rewrite RaxFacts.no_retry_other_method.
    + reflexivity.
    + simpl. intros [H | [H | [H | [H | [H | []]]]]]; discriminate.
Qed.

Lemma always5xx_answering : always5xx Demo.answering_503.
Proof.
  intros w. exists (Net.badStatus (Demo.status 503)), w.
  split; [reflexivity |]. exists (Demo.status 503).
  split; [reflexivity | simpl; lia].
Qed.

Lemma retry_bound_witness :
  exists f o,
    call (platform := Demo.demo) Demo.answering_503
         (AppID.appIdRaxConfig "line") POST "u" tt
    = (Throw (Rejected f), tt, o)
    /\ attempts o = 2%nat /\ sleeps o = [3000].
Proof.
  destruct (proj1 (@retry_bound_on_5xx Demo.demo unit unit Demo.answering_503
                     "u" tt always5xx_answering) "line" POST (or_introl eq_refl))
    as (f & w' & o & Hc & _ & Hn & Hs).
  exists f, o. destruct w'. auto.
Defined.

(** The claim C4 as stated fails for the KeyProtect client: with
    [retries = 1] and [retryDelay = 3000], against an endpoint that always
    answers 500, its POST is attempted once, not twice, and the pause
    before the retry of its GET is not 3000 ms. *)
Lemma retry_bound_counterexample :
  let w := Demo.kpWorld Demo.kpConfig [] (repeat (Net.Refused (Demo.status 500)) 4) in
  let client := KeyProtect.keyProtectClient Demo.kpConfig "token" in
  KeyProtect.retries Demo.kpConfig = Some 1
  /\ KeyProtect.retryDelay Demo.kpConfig = Some 3000
  /\ attempts (snd (KeyProtect.request (platform := Demo.demo) client POST ""
                      (Some (KeyProtect.createBody "K" "e30=")) w)) = 1%nat
  /\ attempts (snd (KeyProtect.request (platform := Demo.demo) client GET ""
                      None w)) = 2%nat
  /\ sleeps (snd (KeyProtect.request (platform := Demo.demo) client GET ""
                    None w)) = [500].
Proof. vm_compute. repeat split. Qed.

End Resilience.

(** ** keyprotect-helper.js: the operations, one by one *)

Module KeyProtectFacts.
Import JS Seen Net KeyProtect Run.
Local Open Scope js_scope.

Lemma sameService_refl w : sameService w w.
Proof. unfold sameService. auto. Qed.

Lemma sameService_trans w1 w2 w3 :
  sameService w1 w2 -> sameService w2 w3 -> sameService w1 w3.
Proof.
  unfold sameService. intros (a & b & c & d) (a' & b' & c' & d').
  repeat split; congruence.
Qed.

Lemma sameService_after w : sameService w (after w (store w) (serial w)).
Proof. unfold sameService. simpl. auto. Qed.

Section WithPlatform.
Context {platform : Platform}.

Lemma validateConfig_inv w r w' o :
  validateConfig w = (r, w', o) ->
  w' = w /\ o = []
  /\ ((r = Ok tt /\ missingVar (keyProtectObj w) = None)
      \/ exists v, missingVar (keyProtectObj w) = Some v
                   /\ r = Throw (Error (invalidConfig v))).
Proof.
  unfold validateConfig.
  destruct (missingVar (keyProtectObj w)) as [v |]; intros H; inversion H; subst.
  - split; [reflexivity |]. split; [reflexivity |]. right. exists v. auto.
  - auto.
Qed.

Lemma token_inv key w r w' o :
  getCloudIAMToken key w = (r, w', o) ->
  sameService w w'
  /\ ((r = Ok (bearer w) /\ o = [Token true])
      \/ (exists f, r = Throw (Rejected f) /\ o = [Token false])).
Proof.
  unfold getCloudIAMToken.
  destruct (net w) as [| [u | c msg | e] rest]; intros H; inversion H; subst;
    (split; [apply sameService_after |]); eauto.
Qed.

Lemma newClient_inv token w r w' o :
  newClient token w = (r, w', o) ->
  r = Ok (keyProtectClient (keyProtectObj w) token) /\ w' = w /\ o = [].
Proof. unfold newClient. intros H. inversion H. auto. Qed.

Lemma quiet_keyProtectClient c token : quiet (keyProtectClient c token).
Proof. intros n. reflexivity. Qed.

Ltac split_tests :=
  repeat match goal with
         | |- context [if ?b then _ else _] => destruct b eqn:?
         | |- context [match ?x with _ => _ end] => destruct x eqn:?
         end.

Lemma serve_failed m path body w e w1 :
  serve m path body w = (inr e, w1) -> w1 = after w (store w) (serial w).
Proof.
  unfold serve. destruct m; split_tests; intros H; inversion H; reflexivity.
Qed.

Lemma without_one p s :
  without [p] s = filter (fun k => negb (String.eqb (id k) p)) s.
Proof.
  unfold without. apply filter_ext. intros k. simpl.
  rewrite orb_false_r. reflexivity.
Qed.

Lemma serve_answered m path body w resp w1 :
  serve m path body w = (inl resp, w1) ->
  keyProtectObj w1 = keyProtectObj w /\ bearer w1 = bearer w
  /\ match m with
     | GET =>
         store w1 = store w /\ serial w1 = serial w
         /\ (truthy path = false -> resp_resources resp = Some (store w))
     | DELETE =>
         store w1 = without [path] (store w) /\ serial w1 = serial w
     | POST =>
         exists b,
           body = Some b
           /\ store w1 = store w ++ enroll (serial w) (clock w) (body_resources b)
           /\ resp_resources resp
              = Some (enroll (serial w) (clock w) (body_resources b))
     | _ => False
     end.
Proof.
  unfold serve. rewrite without_one.
  destruct m; split_tests; intros H; inversion H; subst; simpl;
    repeat split; try discriminate; try reflexivity.
  eexists. repeat split.
Qed.

(** A failed exchange leaves the service as it was. *)
Lemma exchange_failed m path body w f w1 :
  exchange m path body w = (inr f, w1) -> sameService w w1.
Proof.
  unfold exchange.
  destruct (net w) as [| [u | c msg | e] rest].
  1,2: destruct (serve m path body w) as [[r | e] w2] eqn:Hs;
       intros H; inversion H; subst;
       apply serve_failed in Hs; subst; apply sameService_after.
  all: intros H; inversion H; subst; apply sameService_after.
Qed.

(** What an answered exchange did, by method. *)
Lemma exchange_answered m path body w resp w1 :
  exchange m path body w = (inl resp, w1) ->
  keyProtectObj w1 = keyProtectObj w /\ bearer w1 = bearer w
  /\ match m with
     | GET =>
         store w1 = store w /\ serial w1 = serial w
         /\ (truthy path = false -> resp_resources resp = Some (store w))
     | DELETE =>
         store w1 = without [path] (store w) /\ serial w1 = serial w
     | POST =>
         exists b,
           body = Some b
           /\ store w1 = store w ++ enroll (serial w) (clock w) (body_resources b)
           /\ resp_resources resp
              = Some (enroll (serial w) (clock w) (body_resources b))
     | _ => False
     end.
Proof.
  unfold exchange.
  destruct (net w) as [| [u | c msg | e] rest]; try discriminate.
  all: destruct (serve m path body w) as [[r | e] w2] eqn:Hs;
       intros H; inversion H; subst; apply serve_answered; assumption.
Qed.

(** A call through a client, settled. *)
Lemma request_inv client m path body w r w' o :
  request client m path body w = (r, w', o) ->
  (exists resp wp o1,
      r = Ok resp /\ sameService w wp
      /\ exchange m path body wp = (inl resp, w')
      /\ o = o1 ++ [Called m (target client path) true]
      /\ (quiet client -> remote o1 = []))
  \/ (exists f o1,
         r = Throw (Rejected f) /\ sameService w w'
         /\ o = o1 ++ [Called m (target client path) false]
         /\ (quiet client -> remote o1 = [])).
Proof.
  unfold request. intros H.
  apply RaxFacts.call_inv in H.
  destruct H as (x & o1 & Hs & Hx).
  pose proof (RaxFacts.send_last (exchange m path body) sameService
                (raxConfig client) m (target client path)
                sameService_refl sameService_trans
                (exchange_failed m path body) 0 w Hs) as (wp & Hsame & He).
  assert (Hq : quiet client -> remote o1 = []).
  { intros Hq. eapply RaxFacts.send_remote; [exact Hq | exact Hs]. }
  destruct Hx as [(a & -> & -> & ->) | (f & -> & -> & ->)].
  - left. exists a, wp, o1.
    split; [reflexivity |]. split; [assumption |]. split; [assumption |].
    split; [reflexivity | assumption].
  - right. exists f, o1. split; [reflexivity |]. split.
    + apply sameService_trans with wp; [assumption |].
      eapply exchange_failed; eassumption.
    + split; [reflexivity | assumption].
Qed.

End WithPlatform.

Ltac kstep H :=
  match type of H with
  | validateConfig _ = _ =>
      let Hr := fresh "Hr" in let Hmv := fresh "Hmv" in let v := fresh "v" in
      apply validateConfig_inv in H;
      destruct H as (? & ? & [(Hr & Hmv) | (v & Hmv & Hr)]); settle Hr; subst
  | getCloudIAMToken _ _ = _ =>
      let Hr := fresh "Hr" in let Hsame := fresh "Hsame" in
      let f := fresh "f" in
      apply token_inv in H;
      destruct H as (Hsame & [(Hr & ?) | (f & Hr & ?)]); settle Hr; subst
  | newClient _ _ = _ =>
      let Hr := fresh "Hr" in
      apply newClient_inv in H; destruct H as (Hr & ? & ?); settle Hr; subst
  | request _ _ _ _ _ = _ =>
      let Hr := fresh "Hr" in let Hsame := fresh "Hsame" in
      let Hex := fresh "Hex" in let Hq := fresh "Hq" in
      let resp := fresh "resp" in let wp := fresh "wp" in
      let o1 := fresh "o" in let f := fresh "f" in
      apply request_inv in H;
      destruct H as [(resp & wp & o1 & Hr & Hsame & Hex & ? & Hq)
                    | (f & o1 & Hr & Hsame & ? & Hq)];
      settle Hr; subst
  | _ => step H
  end.

Ltac ksteps :=
  repeat match goal with
         | H : validateConfig _ = _ |- _ => kstep H
         | H : getCloudIAMToken _ _ = _ |- _ => kstep H
         | H : newClient _ _ = _ |- _ => kstep H
         | H : request _ _ _ _ _ = _ |- _ => kstep H
         | H : bind _ _ _ = _ |- _ => step H
         | H : tryCatch _ _ _ = _ |- _ => step H
         | H : ret _ _ = _ |- _ => step H
         | H : throw _ _ = _ |- _ => step H
         | H : log _ _ _ = _ |- _ => step H
         | H : get _ = _ |- _ => step H
         end.

Ltac frames :=
  repeat match goal with
         | H : sameService _ _ |- _ =>
             let a := fresh "Hcfg" in let b := fresh "Hstore" in
             let c := fresh "Hserial" in let d := fresh "Hbearer" in
             destruct H as (a & b & c & d)
         end.

Ltac answered :=
  repeat match goal with
         | H : exchange _ _ _ _ = (inl _, _) |- _ =>
             apply exchange_answered in H; simpl in H; decompose record H; clear H
         end.

Ltac remotes :=
  rewrite ?remote_app;
  repeat match goal with
         | H : quiet _ -> remote _ = [] |- _ =>
             rewrite (H (quiet_keyProtectClient _ _)); clear H
         end;
  simpl.

Section Operations.
Context {platform : Platform}.

Lemma deleteKey_inv keyID w r w' o :
  deleteKey keyID w = (r, w', o) ->
  keyProtectObj w' = keyProtectObj w /\ bearer w' = bearer w
  /\ serial w' = serial w
  /\ ((r = Ok tt /\ store w' = without [keyID] (store w)
       /\ remote o
          = [Token true;
             Called DELETE
               (target (keyProtectClient (keyProtectObj w) (bearer w)) keyID)
               true])
      \/ (exists reason,
             r = Throw (Error (tpl ["Failed to delete key "; keyID;
                                    " in KeyProtect: "; reason]))
             /\ store w' = store w
             /\ (remote o = [] \/ remote o = [Token false]
                 \/ remote o
                    = [Token true;
                       Called DELETE
                         (target (keyProtectClient (keyProtectObj w) (bearer w))
                                 keyID)
                         false]))).
Proof.
  unfold deleteKey. intros H.
  ksteps; answered; frames; remotes.
  - repeat split; try congruence. left. repeat split; congruence.
  - repeat split; try congruence. right. eexists. repeat split; try congruence.
    right. right. congruence.
  - repeat split; try congruence. right. eexists. repeat split; try congruence.
    auto.
  - repeat split; try congruence. right. eexists. repeat split; try congruence.
    auto.
Qed.

Lemma warned_app_r o1 o2 : warned o2 -> warned (o1 ++ o2).
Proof. intros (msg & H). exists msg. apply in_or_app. auto. Qed.

Lemma warned_app_l o1 o2 : warned o1 -> warned (o1 ++ o2).
Proof. intros (msg & H). exists msg. apply in_or_app. auto. Qed.

Lemma warned_here msg o : warned (Log LWarn msg :: o).
Proof. exists msg. left. reflexivity. Qed.

Lemma getAllKeysHelper_inv client w r w' o :
  getAllKeysHelper client w = (r, w', o) ->
  sameService w w'
  /\ ((r = Ok (store w) /\ missingVar (keyProtectObj w) = None
       /\ In (Called GET (target client "") true) o
       /\ (quiet client -> remote o = [Called GET (target client "") true]))
      \/ (r = Ok [] /\ warned o
          /\ (quiet client ->
              remote o = [] \/ remote o = [Called GET (target client "") false]))).
Proof.
  unfold getAllKeysHelper. intros H.
  ksteps.
  all: try match goal with
           | H : match resp_resources ?r with _ => _ end _ = _ |- _ =>
               destruct (resp_resources r) eqn:Hres
           end.
  all: ksteps.
  all: repeat match goal with
         | H : exchange _ _ _ _ = (inl _, _) |- _ =>
             apply exchange_answered in H; simpl in H;
             destruct H as (? & ? & ? & ? & Hlist);
             specialize (Hlist eq_refl)
         end.
  all: try congruence.
  - assert (l = store wp) by congruence. subst l.
    split.
    { apply sameService_trans with wp; [assumption |].
      unfold sameService. auto. }
    left. destruct Hsame as (? & Hst & ? & ?). rewrite Hst.
    split; [reflexivity |]. split; [assumption |]. split.
    + simpl. apply in_or_app. left. apply in_or_app. right. left. reflexivity.
    + intros Hquiet. rewrite !remote_app, (Hq Hquiet). reflexivity.
  - split; [assumption |]. right. split; [reflexivity |]. split.
    + apply warned_app_r. apply warned_here.
    + intros Hquiet. rewrite !remote_app, (Hq Hquiet). simpl. auto.
  - split; [apply sameService_refl |]. right. split; [reflexivity |]. split.
    + apply warned_here.
    + intros _. simpl. auto.
Qed.

Lemma getKeysByName_inv client keyName w r w' o :
  getKeysByName (Some client) keyName w = (r, w', o) ->
  sameService w w'
  /\ ((r = Ok (filter (named keyName) (store w))
       /\ missingVar (keyProtectObj w) = None
       /\ In (Called GET (target client "") true) o
       /\ (quiet client -> remote o = [Called GET (target client "") true]))
      \/ (r = Ok [] /\ warned o
          /\ (quiet client ->
              remote o = [] \/ remote o = [Called GET (target client "") false]))).
Proof.
  unfold getKeysByName, getAllKeys. intros H.
  ksteps.
  all: repeat match goal with
         | H : getAllKeysHelper _ _ = _ |- _ =>
             apply getAllKeysHelper_inv in H;
             destruct H as (Hsame & [(Hr & Hmv' & Hin & Hrem)
                                    | (Hr & Hwarn & Hrem)]);
             settle Hr
         end.
  - split; [assumption |]. left.
    split; [reflexivity |]. split; [assumption |]. split.
    + simpl. apply in_or_app. left. assumption.
    + intros Hquiet. rewrite !remote_app, (Hrem Hquiet). reflexivity.
  - split; [assumption |]. right. split; [reflexivity |]. split.
    + simpl. apply warned_app_l. assumption.
    + intros Hquiet. rewrite !remote_app. simpl. rewrite app_nil_r.
      apply Hrem. assumption.
  - split; [apply sameService_refl |]. right. split; [reflexivity |]. split.
    + apply warned_here.
    + intros _. simpl. auto.
Qed.

Lemma last_cons {A} (a d : A) l : last (a :: l) d = last l a.
Proof.
  revert a d. induction l as [| b l IH]; intros a d; [reflexivity |].
  change (last (a :: b :: l) d) with (last (b :: l) d).
  rewrite (IH b d), (IH b a). reflexivity.
Qed.

Lemma without_nil s : without [] s = s.
Proof.
  unfold without. simpl. induction s as [| k s IH]; simpl; congruence.
Qed.

Lemma without_app D1 D2 s : without (D1 ++ D2) s = without D2 (without D1 s).
Proof.
  unfold without. induction s as [| k s IH]; simpl; [reflexivity |].
  rewrite existsb_app.
  destruct (existsb (String.eqb (id k)) D1); simpl; [apply IH |].
  destruct (existsb (String.eqb (id k)) D2); simpl; rewrite IH; reflexivity.
Qed.

Lemma doomed_cons kid key P :
  doomed kid (key :: P)
  = (if truthy kid then [kid] else []) ++ doomed (id key) P.
Proof.
  unfold doomed. simpl. destruct (truthy kid); reflexivity.
Qed.

Lemma deletions_app client D1 D2 :
  deletions client (D1 ++ D2) = deletions client D1 ++ deletions client D2.
Proof. unfold deletions. apply flat_map_app. Qed.

Lemma scan_inv searchName l :
  forall kid d w r w' o,
    scan searchName l kid d w = (r, w', o) ->
    keyProtectObj w' = keyProtectObj w /\ bearer w' = bearer w
    /\ serial w' = serial w
    /\ ((r = Ok (last (map id (picks searchName l d)) kid)
         /\ store w' = without (doomed kid (picks searchName l d)) (store w)
         /\ remote o
            = deletions (keyProtectClient (keyProtectObj w) (bearer w))
                        (doomed kid (picks searchName l d)))
        \/ (exists reason gone culprit,
               r = Throw (Error reason)
               /\ In culprit (doomed kid (picks searchName l d))
               /\ incl gone (doomed kid (picks searchName l d))
               /\ store w' = without gone (store w)
               /\ forall m u ok,
                    In (Called m u ok) (remote o) ->
                    m = DELETE
                    /\ exists i,
                         In i (doomed kid (picks searchName l d))
                         /\ u = target (keyProtectClient (keyProtectObj w)
                                                          (bearer w)) i)).
Proof.
  induction l as [| key rest IH]; intros kid d w r w' o H.
  - simpl in H. step H. simpl. repeat split; try reflexivity.
    left. unfold doomed. simpl. rewrite without_nil. auto.
  - simpl in H. simpl picks. unfold named.
    destruct (String.eqb (name key) searchName); simpl andb.
    2:{ apply IH. assumption. }
    destruct (isBefore d (creationDate key)).
    2:{ apply IH. assumption. }
    rewrite doomed_cons. simpl map. rewrite last_cons.
    step H.
    + (* the older key is out of the way *)
      apply IH in Hrun0.
      destruct Hrun0 as (Hc & Hb & Hs & Hrest).
      assert (Hfirst :
        keyProtectObj w0 = keyProtectObj w /\ bearer w0 = bearer w
        /\ serial w0 = serial w
        /\ store w0 = without (if truthy kid then [kid] else []) (store w)
        /\ remote o0
           = deletions (keyProtectClient (keyProtectObj w) (bearer w))
                       (if truthy kid then [kid] else [])).
      { destruct (truthy kid).
        - ksteps.
          match goal with
          | H : deleteKey _ _ = _ |- _ =>
              apply deleteKey_inv in H;
              destruct H as (? & ? & ? & [(_ & ? & ?) | (? & Hr & _)]);
              [| discriminate Hr]
          end.
          rewrite !remote_app. simpl. auto.
        - ksteps. rewrite without_nil. auto. }
      destruct Hfirst as (Hc0 & Hb0 & Hs0 & Hst0 & Hrem0).
      rewrite Hc0, Hb0 in *.
      repeat split; try congruence.
      destruct Hrest as [(Hr & Hst & Hrem)
                        | (reason & gone & culprit & Hr & Hcul & Hincl & Hst & Hcalls)].
      * left. split; [assumption |]. split.
        -- rewrite without_app, <- Hst0. assumption.
        -- rewrite remote_app, deletions_app, Hrem0, Hrem. reflexivity.
      * right. exists reason, ((if truthy kid then [kid] else []) ++ gone), culprit.
        split; [assumption |].
        split; [apply in_or_app; right; assumption |]. split.
        { apply incl_app; [apply incl_appl, incl_refl | apply incl_appr, Hincl]. }
        split.
        { rewrite without_app, <- Hst0. assumption. }
        intros m u ok Hin. rewrite remote_app in Hin.
        apply in_app_or in Hin. destruct Hin as [Hin | Hin].
        -- rewrite Hrem0 in Hin. destruct (truthy kid); [| contradiction].
           simpl in Hin. destruct Hin as [Hin | [Hin | []]]; [discriminate |].
           inversion Hin; subst. split; [reflexivity |].
           exists kid. split; [left; reflexivity | reflexivity].
        -- destruct (Hcalls m u ok Hin) as (Hm & i & Hi & Hu).
           split; [assumption |]. exists i. split; [| assumption].
           apply in_or_app. right. assumption.
    + (* deleting the older key failed *)
      destruct (truthy kid) eqn:Hkid.
      2:{ ksteps. }
      ksteps.
      match goal with
      | H : deleteKey _ _ = _ |- _ =>
          apply deleteKey_inv in H;
          destruct H as (? & ? & ? & [(Hr & _) | (reason & Hr & Hst & Hrem)]);
          [discriminate Hr |]
      end.
      inversion Hr; subst.
      repeat split; try assumption.
      right. eexists. exists [], kid. split; [reflexivity |].
      split; [left; reflexivity |].
      split; [intros x [] |]. split; [rewrite without_nil; assumption |].
      intros m u ok Hin. rewrite !remote_app in Hin. simpl in Hin.
      destruct Hrem as [Hrem | [Hrem | Hrem]]; rewrite Hrem in Hin; simpl in Hin.
      * contradiction.
      * destruct Hin as [Hin | []]. discriminate.
      * destruct Hin as [Hin | [Hin | []]]; [discriminate |].
        inversion Hin; subst. split; [reflexivity |].
        exists kid. split; [left; reflexivity | reflexivity].
Qed.

End Operations.
End KeyProtectFacts.

(** ** Lists of keys *)

Module KeyLists.
Import JS KeyProtect.

Lemma truthy_false s : truthy s = false -> s = "".
Proof.
  unfold truthy. intros H. apply negb_false_iff in H.
  apply String.eqb_eq in H. assumption.
Qed.

Lemma named_filter n s : Forall (fun k => named n k = true) (filter (named n) s).
Proof. apply Forall_forall. intros k Hk. apply filter_In in Hk. tauto. Qed.

(** A listing in strictly increasing order of creation date is picked
    whole. *)
Lemma picks_ascending n l :
  forall d,
    Forall (fun k => named n k = true) l -> ascending d l = true ->
    picks n l d = l.
Proof.
  induction l as [| k l IH]; intros d Hn Ha; [reflexivity |].
  simpl in *. inversion Hn; subst.
  apply andb_true_iff in Ha. destruct Ha as (Hb & Ha).
  rewrite H1, Hb. simpl. f_equal. apply IH; assumption.
Qed.

(** The keys the scan deletes and the one it leaves are, together, the
    picked ones. *)
Lemma doomed_and_last P :
  doomed "" P
    ++ (if truthy (last (map id P) "") then [last (map id P) ""] else [])
  = filter truthy (map id P).
Proof.
  unfold doomed.
  assert (H : "" :: map id P
              = removelast ("" :: map id P) ++ [last (map id P) ""]).
  { rewrite <- (KeyProtectFacts.last_cons "" "" (map id P)).
    apply app_removelast_last. discriminate. }
  transitivity (filter truthy ("" :: map id P)); [| reflexivity].
  rewrite H at 2. rewrite filter_app. reflexivity.
Qed.

Lemma truthy_ids l :
  Forall (fun k => truthy (id k) = true) l ->
  filter truthy (map id l) = map id l.
Proof.
  induction 1 as [| k l Hk _ IH]; simpl; [reflexivity |].
  rewrite Hk, IH. reflexivity.
Qed.

Lemma unique_by_id s k k' :
  NoDup (map id s) -> In k s -> In k' s -> id k = id k' -> k = k'.
Proof.
  induction s as [| x s IH]; intros Hnd Hk Hk' Hid; [contradiction |].
  simpl in Hnd. inversion Hnd as [| ? ? Hx Hnd']; subst.
  destruct Hk as [-> | Hk], Hk' as [-> | Hk'].
  - reflexivity.
  - exfalso. apply Hx. rewrite Hid. apply in_map. assumption.
  - exfalso. apply Hx. rewrite <- Hid. apply in_map. assumption.
  - apply IH; assumption.
Qed.

(** With unique identifiers, taking away the identifiers of the keys of
    one name takes away exactly the keys of that name. *)
Lemma without_named n s :
  NoDup (map id s) ->
  without (map id (filter (named n) s)) s = filter (fun k => negb (named n k)) s.
Proof.
  intros Hnd. unfold without. apply filter_ext_in. intros k Hk. f_equal.
  destruct (named n k) eqn:Hn.
  - apply existsb_exists. exists (id k). split; [| apply String.eqb_refl].
    apply in_map. apply filter_In. auto.
  - apply not_true_is_false. intros Hex. apply existsb_exists in Hex.
    destruct Hex as (i & Hi & Heq). apply String.eqb_eq in Heq. subst i.
    apply in_map_iff in Hi. destruct Hi as (k' & Hid & Hk').
    apply filter_In in Hk'. destruct Hk' as (Hk' & Hn').
    assert (k' = k) by (apply (unique_by_id s); auto).
    subst. congruence.
Qed.

Lemma filter_named_others n s new :
  named n new = true ->
  filter (named n) (filter (fun k => negb (named n k)) s ++ [new]) = [new].
Proof.
  intros Hnew. rewrite filter_app. simpl. rewrite Hnew.
  replace (filter (named n) (filter (fun k => negb (named n k)) s)) with (@nil KeyRecord);
    [reflexivity |].
  induction s as [| k s IH]; simpl; [reflexivity |].
  destruct (named n k) eqn:Hk; simpl; [assumption |].
  rewrite Hk. assumption.
Qed.

Lemma picks_filter n s d : picks n (filter (named n) s) d = picks n s d.
Proof.
  revert d. induction s as [| k s IH]; intros d; simpl; [reflexivity |].
  destruct (named n k) eqn:Hk; simpl; [| apply IH].
  rewrite Hk. simpl. destruct (isBefore d (creationDate k)); rewrite IH; reflexivity.
Qed.

Lemma picks_app n l1 l2 d :
  picks n (l1 ++ l2) d = picks n l1 d ++ picks n l2 (newest n l1 d).
Proof.
  revert d. induction l1 as [| k l1 IH]; intros d; simpl; [reflexivity |].
  destruct (named n k && isBefore d (creationDate k)); simpl; rewrite IH;
    reflexivity.
Qed.

Lemma picks_incl n l d k : In k (picks n l d) -> In k l.
Proof.
  revert d. induction l as [| x l IH]; intros d; simpl; [tauto |].
  destruct (named n x && isBefore d (creationDate x)); simpl.
  - intros [-> | H]; [auto | right; eapply IH; eassumption].
  - intros H. right. eapply IH; eassumption.
Qed.

Lemma newest_app n l1 l2 d : newest n (l1 ++ l2) d = newest n l2 (newest n l1 d).
Proof.
  revert d. induction l1 as [| k l1 IH]; intros d; simpl; [reflexivity |].
  destruct (named n k && isBefore d (creationDate k)); apply IH.
Qed.

(** The newest date never goes back. *)
Lemma newest_grows n l :
  forall x, exists y, newest n l (Some x) = Some y /\ x <= y.
Proof.
  induction l as [| k l IH]; intros x; simpl.
  - exists x. split; [reflexivity | lia].
  - destruct (named n k); simpl; [| apply IH].
    destruct (creationDate k) as [t |] eqn:Hd; simpl; [| apply IH].
    destruct (Z.ltb x t) eqn:Hlt; [| apply IH].
    destruct (IH t) as (y & Hy & Hle). exists y. split; [assumption |].
    apply Z.ltb_lt in Hlt. lia.
Qed.

(** Once a key of the name has been seen, no later key of the same date
    is picked. *)
Lemma tie_not_picked n l1 a l2 b x :
  named n a = true -> creationDate a = creationDate b ->
  picks n [b] (newest n (l1 ++ a :: l2) (Some x)) = [].
Proof.
  intros Ha Hd.
  replace (l1 ++ a :: l2) with ((l1 ++ [a]) ++ l2)
    by (rewrite <- app_assoc; reflexivity).
  rewrite newest_app.
  assert (Hafter : exists y, newest n (l1 ++ [a]) (Some x) = Some y
                             /\ isBefore (Some y) (creationDate a) = false).
  { rewrite newest_app. destruct (newest_grows n l1 x) as (y1 & -> & _).
    simpl. rewrite Ha. simpl.
    destruct (creationDate a) as [t |]; simpl.
    - destruct (Z.ltb y1 t) eqn:Hlt.
      + exists t. split; [reflexivity | apply Z.ltb_irrefl].
      + exists y1. split; [reflexivity | assumption].
    - exists y1. split; reflexivity. }
  destruct Hafter as (y & -> & Hy).
  destruct (newest_grows n l2 y) as (y2 & -> & Hle).
  change (picks n [b] (Some y2))
    with (if named n b && isBefore (Some y2) (creationDate b)
          then [b] else []).
  rewrite <- Hd.
  replace (isBefore (Some y2) (creationDate a)) with false.
  - rewrite andb_false_r. reflexivity.
  - symmetry. destruct (creationDate a) as [t |]; simpl in *; [| reflexivity].
    apply Z.ltb_ge. apply Z.ltb_ge in Hy. lia.
Qed.

(** With unique identifiers, the later of two keys of one name and date
    is none of the picked keys. *)
Lemma tie_skipped n l1 a l2 b l3 x k :
  NoDup (map id (l1 ++ a :: l2 ++ b :: l3)) ->
  named n a = true -> creationDate a = creationDate b ->
  In k (picks n (l1 ++ a :: l2 ++ b :: l3) (Some x)) -> id k <> id b.
Proof.
  intros Hnd Ha Hd Hk.
  replace (l1 ++ a :: l2 ++ b :: l3) with ((l1 ++ a :: l2) ++ [b] ++ l3) in Hk
    by (rewrite <- app_assoc; reflexivity).
  rewrite (picks_app n (l1 ++ a :: l2) ([b] ++ l3)), (picks_app n [b] l3),
    (tie_not_picked n l1 a l2 b x Ha Hd) in Hk.
  simpl in Hk.
  assert (Hin : In k (l1 ++ a :: l2) \/ In k l3).
  { apply in_app_or in Hk. destruct Hk as [Hk | Hk];
      [left | right]; eapply picks_incl; eassumption. }
  replace (l1 ++ a :: l2 ++ b :: l3) with ((l1 ++ a :: l2) ++ b :: l3) in Hnd
    by (rewrite <- app_assoc; reflexivity).
  rewrite map_app in Hnd. simpl in Hnd.
  apply NoDup_remove_2 in Hnd. intros Heq. apply Hnd.
  rewrite <- Heq. apply in_or_app.
  destruct Hin as [Hin | Hin]; [left | right]; apply in_map; assumption.
Qed.

Lemma doomed_picked kid P i :
  In i (doomed kid P) -> truthy i = true /\ (i = kid \/ In i (map id P)).
Proof.
  unfold doomed. intros Hi. apply filter_In in Hi. destruct Hi as (Hi & Ht).
  split; [assumption |].
  assert (Hl : In i (kid :: map id P)).
  { clear Ht. revert Hi. generalize (kid :: map id P). intros l.
    induction l as [| y l IH]; simpl; [tauto |].
    destruct l; [simpl; tauto |]. intros [-> | H]; [auto | right; auto]. }
  destruct Hl; auto.
Qed.

Lemma last_picked {A} (l : list A) d : last l d = d \/ In (last l d) l.
Proof.
  revert d. induction l as [| a l IH]; intros d; [left; reflexivity |].
  rewrite KeyProtectFacts.last_cons.
  destruct (IH a) as [-> | H]; right; [left; reflexivity | right; assumption].
Qed.

End KeyLists.

(** ** Reconciling the keys of a name *)

Module Reconciliation.
Import JS Seen Net KeyProtect Run KeyProtectFacts KeyLists.
Local Open Scope js_scope.

Ltac branches :=
  repeat match goal with
         | H : (if ?b then _ else _) _ = _ |- _ => destruct b eqn:?
         | H : validateConfig _ = _ |- _ => kstep H
         | H : getCloudIAMToken _ _ = _ |- _ => kstep H
         | H : newClient _ _ = _ |- _ => kstep H
         | H : request _ _ _ _ _ = _ |- _ => kstep H
         | H : bind _ _ _ = _ |- _ => step H
         | H : tryCatch _ _ _ = _ |- _ => step H
         | H : ret _ _ = _ |- _ => step H
         | H : throw _ _ = _ |- _ => step H
         | H : log _ _ _ = _ |- _ => step H
         | H : get _ = _ |- _ => step H
         end.

Section WithPlatform.
Context {platform : Platform}.

Lemma parseKeyID_inv resp w r w' o :
  parseKeyID resp w = (r, w', o) ->
  w' = w /\ remote o = []
  /\ r = Ok match resp_resources resp with
            | Some (first :: _) => id first
            | _ => ""
            end.
Proof.
  unfold parseKeyID.
  destruct (resp_resources resp) as [[| first rest] |]; intros H.
  - branches. auto.
  - destruct (truthy (id first)) eqn:Hid; branches; auto.
    apply truthy_false in Hid. rewrite Hid. auto.
  - branches. auto.
Qed.

Lemma target_root c token :
  target (keyProtectClient c token) "" = Rax.orDefault (url c) "".
Proof. reflexivity. Qed.

Lemma target_same c token token' path :
  target (keyProtectClient c token) path
  = target (keyProtectClient c token') path.
Proof. reflexivity. Qed.

(** A run of [createKey] that returns: what it found, what it deleted,
    what it created and what it asked of the remote services. *)
Lemma createKey_ok keyName keyPayload w kid w' o :
  createKey keyName keyPayload w = (Ok kid, w', o) ->
  exists L listing t,
    ((L = filter (named keyName) (store w)
      /\ listing = [Called GET (base w) true])
     \/ (L = [] /\ (listing = [] \/ listing = [Called GET (base w) false])))
    /\ store w'
       = without (filter truthy (map id (picks keyName L (Some 0)))) (store w)
         ++ [{| id := keyId (serial w); name := keyName;
                creationDate := Some t;
                payload := Some (toBase64 (stringify keyPayload)) |}]
    /\ kid = keyId (serial w)
    /\ remote o
       = Token true :: listing
         ++ deletions (keyProtectClient (keyProtectObj w) (bearer w))
                      (filter truthy (map id (picks keyName L (Some 0))))
         ++ [Called POST (base w) true].
Proof.
  unfold createKey, getNewestKeyIDByName. intros H.
  branches.
  all: match goal with
       | H : getKeysByName _ _ ?wa = (Ok ?l, ?wb, ?ol) |- _ =>
           rename wa into wT; rename l into L; rename wb into wL;
           rename ol into oL;
           apply getKeysByName_inv in H;
           destruct H as (HsL & Hlist)
       end.
  all: match goal with
       | H : scan _ _ _ _ _ = (_, ?ws, ?os) |- _ =>
           rename ws into wS; rename os into oS;
           apply scan_inv in H;
           destruct H as (Hc2 & Hb2 & Hs2
                          & [(Hr2 & Hst2 & Hrem2) | (? & ? & ? & Hr2 & _)]);
           [| discriminate Hr2]
       end.
  all: match goal with
       | H : parseKeyID _ _ = (_, _, ?oi) |- _ =>
           rename oi into oI;
           apply parseKeyID_inv in H; destruct H as (-> & Hrem5 & Hr5)
       end.
  all: match goal with
       | H : exchange _ _ _ ?wp = (inl _, ?wc) |- _ =>
           rename wp into wP; rename wc into wC;
           apply exchange_answered in H; simpl in H;
           destruct H as (Hc4 & Hb4 & b & Hbody & Hst4 & Hres4)
       end.
  all: match goal with
       | H : quiet _ -> remote ?o = [] |- _ =>
           rename o into oR; rename H into HoR;
           specialize (HoR (quiet_keyProtectClient _ _))
       end.
  all: frames.
  all: inversion Hbody; subst b; clear Hbody; simpl in Hst4, Hres4.
  all: rewrite Hres4 in Hr5; simpl in Hr5.
  all: inversion Hr2; inversion Hr5; subst; clear Hr2 Hr5.
  all: try match goal with
           | H : deleteKey _ _ = (_, ?wd, ?od) |- _ =>
               rename wd into wD; rename od into oD;
               apply deleteKey_inv in H;
               destruct H as (Hc3 & Hb3 & Hs3
                              & [(_ & Hst3 & Hrem3) | (? & Hr3 & _)]);
               [| discriminate Hr3]
           end.
  all: exists L, (remote oL), (clock wP).
  all: rewrite <- (doomed_and_last (picks keyName L (Some 0))).
  all: match goal with
       | H : truthy (last _ _) = _ |- _ => rewrite H
       end.
  all: rewrite !remote_app, ?Hrem5, ?Hrem2, ?Hrem3, ?deletions_app, ?without_app.
  all: rewrite HoR.
  all: unfold base; rewrite ?target_root.
  all: split;
    [ destruct Hlist as [(Hr & _ & _ & Hrem) | (Hr & _ & Hrem)];
      inversion Hr; subst;
      specialize (Hrem (quiet_keyProtectClient _ _));
      rewrite target_root in Hrem;
      [ left; split; congruence
      | right; split; [reflexivity |];
        destruct Hrem as [-> | ->]; [left | right]; congruence ]
    | ].
  - split; [| split; [congruence |]].
    + rewrite Hst4. f_equal; [| congruence]. congruence.
    + replace (keyProtectObj wL) with (keyProtectObj w) by congruence.
      replace (keyProtectObj wS) with (keyProtectObj w) by congruence.
      replace (keyProtectObj wT) with (keyProtectObj w) by congruence.
      replace (bearer wL) with (bearer w) by congruence.
      replace (bearer wS) with (bearer w) by congruence.
      simpl. rewrite ?app_nil_r, <- ?app_assoc. reflexivity.
  - split; [| split; [congruence |]].
    + rewrite Hst4. f_equal; [| congruence].
      rewrite without_nil. congruence.
    + replace (keyProtectObj wL) with (keyProtectObj w) by congruence.
      replace (keyProtectObj wT) with (keyProtectObj w) by congruence.
      replace (bearer wL) with (bearer w) by congruence.
      simpl. rewrite ?app_nil_r, <- ?app_assoc. reflexivity.
Qed.

Lemma remote_In x o : In x o -> isRemote x = true -> In x (remote o).
Proof. intros H Hr. apply filter_In. auto. Qed.

Lemma wellFormed_named n s :
  wellFormed s ->
  filter truthy (map id (filter (named n) s)) = map id (filter (named n) s).
Proof.
  intros (_ & Hall). apply truthy_ids. apply Forall_forall. intros k Hk.
  apply filter_In in Hk. destruct Hk as (Hk & _).
  rewrite Forall_forall in Hall. apply Hall. assumption.
Qed.

(** Where [createKey] does replace the keys of a name. A call of
    [createKey] that returns, having obtained the listing of the keys,
    made while the keys of that name are listed in strictly increasing
    order of creation date (the first later than the epoch) and
    identifiers are unique and not empty: it deletes every key that
    existed under that name (one delete call per key, in listing order),
    creates one key of that name carrying the base64 encoding of the JSON
    text of the payload, and returns the identifier of that key;
    afterwards that key is the only one of its name. *)
Theorem createKey_replaces_ascending keyName keyPayload w kid w' o :
  createKey keyName keyPayload w = (Ok kid, w', o) ->
  In (Called GET (base w) true) o ->
  wellFormed (store w) ->
  ascending (Some 0) (filter (named keyName) (store w)) = true ->
  exists t,
    let created := {| id := keyId (serial w); name := keyName;
                      creationDate := Some t;
                      payload := Some (toBase64 (stringify keyPayload)) |} in
    store w' = filter (fun k => negb (named keyName k)) (store w) ++ [created]
    /\ kid = id created
    /\ filter (named keyName) (store w') = [created]
    /\ remote o
       = Token true :: Called GET (base w) true
         :: deletions (keyProtectClient (keyProtectObj w) (bearer w))
                      (map id (filter (named keyName) (store w)))
         ++ [Called POST (base w) true].
Proof.
  intros H Hlisted Hwf Hasc.
  apply createKey_ok in H.
  destruct H as (L & listing & t & Hl & Hst & Hkid & Hrem).
  destruct Hl as [(-> & ->) | (-> & Hl)].
  - rewrite picks_ascending in Hst, Hrem by (try apply named_filter; assumption).
    rewrite wellFormed_named in Hst, Hrem by assumption.
    rewrite without_named in Hst by apply Hwf.
    exists t. simpl. split; [assumption |]. split; [assumption |].
    split; [| assumption].
    rewrite Hst. apply filter_named_others. unfold named. simpl.
    apply String.eqb_refl.
  - exfalso. apply remote_In in Hlisted; [| reflexivity].
    rewrite Hrem in Hlisted. simpl in Hlisted.
    destruct Hlisted as [Hx | Hx]; [discriminate |].
    apply in_app_or in Hx.
    destruct Hx as [Hx | [Hx | []]]; [| discriminate].
    destruct Hl as [-> | ->]; simpl in Hx; [contradiction |].
    destruct Hx as [Hx | []]. discriminate.
Qed.

End WithPlatform.

Lemma createKey_replaces_witness :
  let run := createKey (platform := Demo.demo) "K" (JObj [])
               (Demo.kpWorld Demo.kpConfig Demo.ascendingKeys []) in
  exists t,
    filter (named "K") (store (snd (fst run)))
    = [{| id := "key-0"; name := "K"; creationDate := Some t;
          payload := Some "base64({})" |}].
Proof.
  set (w := Demo.kpWorld Demo.kpConfig Demo.ascendingKeys []).
  set (run := createKey (platform := Demo.demo) "K" (JObj []) w).
  destruct (@createKey_replaces_ascending Demo.demo "K" (JObj []) w
              "key-0" (snd (fst run)) (snd run))
    as (t & _ & _ & H & _).
  - vm_compute. reflexivity.
  - vm_compute. tauto.
  - split.
    + simpl. repeat constructor; simpl; intuition discriminate.
    + repeat constructor.
  - reflexivity.
  - exists t. exact H.
Defined.

(** C1. The code misses what the claim says, and what its own comment
    (delete older key with same name) and log lines announce, when the
    keys of the name are not listed oldest first. With three keys named K
    listed newest first (a of date 3, b of date 2, c of date 1) the scan
    deletes nothing, [createKey] deletes a alone, creates a key and
    returns: the call has listed three keys named K, and afterwards three
    keys named K exist, the older b and c among them. *)
Lemma createKey_leaves_duplicates :
  let run := createKey (platform := Demo.demo) "K" (JObj [])
               (Demo.kpWorld Demo.kpConfig Demo.descendingKeys []) in
  fst (fst run) = Ok "key-0"
  /\ remote (snd run)
     = [Token true; Called GET "https://kp.example/api/v2/keys" true;
        Token true; Called DELETE "https://kp.example/api/v2/keys/a" true;
        Called POST "https://kp.example/api/v2/keys" true]
  /\ map id (filter (named "K") (store (snd (fst run)))) = ["b"; "c"; "key-0"].
Proof. vm_compute. tauto. Qed.

End Reconciliation.

(** ** Keys of one name and one creation date *)

Module TieBreak.
Import JS Seen Net KeyProtect Run KeyProtectFacts KeyLists Reconciliation.
Local Open Scope js_scope.

Section WithPlatform.
Context {platform : Platform}.

(** A run of [getNewestKeyIDByName] through a client of the helper: what
    it listed, what it returned and deleted. *)
Lemma getNewestKeyIDByName_inv searchName token w r w' o :
  getNewestKeyIDByName (Some (keyProtectClient (keyProtectObj w) token))
    searchName w = (r, w', o) ->
  exists L listing rest,
    remote o = listing ++ rest
    /\ ((L = filter (named searchName) (store w)
         /\ listing = [Called GET (base w) true])
        \/ (L = [] /\ (listing = [] \/ listing = [Called GET (base w) false])))
    /\ ((r = Ok (last (map id (picks searchName L (Some 0))) "")
         /\ store w' = without (doomed "" (picks searchName L (Some 0))) (store w)
         /\ rest = deletions (keyProtectClient (keyProtectObj w) (bearer w))
                             (doomed "" (picks searchName L (Some 0))))
        \/ (exists reason gone culprit,
               r = Throw (Error reason)
               /\ In culprit (doomed "" (picks searchName L (Some 0)))
               /\ incl gone (doomed "" (picks searchName L (Some 0)))
               /\ store w' = without gone (store w)
               /\ forall m u ok,
                    In (Called m u ok) rest ->
                    m = DELETE
                    /\ exists i,
                         In i (doomed "" (picks searchName L (Some 0)))
                         /\ u = target (keyProtectClient (keyProtectObj w)
                                                          (bearer w)) i)).
Proof.
  unfold getNewestKeyIDByName. intros H. step H.
  2:{ apply getKeysByName_inv in Hrun.
      destruct Hrun as (_ & [(Hr & _) | (Hr & _)]); discriminate Hr. }
  apply getKeysByName_inv in Hrun. destruct Hrun as (Hsame & Hlist).
  apply scan_inv in Hrun0.
  destruct Hrun0 as (Hc & Hb & Hs & Hscan).
  destruct Hsame as (Hc0 & Hst0 & Hs0 & Hb0).
  rewrite Hc0, Hb0, Hst0 in Hscan.
  exists a, (remote o0), (remote o1).
  split; [apply remote_app |]. split.
  - destruct Hlist as [(Hr & _ & _ & Hrem) | (Hr & _ & Hrem)];
      inversion Hr; subst;
      specialize (Hrem (quiet_keyProtectClient _ _)).
    + left. split; [reflexivity | exact Hrem].
    + right. split; [reflexivity | exact Hrem].
  - exact Hscan.
Qed.

(** C2, as amended. In every listing that holds two keys of the searched
    name with the same creation date, the scan of [getNewestKeyIDByName]
    never makes the later-listed one the newest: it does not return it,
    does not delete it, and addresses no delete call to it. When the two
    are the only keys of that name, their date is valid and after the
    epoch, and the listing was obtained, the scan returns the
    earlier-listed key and deletes nothing. *)
Theorem tie_keeps_earlier_listed searchName token w r w' o l1 a l2 b l3 :
  getNewestKeyIDByName (Some (keyProtectClient (keyProtectObj w) token))
    searchName w = (r, w', o) ->
  wellFormed (store w) ->
  store w = l1 ++ a :: l2 ++ b :: l3 ->
  name a = searchName -> name b = searchName ->
  creationDate a = creationDate b ->
  (In b (store w') /\ r <> Ok (id b)
   /\ forall u ok,
        In (Called DELETE u ok) (remote o) ->
        exists i,
          u = target (keyProtectClient (keyProtectObj w) (bearer w)) i
          /\ i <> id b)
  /\ (forall t,
         filter (named searchName) (store w) = [a; b] ->
         creationDate a = Some t -> 0 < t ->
         In (Called GET (base w) true) o ->
         r = Ok (id a) /\ store w' = store w
         /\ remote o = [Called GET (base w) true]).
Proof.
  intros H (Hnd & Hids) Hlist Ha Hb Hd.
  apply getNewestKeyIDByName_inv in H.
  destruct H as (L & listing & rest & Hrem & HL & Hscan).
  assert (Han : named searchName a = true) by (apply String.eqb_eq; exact Ha).
  assert (Hbn : named searchName b = true) by (apply String.eqb_eq; exact Hb).
  assert (Hbin : In b (store w)).
  { rewrite Hlist. apply in_or_app. right. right. apply in_or_app. right.
    left. reflexivity. }
  assert (Hbt : truthy (id b) = true).
  { rewrite Forall_forall in Hids. apply Hids. assumption. }
  (* no picked key has the identifier of b *)
  assert (Hskip : forall k, In k (picks searchName L (Some 0)) -> id k <> id b).
  { destruct HL as [(-> & _) | (-> & _)]; [| intros k []].
    intros k Hk. rewrite picks_filter, Hlist in Hk.
    rewrite Hlist in Hnd. eapply tie_skipped; eassumption. }
  assert (Hdoom : forall i, In i (doomed "" (picks searchName L (Some 0))) ->
                            i <> id b).
  { intros i Hi. apply doomed_picked in Hi. destruct Hi as (Hti & [-> | Hi]).
    - discriminate Hti.
    - apply in_map_iff in Hi. destruct Hi as (k & <- & Hk). apply Hskip, Hk. }
  assert (Hkept : forall gone, incl gone (doomed "" (picks searchName L (Some 0))) ->
                               In b (without gone (store w))).
  { intros gone Hincl. apply filter_In. split; [assumption |].
    apply negb_true_iff. apply not_true_is_false. intros Hex.
    apply existsb_exists in Hex. destruct Hex as (i & Hi & Heq).
    apply String.eqb_eq in Heq. apply (Hdoom i); [apply Hincl, Hi | congruence]. }
  assert (Hlisting : forall u ok, ~ In (Called DELETE u ok) listing).
  { intros u ok Hin.
    destruct HL as [(_ & ->) | (_ & [-> | ->])]; simpl in Hin;
      try contradiction; destruct Hin as [Hin | []]; discriminate. }
  split.
  - destruct Hscan as [(-> & -> & ->)
                      | (reason & gone & culprit & -> & _ & Hincl & -> & Hcalls)].
    + split; [apply Hkept, incl_refl |]. split.
      * intros Heq. inversion Heq as [Hlast].
        destruct (last_picked (map id (picks searchName L (Some 0))) "")
          as [He | Hin].
        -- rewrite He in Hlast. rewrite <- Hlast in Hbt. discriminate.
        -- rewrite Hlast in Hin. apply in_map_iff in Hin.
           destruct Hin as (k & Hk & Hkin). apply (Hskip k Hkin Hk).
      * intros u ok Hin. rewrite Hrem in Hin. apply in_app_or in Hin.
        destruct Hin as [Hin | Hin]; [exfalso; eapply Hlisting; eassumption |].
        unfold deletions in Hin. apply in_flat_map in Hin.
        destruct Hin as (i & Hi & Hin). simpl in Hin.
        destruct Hin as [Hin | [Hin | []]]; [discriminate |].
        inversion Hin; subst. exists i. split; [reflexivity | apply Hdoom, Hi].
    + split; [apply Hkept, Hincl |]. split; [discriminate |].
      intros u ok Hin. rewrite Hrem in Hin. apply in_app_or in Hin.
      destruct Hin as [Hin | Hin]; [exfalso; eapply Hlisting; eassumption |].
      destruct (Hcalls DELETE u ok Hin) as (_ & i & Hi & ->).
      exists i. split; [reflexivity | apply Hdoom, Hi].
  - intros t Hfil Hdate Hpos Hgot.
    assert (HLab : L = [a; b]).
    { destruct HL as [(-> & _) | (-> & Hl)]; [assumption |].
      exfalso. apply remote_In in Hgot; [| reflexivity].
      rewrite Hrem in Hgot. apply in_app_or in Hgot.
      destruct Hgot as [Hgot | Hgot].
      - destruct Hl as [-> | ->]; simpl in Hgot; [contradiction |].
        destruct Hgot as [Hgot | []]. discriminate.
      - simpl in Hscan.
        destruct Hscan as [(_ & _ & ->) | (? & ? & ? & _ & [] & _)].
        contradiction. }
    subst L.
    assert (Hp : picks searchName [a; b] (Some 0) = [a]).
    { simpl. rewrite Han, Hbn, <- Hd, Hdate. simpl.
      replace (Z.ltb 0 t) with true by (symmetry; apply Z.ltb_lt; assumption).
      rewrite Z.ltb_irrefl. reflexivity. }
    rewrite Hp in Hscan. unfold doomed in Hscan. simpl in Hscan.
    destruct Hscan as [(-> & -> & ->) | (? & ? & ? & _ & [] & _)].
    split; [reflexivity |]. split; [apply without_nil |].
    rewrite Hrem.
    destruct HL as [(_ & ->) | (Habs & _)]; [reflexivity | discriminate Habs].
Qed.

End WithPlatform.

Lemma tie_keeps_witness :
  let run := getNewestKeyIDByName (platform := Demo.demo)
               (Some (keyProtectClient Demo.kpConfig "token")) "K"
               (Demo.kpWorld Demo.kpConfig Demo.tiedKeys []) in
  fst (fst run) = Ok "a" /\ store (snd (fst run)) = Demo.tiedKeys.
Proof.
  set (w := Demo.kpWorld Demo.kpConfig Demo.tiedKeys []).
  set (run := getNewestKeyIDByName (platform := Demo.demo)
                (Some (keyProtectClient Demo.kpConfig "token")) "K" w).
  destruct (@tie_keeps_earlier_listed Demo.demo "K" "token" w
              (fst (fst run)) (snd (fst run)) (snd run)
              [] (Demo.key "a" 5) [] (Demo.key "b" 5) [])
    as (_ & H).
  - vm_compute. reflexivity.
  - split.
    + simpl. repeat constructor; simpl; intuition discriminate.
    + repeat constructor.
  - reflexivity.
  - reflexivity.
  - reflexivity.
  - reflexivity.
  - destruct (H 5) as (Hr & Hs & _).
    + reflexivity.
    + reflexivity.
    + lia.
    + vm_compute. tauto.
    + split; [exact Hr | exact Hs].
Defined.

(** The claim C2 as stated fails: of two keys named K with the same
    creation date, the scan returns the earlier-listed one and deletes
    neither. *)
Lemma tie_counterexample :
  let run := getNewestKeyIDByName (platform := Demo.demo)
               (Some (keyProtectClient Demo.kpConfig "token")) "K"
               (Demo.kpWorld Demo.kpConfig Demo.tiedKeys []) in
  fst (fst run) = Ok "a"
  /\ map id (store (snd (fst run))) = ["a"; "b"]
  /\ remote (snd run) = [Called GET "https://kp.example/api/v2/keys" true].
Proof. vm_compute. tauto. Qed.

End TieBreak.

(** ** Failures: which are raised, which are swallowed *)

Module Failures.
Import JS Seen Net KeyProtect Run KeyProtectFacts KeyLists Reconciliation TieBreak.
Local Open Scope js_scope.

Section WithPlatform.
Context {platform : Platform}.

Lemma failureReasons_invalid v :
  failureReasons (Error (invalidConfig v)) = invalidConfig v.
Proof. reflexivity. Qed.

Lemma validateConfig_missing w v :
  missingVar (keyProtectObj w) = Some v ->
  validateConfig w = (Throw (Error (invalidConfig v)), w, []).
Proof. intros H. unfold validateConfig. rewrite H. reflexivity. Qed.

(** The name [validateConfig] reports is that of the first required field,
    in the order of its tests, that is not set. *)
Lemma missingVar_first c :
  missingVar c
  = option_map fst (find (fun f => negb (snd f)) (requiredFields c)).
Proof.
  unfold missingVar, requiredFields. simpl.
  destruct (truthyStr (url c)); simpl; [| reflexivity].
  destruct (truthyStr (instanceID c)); simpl; [| reflexivity].
  destruct (truthyStr (apikey c)); simpl; [| reflexivity].
  destruct (truthyNum (retries c)); simpl; [| reflexivity].
  destruct (truthyNum (retryDelay c)); simpl; [| reflexivity].
  destruct (truthyNum (timeout c)); reflexivity.
Qed.

(** C5, as amended. Called while a required field of the configuration is
    not set, every operation stops at the validation, before any token is
    requested and before anything goes over the wire, and names the first
    such field: [deleteKey] and [createKey] fail with an error that names
    it; [getKeyByID] and [getNewestKeyByName] return [''], and [getAllKeys]
    given a client returns [[]], after logging a warning that names it. *)
Theorem missing_field_stops_before_any_request w v :
  missingVar (keyProtectObj w) = Some v ->
  option_map fst (find (fun f => negb (snd f)) (requiredFields (keyProtectObj w)))
  = Some v
  /\ (forall keyID,
         let errMsg := tpl ["Failed to delete key "; keyID; " in KeyProtect: ";
                            invalidConfig v] in
         deleteKey keyID w = (Throw (Error errMsg), w, [Log LError errMsg]))
  /\ (forall keyName keyPayload,
         let errMsg := tpl ["Failed to create key in KeyProtect: ";
                            invalidConfig v] in
         createKey keyName keyPayload w
         = (Throw (Error errMsg), w, [Log LError errMsg]))
  /\ (forall keyID,
         getKeyByID keyID w
         = (Ok Blank, w,
            [Log LWarn (tpl ["Failed to retrieve key "; keyID;
                             " from KeyProtect: "; invalidConfig v])]))
  /\ (forall keyName,
         getNewestKeyByName keyName w
         = (Ok Blank, w,
            [Log LWarn (tpl ["Failed to retrieve key "; keyName;
                             " from KeyProtect: "; invalidConfig v])]))
  /\ (forall client,
         getAllKeys (Some client) w
         = (Ok [], w,
            [Log LWarn (tpl ["Failed to retrieve keys from KeyProtect: ";
                             invalidConfig v])])).
Proof.
  intros Hmv. pose proof (validateConfig_missing w Hmv) as Hv.
  split; [rewrite <- missingVar_first; assumption |].
  repeat split; intros;
    unfold deleteKey, createKey, getKeyByID, getNewestKeyByName, getAllKeys,
      getAllKeysHelper, tryCatch, bind;
    rewrite Hv; reflexivity.
Qed.

Lemma not_failedMutation_deletions client ids o :
  remote o = deletions client ids -> ~ failedMutation o.
Proof.
  intros Hrem Hf.
  assert (Hno : forall x, In x (deletions client ids) ->
                          x <> Token false
                          /\ forall u, x <> Called DELETE u false
                                       /\ x <> Called POST u false).
  { intros x Hx. unfold deletions in Hx. apply in_flat_map in Hx.
    destruct Hx as (i & _ & [<- | [<- | []]]);
      (split; [discriminate | intros u; split; discriminate]). }
  destruct Hf as [Hf | (u & [Hf | Hf])];
    (apply remote_In in Hf; [| reflexivity]); rewrite Hrem in Hf;
    destruct (Hno _ Hf) as (H1 & H2); [congruence | |];
    destruct (H2 u) as (H3 & H4); congruence.
Qed.

Lemma createKey_throws keyName keyPayload w e w' o :
  createKey keyName keyPayload w = (Throw e, w', o) ->
  exists reason,
    e = Error (tpl ["Failed to create key in KeyProtect: "; reason]).
Proof.
  unfold createKey. intros H. step H.
  repeat match goal with
         | H : bind (log _ _) _ _ = _ |- _ => step H
         | H : log _ _ _ = _ |- _ => step H
         | H : throw _ _ = _ |- _ => step H
         end.
  eexists. reflexivity.
Qed.

Lemma failedMutation_app_l o1 o2 :
  failedMutation o1 -> failedMutation (o1 ++ o2).
Proof.
  intros [H | (u & [H | H])];
    [left | right; exists u; left | right; exists u; right];
    apply in_or_app; left; assumption.
Qed.

Lemma failedMutation_app_r o1 o2 :
  failedMutation o2 -> failedMutation (o1 ++ o2).
Proof.
  intros [H | (u & [H | H])];
    [left | right; exists u; left | right; exists u; right];
    apply in_or_app; right; assumption.
Qed.

(** Finds the failed request in a trace that is written out, or the part
    of a trace that is known to hold one. *)
Ltac among :=
  solve [ repeat first [ apply in_eq
                       | apply in_cons
                       | apply in_or_app; first [ left; among | right ] ] ].

Ltac failing :=
  unfold failedMutation;
  first [ left; among
        | right; eexists; left; among
        | right; eexists; right; among ].

Ltac lifting :=
  solve [ first [ assumption
                | apply failedMutation_app_l; lifting
                | apply failedMutation_app_r; lifting ] ].

Lemma getNewestKeyIDByName_config client keyName w r w' o :
  getNewestKeyIDByName (Some client) keyName w = (r, w', o) ->
  keyProtectObj w' = keyProtectObj w.
Proof.
  unfold getNewestKeyIDByName. intros H. step H.
  - apply getKeysByName_inv in Hrun. destruct Hrun as ((Hc & _) & _).
    apply scan_inv in Hrun0. destruct Hrun0 as (Hc0 & _). congruence.
  - apply getKeysByName_inv in Hrun.
    destruct Hrun as (_ & [(Hr & _) | (Hr & _)]); discriminate Hr.
Qed.

(** With a complete configuration, [deleteKey] throws only when its token
    request or its delete call failed; so does the scan, which throws
    what a [deleteKey] of its own threw. *)
Lemma deleteKey_throws keyID w e w' o :
  deleteKey keyID w = (Throw e, w', o) ->
  missingVar (keyProtectObj w) = None ->
  failedMutation o.
Proof.
  unfold deleteKey. intros H Hcfg.
  ksteps; try congruence; failing.
Qed.

Lemma scan_throws searchName l :
  forall kid d w e w' o,
    scan searchName l kid d w = (Throw e, w', o) ->
    missingVar (keyProtectObj w) = None ->
    failedMutation o.
Proof.
  induction l as [| key rest IH]; intros kid d w e w' o H Hcfg.
  - simpl in H. step H.
  - simpl in H.
    destruct (String.eqb (name key) searchName); [| eapply IH; eassumption].
    destruct (isBefore d (creationDate key)); [| eapply IH; eassumption].
    step H.
    + apply failedMutation_app_r. eapply IH; [eassumption |].
      destruct (truthy kid).
      * ksteps.
        match goal with
        | H : deleteKey _ _ = _ |- _ =>
            apply deleteKey_inv in H; destruct H as (Hc & _)
        end.
        congruence.
      * ksteps. assumption.
    + destruct (truthy kid); [| ksteps].
      ksteps. apply failedMutation_app_r.
      eapply deleteKey_throws; eassumption.
Qed.

Lemma getNewestKeyIDByName_throws client keyName w e w' o :
  getNewestKeyIDByName (Some client) keyName w = (Throw e, w', o) ->
  missingVar (keyProtectObj w) = None ->
  failedMutation o.
Proof.
  unfold getNewestKeyIDByName. intros H Hcfg. step H.
  - apply getKeysByName_inv in Hrun. destruct Hrun as ((Hc & _) & _).
    apply failedMutation_app_r. eapply scan_throws; [eassumption |].
    congruence.
  - apply getKeysByName_inv in Hrun.
    destruct Hrun as (_ & [(Hr & _) | (Hr & _)]); discriminate Hr.
Qed.

(** [createKey] throws either before it has asked anything (the
    configuration, the name or the payload was refused) or because a
    token request, a delete call or the create call failed. *)
Lemma createKey_throws_why keyName keyPayload w e w' o :
  createKey keyName keyPayload w = (Throw e, w', o) ->
  remote o = [] \/ failedMutation o.
Proof.
  unfold createKey. intros H. branches.
  all: try (left; reflexivity).
  all: try (right; failing).
  all: try match goal with
           | H : parseKeyID _ _ = (Throw _, _, _) |- _ =>
               apply parseKeyID_inv in H; destruct H as (_ & _ & Hr);
               discriminate Hr
           end.
  all: right; frames.
  all: try match goal with
           | H : getNewestKeyIDByName _ _ _ = (Throw _, _, _) |- _ =>
               apply getNewestKeyIDByName_throws in H; [| congruence]
           end.
  all: try match goal with
           | H : getNewestKeyIDByName _ _ ?wa = (Ok _, ?wb, _),
             H2 : deleteKey _ ?wb = (Throw _, _, _) |- _ =>
               apply getNewestKeyIDByName_config in H;
               apply deleteKey_throws in H2; [| congruence]
           end.
  all: lifting.
Qed.


Lemma parseKeyPayload_inv resp w r w' o :
  parseKeyPayload resp w = (r, w', o) ->
  w' = w /\ remote o = []
  /\ exists v, r = Ok v /\ (v = Blank -> warned o).
Proof.
  unfold parseKeyPayload. intros H. step H.
  - repeat match goal with
           | H : match ?x with _ => _ end _ = _ |- _ => destruct x eqn:?
           end;
      branches;
      (split; [reflexivity |]); (split; [reflexivity |]);
      eexists; (split; [reflexivity |]); intros Hv; try discriminate Hv;
      simpl; apply warned_here.
  - assert (Hb : w0 = w /\ remote o0 = []).
    { repeat match goal with
             | H : match ?x with _ => _ end _ = _ |- _ => destruct x eqn:?
             end;
        branches; auto. }
    destruct Hb as (-> & Hrem0). branches.
    split; [reflexivity |]. split.
    + rewrite !remote_app, Hrem0. reflexivity.
    + exists Blank. split; [reflexivity |]. intros _.
      apply warned_app_r. apply warned_here.
Qed.

Lemma not_failedStep o :
  (forall x, In x (remote o) ->
             x = Token true \/ exists m u, x = Called m u true) ->
  ~ failedStep o.
Proof.
  intros Hall [Hf | (m & u & Hf)];
    (apply remote_In in Hf; [| reflexivity]);
    destruct (Hall _ Hf) as [H | (m' & u' & H)]; discriminate H.
Qed.

(** [getAllKeys] given a client never raises: it returns the listing it
    obtained or, after a warning, the empty list. *)
Lemma getAllKeys_degrades client w :
  exists l w' o,
    getAllKeys (Some client) w = (Ok l, w', o)
    /\ ((l = store w /\ In (Called GET (target client "") true) o)
        \/ (l = [] /\ warned o)).
Proof.
  simpl. destruct (getAllKeysHelper client w) as [[r w'] o] eqn:H.
  apply getAllKeysHelper_inv in H.
  destruct H as (_ & [(-> & _ & Hin & _) | (-> & Hw & _)]); eauto 10.
Qed.

(** [getKeyByID] never raises; unless every step of it succeeded it
    returns [''], and it returns [''] only after a warning. *)
Lemma getKeyByID_degrades keyID w :
  exists v w' o,
    getKeyByID keyID w = (Ok v, w', o)
    /\ (failedStep o -> v = Blank) /\ (v = Blank -> warned o).
Proof.
  destruct (getKeyByID keyID w) as [[r w'] o] eqn:H.
  unfold getKeyByID in H. branches.
  all: repeat match goal with
         | H : parseKeyPayload _ _ = _ |- _ =>
             apply parseKeyPayload_inv in H;
             destruct H as (-> & Hremp & v & Hr & Hblank); settle Hr
         end.
  - exists v. do 2 eexists. split; [reflexivity |]. split.
    + intros Hf. exfalso. revert Hf. apply not_failedStep.
      intros x Hx. rewrite !remote_app, Hremp in Hx.
      rewrite (Hq (quiet_keyProtectClient _ _)) in Hx. simpl in Hx.
      destruct Hx as [<- | [<- | []]]; [left; reflexivity | right; eauto].
    + intros Hv. rewrite !app_assoc. apply warned_app_r. auto.
  - exists Blank. do 2 eexists. split; [reflexivity |].
    split; [reflexivity |]. intros _. apply warned_app_r, warned_here.
  - exists Blank. do 2 eexists. split; [reflexivity |].
    split; [reflexivity |]. intros _. apply warned_app_r, warned_here.
  - exists Blank. do 2 eexists. split; [reflexivity |].
    split; [reflexivity |]. intros _. apply warned_here.
Qed.

(** [getNewestKeyByName] never raises; unless every step of it succeeded
    it returns [''], and it returns [''] only after a warning. *)
Lemma getNewestKeyByName_degrades keyName w :
  exists v w' o,
    getNewestKeyByName keyName w = (Ok v, w', o)
    /\ (failedStep o -> v = Blank) /\ (v = Blank -> warned o).
Proof.
  destruct (getNewestKeyByName keyName w) as [[r w'] o] eqn:H.
  unfold getNewestKeyByName in H. branches.
  all: repeat match goal with
         | H : parseKeyPayload _ _ = _ |- _ =>
             apply parseKeyPayload_inv in H;
             destruct H as (-> & Hremp & v & Hr & Hblank); settle Hr
         end.
  all: try (exists Blank; do 2 eexists; split; [reflexivity |];
            split; [reflexivity |]; intros _;
            first [ apply warned_here
                  | apply warned_app_r, warned_here
                  | rewrite !app_assoc; apply warned_app_r, warned_here
                  | apply warned_app_r, warned_app_r, warned_app_r,
                      warned_app_r, warned_app_r, warned_app_l, warned_here ]).
  - (* every step succeeded *)
    match goal with
    | H : getNewestKeyIDByName _ _ _ = _ |- _ =>
        apply getNewestKeyIDByName_inv in H;
        destruct H as (L & listing & rest & Hrem & HL & Hscan)
    end.
    destruct Hscan as [(Hr & _ & ->) | (? & ? & ? & Hr & _)];
      [| discriminate Hr].
    inversion Hr; subst; clear Hr.
    destruct HL as [(_ & ->) | (-> & _)]; [| simpl in *; discriminate].
    exists v. do 2 eexists. split; [reflexivity |]. split.
    + intros Hf. exfalso. revert Hf. apply not_failedStep.
      intros x Hx. rewrite !remote_app, Hremp, Hrem in Hx.
      rewrite (Hq (quiet_keyProtectClient _ _)) in Hx. simpl in Hx.
      destruct Hx as [<- | [<- | Hx]];
        [left; reflexivity | right; eauto |].
      rewrite ?app_nil_r in Hx. apply in_app_or in Hx.
      destruct Hx as [Hx | [<- | []]]; [| right; eauto].
      unfold deletions in Hx. apply in_flat_map in Hx.
      destruct Hx as (i & _ & [<- | [<- | []]]);
        [left; reflexivity | right; eauto].
    + intros Hv. rewrite !app_assoc. apply warned_app_r. auto.
Qed.

End WithPlatform.



Lemma missing_field_witness :
  deleteKey (platform := Demo.demo) "a" (Demo.kpWorld Demo.noUrl [] [])
  = (Throw (Error "Failed to delete key a in KeyProtect: Invalid KeyProtect config: missing variable 'KEYPROTECT_URL'"),
     Demo.kpWorld Demo.noUrl [] [],
     [Log LError "Failed to delete key a in KeyProtect: Invalid KeyProtect config: missing variable 'KEYPROTECT_URL'"]).
Proof.
  apply (proj1 (proj2 (@missing_field_stops_before_any_request Demo.demo
                         (Demo.kpWorld Demo.noUrl [] []) "KEYPROTECT_URL"
                         eq_refl))).
Defined.

(** The claim C5 as stated fails on the reads: with the URL missing,
    [getKeyByID] and [getNewestKeyByName] return [''] and [getAllKeys]
    given a client returns [[]], instead of failing. *)
Lemma missing_field_counterexample :
  let w := Demo.kpWorld Demo.noUrl [] [] in
  missingVar (keyProtectObj w) = Some "KEYPROTECT_URL"
  /\ fst (fst (getKeyByID (platform := Demo.demo) "a" w)) = Ok Blank
  /\ fst (fst (getNewestKeyByName (platform := Demo.demo) "K" w)) = Ok Blank
  /\ fst (fst (getAllKeys (platform := Demo.demo)
                 (Some (keyProtectClient Demo.noUrl "token")) w))
     = Ok [].
Proof. vm_compute. tauto. Qed.

End Failures.

(** ** cloudant-helper.js: the instance and its connection *)

Module CloudantFacts.
Import JS Seen Net Cloudant Run.
Local Open Scope js_scope.

Ltac csteps :=
  repeat match goal with
         | H : (if ?b then _ else _) _ = _ |- _ => destruct b eqn:?
         | H : bind _ _ _ = _ |- _ => step H
         | H : tryCatch _ _ _ = _ |- _ => step H
         | H : ret _ _ = _ |- _ => step H
         | H : throw _ _ = _ |- _ => step H
         | H : log _ _ _ = _ |- _ => step H
         | H : get _ = _ |- _ => step H
         end.

Section WithPlatform.
Context {platform : Platform}.

Lemma newIam_inv key w r w' o : newIam key w = (r, w', o) -> w' = w.
Proof. unfold newIam. intros H. csteps; reflexivity. Qed.

Lemma newBasic_inv u p w r w' o : newBasic u p w = (r, w', o) -> w' = w.
Proof. unfold newBasic. intros H. csteps; reflexivity. Qed.

(** [initCloudant] reads the module's state and changes nothing. *)
Lemma initCloudant_inv w r w' o : initCloudant w = (r, w', o) -> w' = w.
Proof.
  unfold initCloudant. intros H. step H; [| step Hrun; reflexivity].
  step Hrun.
  destruct (cloudantObj w) as [obj |]; [| csteps; reflexivity].
  destruct (connection obj) as [c |]; [| csteps; reflexivity].
  csteps;
    repeat match goal with
           | H : newIam _ _ = _ |- _ => apply newIam_inv in H; subst
           | H : newBasic _ _ _ = _ |- _ => apply newBasic_inv in H; subst
           end;
    reflexivity.
Qed.

Lemma nth_error_setNth_other (l : list Helper) this x n :
  n <> this -> nth_error (setNth l this x) n = nth_error l n.
Proof.
  revert this n. induction l as [| y l IH]; intros this n Hn; [reflexivity |].
  destruct this as [| this]; destruct n as [| n]; simpl; try reflexivity.
  - contradiction.
  - apply IH. congruence.
Qed.

Lemma length_setNth (l : list Helper) this x :
  List.length (setNth l this x) = List.length l.
Proof.
  revert this. induction l as [| y l IH]; intros this; [reflexivity |].
  destruct this; simpl; [reflexivity | f_equal; apply IH].
Qed.

(** What [setupCloudant] leaves: the module's variables as they were; the
    object untouched when it throws; every other object untouched. *)
Lemma setupCloudant_inv this w r w' o :
  setupCloudant this w = (r, w', o) ->
  cloudantObj w' = cloudantObj w /\ instance w' = instance w
  /\ List.length (heap w') = List.length (heap w)
  /\ (forall l, l <> this -> cloudantOf w' l = cloudantOf w l)
  /\ (forall e, r = Throw e -> heap w' = heap w).
Proof.
  unfold setupCloudant. intros H. step H; [| csteps].
  step Hrun.
  destruct (cloudantOf w this) as [s |] eqn:Hc; [csteps; auto 10 |].
  csteps;
    repeat match goal with
           | H : initCloudant _ = _ |- _ => apply initCloudant_inv in H; subst
           end;
    cbv beta in *;
    repeat match goal with
           | H : (_, _, _) = (_, _, _) |- _ => inversion H; subst; clear H
           end;
    simpl; auto 10.
  split; [reflexivity |]. split; [reflexivity |].
  split; [apply length_setNth |]. split.
  - intros l Hl. unfold cloudantOf. simpl.
    rewrite nth_error_setNth_other by assumption. reflexivity.
  - intros e He. discriminate He.
Qed.

Lemma exchange_inv w x w1 :
  exchange w = (x, w1) ->
  cloudantObj w1 = cloudantObj w /\ instance w1 = instance w
  /\ heap w1 = heap w.
Proof.
  unfold exchange. destruct (net w) as [| [u | c msg | e] rest];
    intros H; inversion H; subst; simpl; auto.
Qed.

Lemma direct_inv m url w r w' o :
  Rax.direct exchange m url w = (r, w', o) ->
  cloudantObj w' = cloudantObj w /\ instance w' = instance w
  /\ heap w' = heap w
  /\ ((exists a, r = Ok a /\ o = [Attempt m url true; Called m url true])
      \/ (exists f, r = Throw (Rejected f)
                    /\ o = [Attempt m url false; Called m url false])).
Proof.
  unfold Rax.direct. destruct (exchange w) as [[a | f] w1] eqn:He;
    intros H; inversion H; subst; apply exchange_inv in He;
    destruct He as (? & ? & ?); repeat split; eauto.
Qed.

(** [pingCloudant] never raises: it answers [true], or [false] after
    logging an error; it answers [false] when the connection was never
    set up and when the call failed. It leaves the module as it was. *)
Lemma pingCloudant_inv this w :
  exists b w' o,
    pingCloudant this w = (Ok b, w', o)
    /\ cloudantObj w' = cloudantObj w /\ instance w' = instance w
    /\ heap w' = heap w
    /\ (b = false -> exists msg, In (Log LError msg) o)
    /\ (cloudantOf w this = None -> b = false)
    /\ ((exists m u, In (Called m u false) o) -> b = false).
Proof.
  destruct (pingCloudant this w) as [[r w'] o] eqn:H.
  unfold pingCloudant in H. step H.
  - (* the guarded block ran to its end *)
    repeat (csteps;
            try match goal with
                | H : match cloudantOf ?x ?t with _ => _ end _ = _ |- _ =>
                    destruct (cloudantOf x t) eqn:?
                | H : Rax.direct _ _ _ _ = _ |- _ =>
                    apply direct_inv in H;
                    destruct H as (? & ? & ? & [(? & Hr & ->) | (? & Hr & _)]);
                    [| discriminate Hr]
                end).
    exists true. do 2 eexists. split; [reflexivity |].
    repeat split; try assumption; try discriminate.
    intros (m & u & Hin). simpl in Hin.
    repeat (destruct Hin as [Hin | Hin]; [discriminate Hin |]).
    contradiction.
  - (* it threw, and the handler answered *)
    assert (Hframe : cloudantObj w0 = cloudantObj w /\ instance w0 = instance w
                     /\ heap w0 = heap w).
    { repeat (csteps;
              try match goal with
                  | H : match cloudantOf ?x ?t with _ => _ end _ = _ |- _ =>
                      destruct (cloudantOf x t) eqn:?
                  | H : Rax.direct _ _ _ _ = _ |- _ =>
                      apply direct_inv in H; destruct H as (? & ? & ? & _)
                  end);
        auto. }
    destruct Hframe as (? & ? & ?). csteps.
    exists false. do 2 eexists. split; [reflexivity |].
    repeat split; try assumption; try reflexivity.
    intros _. eexists. apply in_or_app. right. left. reflexivity.
Qed.

(** [getInstance], by the state it is called in. *)
Lemma getInstance_nullish w :
  getInstance None w
  = (Throw (TypeError "Cannot convert undefined or null to object"), w, []).
Proof. reflexivity. Qed.

Lemma getInstance_first d w :
  instance w = None ->
  getInstance (Some d) w
  = (Ok (List.length (heap w)),
     {| cloudantObj := Some d; instance := Some (List.length (heap w));
        heap := heap w ++ [{| cloudant := None |}]; net := net w |},
     []).
Proof. intros H. unfold getInstance. simpl. rewrite H. reflexivity. Qed.

Lemma getInstance_trapdoor d w this :
  instance w = Some this -> cloudantOf w this = None ->
  getInstance (Some d) w
  = (Throw (Status500 notInitialized),
     {| cloudantObj := Some d; instance := instance w; heap := heap w;
        net := net w |},
     [Log LError notInitialized]).
Proof.
  intros H Hc. unfold getInstance. simpl. rewrite H.
  unfold cloudantOf in *. simpl. destruct (nth_error (heap w) this) as [h |].
  - rewrite Hc. reflexivity.
  - reflexivity.
Qed.

Lemma getInstance_again d w this s :
  instance w = Some this -> cloudantOf w this = Some s ->
  getInstance (Some d) w
  = (Ok this,
     {| cloudantObj := Some d; instance := instance w; heap := heap w;
        net := net w |},
     []).
Proof.
  intros H Hc. unfold getInstance. simpl. rewrite H.
  unfold cloudantOf in *. simpl. destruct (nth_error (heap w) this) as [h |].
  - rewrite Hc. reflexivity.
  - discriminate Hc.
Qed.

(** One call of a program: the instance, once there, stays; an instance
    returned is the instance; the connection of the instance stays unset
    unless a [setupCloudant] on it succeeds. *)
Lemma perform_inv op w r w' o :
  perform op w = (r, w', o) ->
  (forall l, instance w = Some l -> l < List.length (heap w))%nat ->
  (forall l, instance w' = Some l -> l < List.length (heap w'))%nat
  /\ (forall l, instance w = Some l -> instance w' = Some l)
  /\ (forall l, r = Ok (VInstance l) -> instance w' = Some l)
  /\ (forall l,
        instance w' = Some l ->
        (instance w = Some l -> cloudantOf w l = None) ->
        (forall v, (op, r) <> (CallSetup l, Ok v)) ->
        cloudantOf w' l = None).
Proof.
  intros H Hinv. destruct op as [[d |] | this | this]; simpl in H.
  2:{ (* getInstance without a configuration object *)
      unfold bind in H. rewrite getInstance_nullish in H.
      inversion H; subst.
      split; [assumption |]. split; [auto |]. split; [discriminate |].
      intros l Hl Hnone _. auto. }
  - (* getInstance *)
    step H.
    2:{ destruct (instance w) as [l |] eqn:Hi.
        - destruct (cloudantOf w l) as [s |] eqn:Hc.
          + rewrite (getInstance_again d w Hi Hc) in Hrun. discriminate.
          + rewrite (getInstance_trapdoor d w Hi Hc) in Hrun.
            inversion Hrun; subst. simpl.
            split; [intros l0 Hl0; apply Hinv; congruence |].
            split; [intros; simpl in *; congruence |]. split; [discriminate |].
            intros l0 Hl0 Hnone _. unfold cloudantOf. simpl.
            apply Hnone. congruence.
        - rewrite (getInstance_first d w Hi) in Hrun. discriminate. }
    step Hrun0.
    destruct (instance w) as [l |] eqn:Hi.
    + destruct (cloudantOf w l) as [s |] eqn:Hc.
      * rewrite (getInstance_again d w Hi Hc) in Hrun.
        inversion Hrun; subst. simpl.
        split; [intros l0 Hl0; apply Hinv; congruence |].
        split; [intros; simpl in *; congruence |].
        split; [intros l0 Hl0; inversion Hl0; subst; assumption |].
        intros l0 Hl0 Hnone _. unfold cloudantOf. simpl.
        apply Hnone. congruence.
      * rewrite (getInstance_trapdoor d w Hi Hc) in Hrun. discriminate.
    + rewrite (getInstance_first d w Hi) in Hrun.
      inversion Hrun; subst. simpl.
      split.
      { intros l Hl. inversion Hl; subst. rewrite length_app. simpl. lia. }
      split; [discriminate |].
      split; [intros l Hl; inversion Hl; reflexivity |].
      intros l Hl _ _. inversion Hl; subst. unfold cloudantOf. simpl.
      rewrite nth_error_app2, Nat.sub_diag by lia. reflexivity.
  - (* setupCloudant *)
    assert (Hs : exists r0 o0, setupCloudant this w = (r0, w', o0)
                               /\ (forall a, r0 = Ok a -> r = Ok VUnit)
                               /\ (forall e, r0 = Throw e -> r = Throw e)).
    { step H.
      - step Hrun0. do 2 eexists. split; [eassumption |].
        split; [reflexivity | discriminate].
      - do 2 eexists. split; [eassumption |].
        split; [discriminate | intros e0 He0; congruence]. }
    destruct Hs as (r0 & o0 & Hs & Hok & Hthrow).
    apply setupCloudant_inv in Hs.
    destruct Hs as (Hobj & Hinst & Hlen & Hother & Hfail).
    split; [rewrite Hinst, Hlen; exact Hinv |].
    split; [intros l Hl; congruence |].
    split.
    { intros l Hl. exfalso. destruct r0 as [a | e].
      - rewrite (Hok a eq_refl) in Hl. discriminate.
      - rewrite (Hthrow e eq_refl) in Hl. discriminate. }
    intros l Hl Hnone Hnot.
    destruct (Nat.eq_dec l this) as [-> | Hne].
    + destruct r0 as [a | e].
      * exfalso. apply (Hnot VUnit). rewrite (Hok a eq_refl). reflexivity.
      * unfold cloudantOf. rewrite (Hfail e eq_refl).
        apply Hnone. congruence.
    + rewrite Hother by assumption. apply Hnone. congruence.
  - (* pingCloudant *)
    destruct (pingCloudant_inv this w)
      as (b & w1 & o1 & Hp & Hobj & Hinst & Hheap & _).
    unfold bind in H. rewrite Hp in H. simpl in H. inversion H; subst.
    split; [rewrite Hinst, Hheap; exact Hinv |].
    split; [intros l Hl; congruence |].
    split; [discriminate |].
    intros l Hl Hnone _. unfold cloudantOf. rewrite Hheap.
    apply Hnone. congruence.
Qed.

Lemma session_inv ops :
  forall w h w',
    session ops w = (h, w') ->
    (forall l, instance w = Some l -> l < List.length (heap w))%nat ->
    (forall l, instance w' = Some l -> l < List.length (heap w'))%nat
    /\ (forall l, instance w = Some l -> instance w' = Some l)
    /\ (forall op l, In (op, Ok (VInstance l)) h -> instance w' = Some l)
    /\ (forall l,
          instance w' = Some l ->
          (instance w = Some l -> cloudantOf w l = None) ->
          neverSetUp l h ->
          cloudantOf w' l = None).
Proof.
  induction ops as [| op rest IH]; intros w h w' H Hinv.
  - simpl in H. inversion H; subst.
    split; [assumption |]. split; [auto |].
    split; [intros op l [] |]. auto.
  - simpl in H.
    destruct (perform op w) as [[r w1] o] eqn:Hp.
    destruct (session rest w1) as [h1 w2] eqn:Hs.
    inversion H; subst.
    apply perform_inv in Hp; [| assumption].
    destruct Hp as (Hinv1 & Hstay1 & Hret1 & Hnone1).
    apply IH in Hs; [| assumption].
    destruct Hs as (Hinv2 & Hstay2 & Hret2 & Hnone2).
    split; [assumption |]. split; [auto |]. split.
    + intros op0 l [Heq | Hin].
      * inversion Heq; subst. apply Hstay2, Hret1. reflexivity.
      * eapply Hret2; eassumption.
    + intros l Hl Hstart Hnever.
      apply Hnone2; [assumption | | intros v Hin; apply (Hnever v); right; assumption].
      intros Hl1. apply Hnone1; [assumption | |].
      * intros Hl0. apply Hstart. assumption.
      * intros v Heq. apply (Hnever v). left. assumption.
Qed.

End WithPlatform.
End CloudantFacts.

(** ** The instance of CloudantHelperLib *)

Module Singleton.
Import JS Cloudant CloudantFacts.

(** C10, as amended. Through any sequence of calls of a program that starts
    with the module freshly loaded: every [getInstance] call that returns,
    returns the same object; and once a [getInstance] call has returned
    the instance, as long as no [setupCloudant] on it has succeeded, a
    [getInstance] call that passes a configuration object stores it, logs
    an error and throws the object with status 500 instead of returning. *)
Theorem getInstance_singleton_with_trapdoor {platform : Platform}
    (script : list (Net.Event unit)) (ops : list Op) :
  let h := fst (session ops (initial script)) in
  let w := snd (session ops (initial script)) in
  (forall op1 op2 l1 l2,
      In (op1, Ok (VInstance l1)) h -> In (op2, Ok (VInstance l2)) h ->
      l1 = l2)
  /\ (forall op this d,
         In (op, Ok (VInstance this)) h -> neverSetUp this h ->
         getInstance (Some d) w
         = (Throw (Status500 notInitialized),
            {| cloudantObj := Some d; instance := Some this;
               heap := heap w; net := net w |},
            [Log LError notInitialized])).
Proof.
  intros h w.
  destruct (session ops (initial script)) as [h0 w0] eqn:Hs.
  apply session_inv in Hs; [| discriminate].
  destruct Hs as (_ & _ & Hret & Hnone).
  subst h w. cbn [fst snd]. split.
  - intros op1 op2 l1 l2 H1 H2.
    apply Hret in H1. apply Hret in H2. congruence.
  - intros op this d Hin Hnever.
    pose proof (Hret _ _ Hin) as Hi.
    rewrite (@getInstance_trapdoor d w0 this Hi).
    + rewrite Hi. reflexivity.
    + apply Hnone; [assumption | discriminate | assumption].
Qed.

(** A program that gets the instance with a configuration that holds no
    connection and fails to set it up: the next [getInstance] throws the
    status-500 object, whatever configuration it passes. *)
Lemma getInstance_trapdoor_witness :
  let ops := [CallGetInstance (Some Samples.noConnection); CallSetup 0] in
  let h := fst (session (platform := Demo.demo) ops (initial [])) in
  let w := snd (session (platform := Demo.demo) ops (initial [])) in
  In (CallGetInstance (Some Samples.noConnection), Ok (VInstance 0)) h
  /\ In (CallSetup 0, Throw (Error "Missing DB connection configuration")) h
  /\ neverSetUp 0 h
  /\ getInstance (Some Demo.dbConfig) w
     = (Throw (Status500 notInitialized),
        {| cloudantObj := Some Demo.dbConfig; instance := Some 0%nat;
           heap := [{| cloudant := None |}]; net := [] |},
        [Log LError notInitialized]).
Proof.
  intros ops h w.
  assert (Hfirst : In (CallGetInstance (Some Samples.noConnection),
                       Ok (VInstance 0)) h) by (left; reflexivity).
  assert (Hnever : neverSetUp 0 h).
  { intros v [Heq | [Heq | []]]; discriminate Heq. }
  split; [exact Hfirst |]. split; [right; left; reflexivity |].
  split; [exact Hnever |].
  exact (proj2 (@getInstance_singleton_with_trapdoor Demo.demo [] ops)
           _ 0%nat Demo.dbConfig Hfirst Hnever).
Defined.

(** The claim C10 as stated fails on a call that passes no configuration
    object: in the same state, where the claim has every call throw the
    object with status 500, such a call throws a [TypeError], logs
    nothing and leaves the module as it was. *)
Lemma getInstance_without_argument :
  let ops := [CallGetInstance (Some Samples.noConnection); CallSetup 0] in
  let h := fst (session (platform := Demo.demo) ops (initial [])) in
  let w := snd (session (platform := Demo.demo) ops (initial [])) in
  In (CallGetInstance (Some Samples.noConnection), Ok (VInstance 0)) h
  /\ neverSetUp 0 h
  /\ getInstance None w
     = (Throw (TypeError "Cannot convert undefined or null to object"), w, []).
Proof.
  intros ops h w. split; [left; reflexivity |]. split.
  - intros v [Heq | [Heq | []]]; discriminate Heq.
  - reflexivity.
Qed.

End Singleton.

(** ** app-id-helper.js: the steps of the user reconciliation *)

Module AppIDFacts.
Import JS Seen Net AppID Run.
Local Open Scope js_scope.

Lemma sameConfig_refl w : sameConfig w w.
Proof. unfold sameConfig. auto. Qed.

Lemma sameConfig_trans w1 w2 w3 :
  sameConfig w1 w2 -> sameConfig w2 w3 -> sameConfig w1 w3.
Proof.
  unfold sameConfig. intros (a & b & c & d & e) (a' & b' & c' & d' & e').
  repeat split; congruence.
Qed.

Lemma sameConfig_after w : sameConfig w (after w).
Proof. unfold sameConfig. simpl. auto. Qed.

Lemma exchange_same w x w1 : exchange w = (x, w1) -> sameConfig w w1.
Proof.
  unfold exchange. destruct (net w) as [| [b | c msg | e] rest];
    intros H; inversion H; subst; apply sameConfig_after.
Qed.

Section WithPlatform.
Context {platform : Platform}.

Lemma appIdValidateConfig_inv w r w' o :
  validateConfig w = (r, w', o) ->
  w' = w /\ o = []
  /\ ((r = Ok tt /\ missingVar (appIDObj w) = None)
      \/ exists v, missingVar (appIDObj w) = Some v
                   /\ r = Throw (Error (tpl ["Invalid AppID config: missing variable '"; v; "'"]))).
Proof.
  unfold validateConfig.
  destruct (missingVar (appIDObj w)) as [v |]; intros H; inversion H; subst.
  - split; [reflexivity |]. split; [reflexivity |]. right. exists v. auto.
  - auto.
Qed.

Lemma appIdToken_inv key w r w' o :
  getCloudIAMToken key w = (r, w', o) ->
  sameConfig w w'
  /\ ((r = Ok (bearer w) /\ o = [Token true])
      \/ (exists f, r = Throw (Rejected f) /\ o = [Token false])).
Proof.
  unfold getCloudIAMToken.
  destruct (net w) as [| [u | c msg | e] rest]; intros H; inversion H; subst;
    (split; [apply sameConfig_after |]); eauto.
Qed.

(** A call through a client of the helper, settled. *)
Lemma appIdRequest_inv client line m path w r w' o :
  raxConfig client = Some (appIdRaxConfig line) ->
  request client m path w = (r, w', o) ->
  sameConfig w w'
  /\ ((exists body, r = Ok body
                    /\ remote o = [Called m (tpl [baseURL client; path]) true])
      \/ (exists f, r = Throw (Rejected f)
                    /\ remote o = [Called m (tpl [baseURL client; path]) false])).
Proof.
  unfold request. intros -> H.
  apply RaxFacts.call_inv in H. destruct H as (x & o1 & Hs & Hx).
  pose proof (RaxFacts.send_last exchange sameConfig
                (appIdRaxConfig line) m (tpl [baseURL client; path])
                sameConfig_refl sameConfig_trans
                (fun w f w1 => @exchange_same w (inr f) w1) 0 w Hs)
    as (wp & Hsame & He).
  assert (Hrem : remote o1 = []).
  { eapply RaxFacts.send_remote; [| exact Hs]. intros n. reflexivity. }
  split.
  { apply sameConfig_trans with wp; [assumption |].
    eapply exchange_same; eassumption. }
  destruct Hx as [(a & -> & -> & ->) | (f & -> & -> & ->)];
    [left | right]; eexists; (split; [reflexivity |]);
    rewrite remote_app, Hrem; reflexivity.
Qed.

Lemma appIdLoginClient_inv w r w' o :
  appIdLoginClient w = (r, w', o) ->
  r = Ok (loginClientOf w) /\ w' = w /\ o = [].
Proof. unfold appIdLoginClient. intros H. inversion H. auto. Qed.

End WithPlatform.

Ltac astep H :=
  match type of H with
  | validateConfig _ = _ =>
      let Hr := fresh "Hr" in let Hmv := fresh "Hmv" in let v := fresh "v" in
      apply appIdValidateConfig_inv in H;
      destruct H as (? & ? & [(Hr & Hmv) | (v & Hmv & Hr)]); settle Hr; subst
  | getCloudIAMToken _ _ = _ =>
      let Hr := fresh "Hr" in let Hsame := fresh "Hsame" in
      let f := fresh "f" in
      apply appIdToken_inv in H;
      destruct H as (Hsame & [(Hr & ?) | (f & Hr & ?)]); settle Hr; subst
  | appIdLoginClient _ = _ =>
      let Hr := fresh "Hr" in
      apply appIdLoginClient_inv in H; destruct H as (Hr & ? & ?);
      settle Hr; subst
  | request _ _ _ _ = _ =>
      let Hr := fresh "Hr" in let Hsame := fresh "Hsame" in
      let Hrem := fresh "Hrem" in
      let body := fresh "body" in let f := fresh "f" in
      eapply appIdRequest_inv in H; [| reflexivity];
      destruct H as (Hsame & [(body & Hr & Hrem) | (f & Hr & Hrem)]);
      settle Hr; subst
  | _ => step H
  end.

Ltac asteps :=
  repeat match goal with
         | H : validateConfig _ = _ |- _ => astep H
         | H : getCloudIAMToken _ _ = _ |- _ => astep H
         | H : appIdLoginClient _ = _ |- _ => astep H
         | H : request _ _ _ _ = _ |- _ => astep H
         | H : bind _ _ _ = _ |- _ => step H
         | H : tryCatch _ _ _ = _ |- _ => step H
         | H : ret _ _ = _ |- _ => step H
         | H : throw _ _ = _ |- _ => step H
         | H : log _ _ _ = _ |- _ => step H
         | H : get _ = _ |- _ => step H
         | H : match ?x with _ => _ end _ = (_, _, _) |- _ => destruct x eqn:?
         end.

Ltac sames :=
  repeat match goal with
         | H : sameConfig _ _ |- _ =>
             let a := fresh "Hobj" in let b := fresh "Hmgmt" in
             let c := fresh "Hoauth" in let d := fresh "Hping" in
             let e := fresh "Hbearer" in
             destruct H as (a & b & c & d & e)
         end.

Section Steps.
Context {platform : Platform}.

Lemma loginAppID_inv username password w r w' o :
  loginAppID username password w = (r, w', o) ->
  sameConfig w w'
  /\ ((exists d, r = Ok d /\ missingVar (appIDObj w) = None
                 /\ remote o = [Called POST (loginUrl w) true])
      \/ (exists e, r = Throw e
                    /\ ((missingVar (appIDObj w) <> None /\ remote o = [])
                        \/ (missingVar (appIDObj w) = None
                            /\ remote o = [Called POST (loginUrl w) false])))).
Proof.
  unfold loginAppID. intros H. asteps.
  all: try (split; [first [assumption | apply sameConfig_refl] |]).
  all: rewrite ?remote_app; simpl; rewrite ?Hrem; simpl.
  all: try (left; eexists; split; [reflexivity |]; split; [assumption |];
            reflexivity).
  all: right; eexists; (split; [reflexivity |]).
  all: first [ right; split; [assumption | reflexivity]
             | left; split; [congruence | reflexivity] ].
Qed.

Lemma getAllRolesIds_inv w0 token w r w' o :
  getAllRolesIds (mgmtClientOf w0 token) w = (r, w', o) ->
  sameConfig w w'
  /\ ((exists ids, r = Ok ids
                   /\ remote o = [Called GET (mgmtUrl w0 "/roles") true])
      \/ (exists e, r = Throw e
                    /\ ((remote o = [Called GET (mgmtUrl w0 "/roles") true]
                         /\ exists msg, e = TypeError msg)
                        \/ remote o = [Called GET (mgmtUrl w0 "/roles") false]))).
Proof.
  unfold getAllRolesIds. intros H. asteps.
  all: split; [assumption |].
  all: rewrite ?remote_app; simpl; rewrite ?Hrem; simpl.
  all: first [ left; eexists; split; reflexivity
             | right; eexists; split; [reflexivity |]; eauto ].
Qed.

Lemma createUserCloudDirectory_inv username password w0 token w r w' o :
  createUserCloudDirectory username password (mgmtClientOf w0 token) w
  = (r, w', o) ->
  sameConfig w w'
  /\ ((r = Ok tt
       /\ remote o = [Called POST (mgmtUrl w0 "/cloud_directory/Users") true])
      \/ (exists e, r = Throw e
                    /\ remote o
                       = [Called POST (mgmtUrl w0 "/cloud_directory/Users") false])).
Proof.
  unfold createUserCloudDirectory. intros H. asteps.
  all: split; [assumption |].
  all: rewrite ?remote_app; simpl; rewrite ?Hrem; simpl.
  all: first [ left; split; reflexivity
             | right; eexists; split; reflexivity ].
Qed.

Lemma updateUserRoles_inv roleIds newUserId w0 token w r w' o :
  updateUserRoles roleIds newUserId (mgmtClientOf w0 token) w = (r, w', o) ->
  sameConfig w w'
  /\ ((r = Ok tt
       /\ remote o
          = [Called PUT (mgmtUrl w0 (tpl ["/users/"; newUserId; "/roles"])) true])
      \/ (exists e, r = Throw e
                    /\ remote o
                       = [Called PUT (mgmtUrl w0 (tpl ["/users/"; newUserId; "/roles"]))
                                 false])).
Proof.
  unfold updateUserRoles. intros H. asteps.
  all: split; [assumption |].
  all: rewrite ?remote_app; simpl; rewrite ?Hrem; simpl.
  all: first [ left; split; reflexivity
             | right; eexists; split; reflexivity ].
Qed.

Lemma updateUserAttributes_inv newUserId w0 token w r w' o :
  updateUserAttributes newUserId (mgmtClientOf w0 token) w = (r, w', o) ->
  sameConfig w w'
  /\ ((r = Ok tt
       /\ remote o
          = [Called PUT (mgmtUrl w0 (tpl ["/users/"; newUserId; "/profile"])) true])
      \/ (exists e, r = Throw e
                    /\ remote o
                       = [Called PUT (mgmtUrl w0 (tpl ["/users/"; newUserId; "/profile"]))
                                 false])).
Proof.
  unfold updateUserAttributes. intros H. asteps.
  all: split; [assumption |].
  all: rewrite ?remote_app; simpl; rewrite ?Hrem; simpl.
  all: first [ left; split; reflexivity
             | right; eexists; split; reflexivity ].
Qed.

Lemma activateNewUserProfile_inv username password w0 token w r w' o :
  missingVar (appIDObj w) = None ->
  activateNewUserProfile username password (mgmtClientOf w0 token) w
  = (r, w', o) ->
  sameConfig w w'
  /\ ((exists newUserId,
         r = Ok newUserId
         /\ remote o = [Called POST (loginUrl w) true;
                        Called GET (mgmtUrl w0 "/users") true])
      \/ (exists e,
             r = Throw e
             /\ (remote o = [Called POST (loginUrl w) false]
                 \/ remote o = [Called POST (loginUrl w) true;
                                Called GET (mgmtUrl w0 "/users") false]
                 \/ (remote o = [Called POST (loginUrl w) true;
                                 Called GET (mgmtUrl w0 "/users") true]
                     /\ exists msg, e = TypeError msg)))).
Proof.
  unfold activateNewUserProfile. intros Hcfg H. asteps.
  all: repeat match goal with
         | H : loginAppID _ _ _ = _ |- _ =>
             apply loginAppID_inv in H;
             destruct H as (Hsl & [(d & Hr & _ & Hreml)
                                  | (el & Hr & [(Hbad & _) | (_ & Hreml)])]);
             settle Hr; try contradiction
         end.
  all: split; [first [ assumption
                     | eapply sameConfig_trans; eassumption ] |].
  all: rewrite ?remote_app; simpl; rewrite ?Hrem, ?Hreml; simpl.
  all: first [ left; eexists; split; reflexivity
             | right; eexists; split; [reflexivity |]; eauto 6 ].
Qed.

End Steps.
End AppIDFacts.

(** ** Reconciling a user *)

Module UserReconciliation.
Import JS Seen Net AppID Run AppIDFacts.
Local Open Scope js_scope.

Lemma loginUrl_same w w' : sameConfig w w' -> loginUrl w' = loginUrl w.
Proof. intros (_ & _ & H & _). unfold loginUrl. rewrite H. reflexivity. Qed.

Lemma mgmtUrl_same w w' p : sameConfig w w' -> mgmtUrl w' p = mgmtUrl w p.
Proof. intros (_ & H & _). unfold mgmtUrl. rewrite H. reflexivity. Qed.

Lemma missingVar_same {platform : Platform} w w' :
  sameConfig w w' -> missingVar (appIDObj w') = missingVar (appIDObj w).
Proof. intros (H & _). rewrite H. reflexivity. Qed.

Section WithPlatform.
Context {platform : Platform}.

Lemma existUserCheckFunc_ok username password w d w1 o1 :
  loginAppID username password w = (Ok d, w1, o1) ->
  existUserCheckFunc username password w
  = (Ok None, w1,
     [Log LDebug "Exist user check starting"]
       ++ ([Log LDebug "Trying to login with current credentials"] ++ o1 ++ [])
       ++ []).
Proof.
  intros H. unfold existUserCheckFunc, bind, tryCatch, log.
  rewrite H. reflexivity.
Qed.

Lemma existUserCheck_ok username password w d w1 o1 :
  loginAppID username password w = (Ok d, w1, o1) ->
  exists o,
    existUserCheck username password w = (Ok tt, w1, o)
    /\ remote o = [Called POST (loginUrl w) true].
Proof.
  intros H. eexists. split.
  - unfold existUserCheck, bind. rewrite (existUserCheckFunc_ok _ _ _ H).
    unfold log. reflexivity.
  - apply loginAppID_inv in H.
    destruct H as (_ & [(d' & _ & _ & Hr) | (e & Hr & _)]);
      [| discriminate Hr].
    rewrite !remote_app, Hr. reflexivity.
Qed.

(** The part of [existUserCheckFunc] that follows the roles. *)
Lemma provision_inv username password w0 token roleIds w r w' o :
  missingVar (appIDObj w) = None ->
  tryCatch
    (createUserCloudDirectory username password (mgmtClientOf w0 token) ;;;
     newUserId <- activateNewUserProfile username password (mgmtClientOf w0 token) ;;
     updateUserRoles roleIds newUserId (mgmtClientOf w0 token) ;;;
     updateUserAttributes newUserId (mgmtClientOf w0 token) ;;;
     ret None)
    (fun error => ret (Some error)) w = (r, w', o) ->
  exists newUserId outcome,
    r = Ok outcome
    /\ ((exists b,
           Progress
             [Called POST (mgmtUrl w0 "/cloud_directory/Users");
              Called POST (loginUrl w);
              Called GET (mgmtUrl w0 "/users");
              Called PUT (mgmtUrl w0 (tpl ["/users/"; newUserId; "/roles"]));
              Called PUT (mgmtUrl w0 (tpl ["/users/"; newUserId; "/profile"]))]
             (remote o) b
           /\ (b = true <-> outcome = None))
        \/ (exists msg,
               outcome = Some (TypeError msg)
               /\ remote o
                  = [Called POST (mgmtUrl w0 "/cloud_directory/Users") true;
                     Called POST (loginUrl w) true;
                     Called GET (mgmtUrl w0 "/users") true])).
Proof.
  intros Hcfg H. asteps.
  all: repeat match goal with
         | H : createUserCloudDirectory _ _ _ _ = _ |- _ =>
             apply createUserCloudDirectory_inv in H;
             destruct H as (Hs1 & [(Hr & Hrem1) | (e1 & Hr & Hrem1)]);
             settle Hr
         end.
  all: repeat match goal with
         | H : activateNewUserProfile _ _ _ _ = _ |- _ =>
             apply activateNewUserProfile_inv in H;
             [| rewrite (missingVar_same Hs1); assumption];
             destruct H as (Hs2 & [(uid & Hr & Hrem2)
                                  | (e2 & Hr & [Hrem2 | [Hrem2
                                                        | (Hrem2 & msg & ->)]])]);
             settle Hr
         end.
  all: repeat match goal with
         | H : updateUserRoles _ _ _ _ = _ |- _ =>
             apply updateUserRoles_inv in H;
             destruct H as (Hs3 & [(Hr & Hrem3) | (e3 & Hr & Hrem3)]);
             settle Hr
         end.
  all: repeat match goal with
         | H : updateUserAttributes _ _ _ = _ |- _ =>
             apply updateUserAttributes_inv in H;
             destruct H as (Hs4 & [(Hr & Hrem4) | (e4 & Hr & Hrem4)]);
             settle Hr
         end.
  all: rewrite ?remote_app, ?Hrem1, ?Hrem2, ?Hrem3, ?Hrem4; simpl remote;
    rewrite ?app_nil_r; try rewrite (loginUrl_same Hs1); simpl app.
  all: eexists; eexists; (split; [reflexivity |]).
  all: first
         [ right; eexists; split; reflexivity
         | left; eexists; (split; [repeat constructor |]);
           split; intros Hb; first [reflexivity | discriminate Hb] ].
  Unshelve. all: exact "".
Qed.

(** The part of [existUserCheckFunc] that prepares the client and the
    roles. *)
Lemma prepare_inv w r w' o :
  missingVar (appIDObj w) = None ->
  tryCatch
    (client <- appIdMgmtClient ;;
     roleIds <- getAllRolesIds client ;;
     ret (inl (client, roleIds)))
    (fun error => ret (inr error)) w = (r, w', o) ->
  sameConfig w w'
  /\ ((exists token roleIds,
         r = Ok (inl (mgmtClientOf w token, roleIds))
         /\ remote o = [Token true; Called GET (mgmtUrl w "/roles") true])
      \/ (exists e,
             r = Ok (inr e)
             /\ ((forall rest,
                     Progress (Token :: Called GET (mgmtUrl w "/roles") :: rest)
                       (remote o) false)
                 \/ (remote o = [Token true; Called GET (mgmtUrl w "/roles") true]
                     /\ exists msg, e = TypeError msg)))).
Proof.
  unfold appIdMgmtClient. intros Hcfg H. asteps.
  all: try congruence.
  all: repeat match goal with
         | H : getAllRolesIds _ _ = _ |- _ =>
             apply getAllRolesIds_inv in H;
             destruct H as (Hs1 & [(ids & Hr & Hrem1)
                                  | (e1 & Hr & [(Hrem1 & msg & ->) | Hrem1])]);
             settle Hr
         end.
  all: split; [first [ apply sameConfig_refl | assumption
                     | eapply sameConfig_trans; eassumption ] |].
  all: rewrite ?remote_app, ?Hrem1; simpl remote; rewrite ?app_nil_r;
    simpl app.
  all: first [ left; eexists; eexists; split; reflexivity
             | right; eexists; split; [reflexivity |];
               first [ right; split; [reflexivity | eexists; reflexivity]
                     | left; intros; repeat constructor ] ].
Qed.

(** The first login of [existUserCheckFunc], when it fails. *)
Lemma attempt_inv username password w r w' o :
  tryCatch
    (log LDebug "Trying to login with current credentials" ;;;
     _ <- loginAppID username password ;;
     ret true)
    (fun error => log LWarn "Login failed, creating new user" ;;; ret false)
    w = (r, w', o) ->
  missingVar (appIDObj w) = None ->
  isThrow (fst (fst (loginAppID username password w))) = true ->
  r = Ok false /\ sameConfig w w'
  /\ remote o = [Called POST (loginUrl w) false].
Proof.
  intros H Hcfg Hfail. asteps.
  { rewrite Hrun in Hfail. discriminate Hfail. }
  match goal with
  | Hl : loginAppID _ _ _ = _ |- _ =>
      apply loginAppID_inv in Hl;
      destruct Hl as (Hs & [(? & Hr & _)
                           | (? & _ & [(Hbad & _) | (_ & Hrem)])]);
      [discriminate Hr | contradiction |]
  end.
  split; [reflexivity |]. split; [assumption |].
  rewrite !remote_app, Hrem. reflexivity.
Qed.

(** C8. When the login with the given credentials succeeds,
    [existUserCheck] is that login and nothing else: it asks no token for
    a management client and makes no call that creates an account or
    updates roles or attributes; the configuration of the module is as it
    was. Run a second time after such a run, with a login that succeeds
    again, it again asks the login and nothing else. *)
Theorem login_success_is_a_no_op username password w d w1 o1 :
  loginAppID username password w = (Ok d, w1, o1) ->
  sameConfig w w1
  /\ (exists o,
        existUserCheck username password w = (Ok tt, w1, o)
        /\ remote o = [Called POST (loginUrl w) true])
  /\ forall d2 w2 o2,
       loginAppID username password w1 = (Ok d2, w2, o2) ->
       exists o,
         (existUserCheck username password ;;;
          existUserCheck username password) w = (Ok tt, w2, o)
         /\ remote o = [Called POST (loginUrl w) true;
                        Called POST (loginUrl w) true].
Proof.
  intros H.
  assert (Hs : sameConfig w w1).
  { apply loginAppID_inv in H. tauto. }
  split; [exact Hs |].
  split; [apply existUserCheck_ok with d o1; exact H |].
  intros d2 w2 o2 H2.
  destruct (existUserCheck_ok _ _ _ H) as (oa & Ha & Hra).
  destruct (existUserCheck_ok _ _ _ H2) as (ob & Hb & Hrb).
  exists (oa ++ ob). split.
  - unfold bind. rewrite Ha, Hb. reflexivity.
  - rewrite remote_app, Hra, Hrb, (loginUrl_same Hs). reflexivity.
Qed.


End WithPlatform.


Lemma login_success_witness :
  let w := Demo.appWorld [Net.Deliver Demo.loggedIn; Net.Deliver Demo.loggedIn] in
  exists w2 o,
    (existUserCheck (platform := Demo.demo) "a@b.com" "pw" ;;;
     existUserCheck (platform := Demo.demo) "a@b.com" "pw") w = (Ok tt, w2, o)
    /\ remote o = [Called POST (loginUrl w) true; Called POST (loginUrl w) true].
Proof.
  set (w := Demo.appWorld [Net.Deliver Demo.loggedIn; Net.Deliver Demo.loggedIn]).
  set (run := loginAppID (platform := Demo.demo) "a@b.com" "pw" w).
  set (run2 := loginAppID (platform := Demo.demo) "a@b.com" "pw" (snd (fst run))).
  destruct (@login_success_is_a_no_op Demo.demo "a@b.com" "pw" w
              "access" (snd (fst run)) (snd run)) as (_ & _ & H).
  - vm_compute. reflexivity.
  - destruct (H "access" (snd (fst run2)) (snd run2)) as (o & Ho & Hrem).
    + vm_compute. reflexivity.
    + exists (snd (fst run2)), o. split; assumption.
Defined.


End UserReconciliation.

(** ** Read, list and ping paths *)

Module Degradation.
Import JS Seen Run.
Local Open Scope js_scope.

(** [pingCloudant] logs nothing at warning level. *)
Lemma pingCloudant_no_warning this w msg :
  ~ In (Log LWarn msg) (snd (Cloudant.pingCloudant this w)).
Proof.
  destruct (Cloudant.pingCloudant this w) as [[r w'] o] eqn:H. simpl.
  unfold Cloudant.pingCloudant in H.
  repeat (CloudantFacts.csteps;
          try match goal with
              | H : match Cloudant.cloudantOf ?x ?t with _ => _ end _ = _ |- _ =>
                  destruct (Cloudant.cloudantOf x t) eqn:?
              | H : Rax.direct _ _ _ _ = _ |- _ =>
                  apply CloudantFacts.direct_inv in H;
                  destruct H as (_ & _ & _ & [(? & _ & ->) | (? & _ & ->)])
              end).
  all: simpl; intros Hin;
    repeat match goal with
           | H : _ \/ _ |- _ => destruct H
           | H : Log _ _ = Log LWarn _ |- _ => discriminate H
           | H : Attempt _ _ _ = Log _ _ |- _ => discriminate H
           | H : Called _ _ _ = Log _ _ |- _ => discriminate H
           | H : False |- _ => destruct H
           end.
Qed.

(** C6, as amended. Listing the keys through a client the caller passes,
    reading a key by its id, reading the newest key of a name and pinging
    the database never raise. The listing returns the keys it was served
    or, with a warning in the log, the empty list. Either read returns
    the blank result whenever a token request or a call of the run failed,
    and whenever it returns the blank result, which is what it returns
    when it has parsed no payload, there is a warning in the log. The
    ping returns false when its call failed or its instance has no
    connection; a false comes with a line at error level in the log, and
    the ping logs no warning. *)
Theorem reads_and_pings_degrade {platform : Platform} :
  (forall client w,
      exists l w' o,
        KeyProtect.getAllKeys (Some client) w = (Ok l, w', o)
        /\ ((l = KeyProtect.store w
             /\ In (Called GET (KeyProtect.target client "") true) o)
            \/ (l = [] /\ KeyProtect.warned o)))
  /\ (forall keyID w,
         exists v w' o,
           KeyProtect.getKeyByID keyID w = (Ok v, w', o)
           /\ (KeyProtect.failedStep o -> v = KeyProtect.Blank)
           /\ (v = KeyProtect.Blank -> KeyProtect.warned o))
  /\ (forall keyName w,
         exists v w' o,
           KeyProtect.getNewestKeyByName keyName w = (Ok v, w', o)
           /\ (KeyProtect.failedStep o -> v = KeyProtect.Blank)
           /\ (v = KeyProtect.Blank -> KeyProtect.warned o))
  /\ (forall this w,
         exists b w' o,
           Cloudant.pingCloudant this w = (Ok b, w', o)
           /\ (b = false -> exists msg, In (Log LError msg) o)
           /\ (Cloudant.cloudantOf w this = None -> b = false)
           /\ ((exists m u, In (Called m u false) o) -> b = false)
           /\ ~ KeyProtect.warned o).
Proof.
  split; [exact Failures.getAllKeys_degrades |].
  split; [exact Failures.getKeyByID_degrades |].
  split; [exact Failures.getNewestKeyByName_degrades |].
  intros this w.
  destruct (CloudantFacts.pingCloudant_inv this w)
    as (b & w' & o & H & _ & _ & _ & Hlog & Hnone & Hfail).
  exists b, w', o. repeat split; auto.
  intros (msg & Hin).
  apply (@pingCloudant_no_warning this w msg). rewrite H. exact Hin.
Qed.

(** The claim C6 as stated fails on the level of the log: the ping of a
    database that is connected and does not answer returns false after a
    line at error level, and logs no warning. *)
Lemma reads_and_pings_counterexample :
  let w := Samples.dbLegacy Demo.unreachable in
  let run := Cloudant.pingCloudant 0 w in
  Cloudant.cloudantOf w 0
  = Some {| Cloudant.authenticator := Cloudant.BasicAuthenticator "admin" "pw";
            Cloudant.serviceUrl := Some "https://proxy.example" |}
  /\ fst (fst run) = Ok false
  /\ In (Called GET "https://proxy.example/_session" false) (snd run)
  /\ (exists msg, In (Log LError msg) (snd run))
  /\ ~ KeyProtect.warned (snd run).
Proof.
  split; [reflexivity |]. split; [reflexivity |].
  split; [vm_compute; tauto |]. split.
  - eexists. vm_compute. right. right. left. reflexivity.
  - intros (msg & Hin). revert Hin. apply pingCloudant_no_warning.
Qed.

End Degradation.

(** ** Two more facts about the helpers *)

Module Startup.
Import JS.
Local Open Scope js_scope.

(** [pingAppID] raises a [ReferenceError] on every call, whatever the
    configuration and the network: the initialiser of its constant
    [timeout] reads that constant, before the [try] and before any
    request; the world is left as it was and nothing is logged. *)
Theorem pingAppID_always_raises {platform : Platform} (w : AppID.World) :
  AppID.pingAppID w
  = (Throw (ReferenceError "Cannot access 'timeout' before initialization"),
     w, []).
Proof. reflexivity. Qed.

(** [getInstance] stores the configuration object it is passed as
    [cloudantObj] on every call, also on the calls that throw the
    status-500 object, and touches neither the network nor the connection
    of an object. *)
Theorem getInstance_stores_its_argument
    (d : Cloudant.CloudantData) (w : Cloudant.World) :
  let w' := snd (fst (Cloudant.getInstance (Some d) w)) in
  Cloudant.cloudantObj w' = Some d
  /\ Cloudant.net w' = Cloudant.net w
  /\ forall this,
       (this < List.length (Cloudant.heap w))%nat ->
       Cloudant.cloudantOf w' this = Cloudant.cloudantOf w this.
Proof.
  unfold Cloudant.getInstance. simpl.
  destruct (Cloudant.instance w) as [this0 |].
  - destruct (Cloudant.cloudantOf _ this0); simpl; auto.
  - simpl. split; [reflexivity |]. split; [reflexivity |].
    intros this Hlt. unfold Cloudant.cloudantOf. simpl.
    rewrite nth_error_app1 by assumption. reflexivity.
Qed.

End Startup.

(** ** helper.js: the identifiers it generates *)

Module IdFacts.
Import Ascii Ids.
Local Open Scope string_scope.

Lemma strip_app a b : strip (a ++ b) = strip a ++ strip b.
Proof.
  induction a as [| c a IH]; simpl; [reflexivity |].
  destruct (alnumLower c); simpl; rewrite IH; reflexivity.
Qed.

Lemma strip_every s : every alnumLower (strip s) = true.
Proof.
  induction s as [| c s IH]; simpl; [reflexivity |].
  destruct (alnumLower c) eqn:Hc; simpl; [rewrite Hc |]; assumption.
Qed.

Lemma strip_kept s : every alnumLower s = true -> strip s = s.
Proof.
  induction s as [| c s IH]; simpl; [reflexivity |].
  intros H. apply andb_prop in H. destruct H as (Hc & Hs).
  rewrite Hc, IH by assumption. reflexivity.
Qed.

Lemma hex_is_alnum c : hexLower c = true -> alnumLower c = true.
Proof.
  unfold hexLower, alnumLower. intros H.
  apply orb_prop in H. apply orb_true_iff.
  destruct H as [H | H]; [left; assumption | right].
  apply andb_prop in H. destruct H as (H1 & H2).
  apply andb_true_iff. split; [assumption |].
  apply Nat.leb_le. apply Nat.leb_le in H2. lia.
Qed.

Lemma every_hex_alnum s : every hexLower s = true -> every alnumLower s = true.
Proof.
  induction s as [| c s IH]; simpl; [reflexivity |].
  intros H. apply andb_prop in H. destruct H as (Hc & Hs).
  rewrite (hex_is_alnum _ Hc), IH by assumption. reflexivity.
Qed.

Lemma length_app a b :
  String.length (a ++ b) = (String.length a + String.length b)%nat.
Proof. induction a as [| c a IH]; simpl; [reflexivity | rewrite IH; reflexivity]. Qed.

Lemma every_app p a b : every p (a ++ b) = every p a && every p b.
Proof.
  induction a as [| c a IH]; simpl; [reflexivity |].
  rewrite IH, andb_assoc. reflexivity.
Qed.

Lemma length_strip s : (String.length (strip s) <= String.length s)%nat.
Proof.
  induction s as [| c s IH]; simpl; [lia |].
  destruct (alnumLower c); simpl; lia.
Qed.

(** Whatever the UUID library returns, the identifier holds characters of
    [0-9a-z] only, is no longer than what the library returned, and is
    that text itself when it held such characters only. *)
Theorem idGenerator_alphabet uuid :
  every alnumLower (idGenerator uuid) = true
  /\ (String.length (idGenerator uuid) <= String.length uuid)%nat
  /\ (every alnumLower uuid = true -> idGenerator uuid = uuid).
Proof.
  unfold idGenerator. split; [apply strip_every |].
  split; [apply length_strip | apply strip_kept].
Qed.

(** For a UUID in its text form, the identifier is the five groups
    without the hyphens: 32 lower-case hexadecimal digits. *)
Theorem idGenerator_canonical g1 g2 g3 g4 g5 :
  group 8 g1 -> group 4 g2 -> group 4 g3 -> group 4 g4 -> group 12 g5 ->
  idGenerator (canonical g1 g2 g3 g4 g5) = g1 ++ g2 ++ g3 ++ g4 ++ g5
  /\ String.length (idGenerator (canonical g1 g2 g3 g4 g5)) = 32%nat
  /\ every hexLower (idGenerator (canonical g1 g2 g3 g4 g5)) = true.
Proof.
  intros (L1 & H1) (L2 & H2) (L3 & H3) (L4 & H4) (L5 & H5).
  assert (E : idGenerator (canonical g1 g2 g3 g4 g5) = g1 ++ g2 ++ g3 ++ g4 ++ g5).
  { unfold idGenerator, canonical.
    rewrite !strip_app. simpl.
    rewrite !strip_kept by (apply every_hex_alnum; assumption).
    reflexivity. }
  rewrite E. split; [reflexivity |]. split.
  - rewrite !length_app. lia.
  - rewrite !every_app, H1, H2, H3, H4, H5. reflexivity.
Qed.

Lemma idGenerator_canonical_witness :
  idGenerator "9b1deb4d-3b7d-4bad-9bdd-2b0d7b3dcb6d"
  = "9b1deb4d3b7d4bad9bdd2b0d7b3dcb6d".
Proof.
  apply (@idGenerator_canonical "9b1deb4d" "3b7d" "4bad" "9bdd" "2b0d7b3dcb6d");
    split; reflexivity.
Defined.

End IdFacts.

(** ** keyprotect-helper.js: what a call leaves of the keys *)

Module KeyFrames.
Import JS Seen Net KeyProtect Run KeyProtectFacts KeyLists Reconciliation TieBreak.
Local Open Scope js_scope.

Section WithPlatform.
Context {platform : Platform}.

(** With a complete configuration, [createKey] given an empty name or a
    payload that is falsy fails at its own test, before any token is
    requested and before anything goes over the wire; the name is tested
    first. *)
Theorem createKey_rejects_empty_input keyName keyPayload w :
  missingVar (keyProtectObj w) = None ->
  truthy keyName = false \/ truthyJson keyPayload = false ->
  let reason := if truthy keyName then "keyPayload is empty"
                else "keyName is empty" in
  let errMsg := tpl ["Failed to create key in KeyProtect: "; reason] in
  createKey keyName keyPayload w
  = (Throw (Error errMsg), w, [Log LError errMsg]).
Proof.
  intros Hcfg Hbad. unfold createKey, tryCatch, bind, validateConfig.
  rewrite Hcfg. simpl.
  destruct (truthy keyName) eqn:Hn; simpl; [| reflexivity].
  destruct Hbad as [Hbad | Hbad]; [discriminate Hbad |].
  rewrite Hbad. reflexivity.
Qed.

Lemma parseKeyPayload_same resp w r w' o :
  parseKeyPayload resp w = (r, w', o) -> w' = w.
Proof.
  unfold parseKeyPayload. intros H. step H.
  - destruct (resp_resources resp) as [[| first rest] |]; branches;
      try reflexivity.
    destruct (payload first) as [p |]; branches; try reflexivity.
    destruct (parse (fromBase64 p)); branches; reflexivity.
  - destruct (resp_resources resp) as [[| first rest] |]; branches;
      try reflexivity.
    destruct (payload first) as [p |]; branches; try reflexivity.
    destruct (parse (fromBase64 p)); branches; reflexivity.
Qed.

(** Listing the keys, with or without a client, and reading a key by its
    identifier change nothing: whatever the outcome, the keys the service
    holds and the configuration of the module are afterwards what they
    were. *)
Theorem listing_and_reading_change_nothing w :
  (forall client r w' o,
      getAllKeys client w = (r, w', o) -> sameService w w')
  /\ (forall keyID r w' o,
         getKeyByID keyID w = (r, w', o) -> sameService w w').
Proof.
  split.
  - intros [client |] r w' o H; simpl in H.
    + apply getAllKeysHelper_inv in H. tauto.
    + branches.
      * match goal with
        | H : getAllKeysHelper _ _ = _ |- _ =>
            apply getAllKeysHelper_inv in H; destruct H as (Hs & _)
        end.
        eapply sameService_trans; eassumption.
      * assumption.
  - intros keyID r w' o H. unfold getKeyByID in H. branches.
    all: repeat match goal with
           | H : parseKeyPayload _ _ = _ |- _ =>
               apply parseKeyPayload_same in H; subst
           end.
    all: answered.
    all: frames.
    all: try (unfold sameService; repeat split; congruence).
Qed.

(** A key is still there when those of a list of identifiers that does not
    hold its own are gone. *)
Lemma kept_without gone s k :
  In k s -> ~ In (id k) gone -> In k (without gone s).
Proof.
  intros Hk Hid. apply filter_In. split; [assumption |].
  apply negb_true_iff. apply not_true_is_false. intros Hex.
  apply existsb_exists in Hex. destruct Hex as (i & Hi & Heq).
  apply String.eqb_eq in Heq. apply Hid. rewrite Heq. assumption.
Qed.

Lemma named_true n k : named n k = true <-> name k = n.
Proof. unfold named. apply String.eqb_eq. Qed.

(** The identifiers the scan deletes are those of keys of the name. *)
Lemma doomed_named n s i :
  In i (doomed "" (picks n (filter (named n) s) (Some 0))) ->
  exists k, In k s /\ name k = n /\ id k = i.
Proof.
  intros Hi. apply doomed_picked in Hi. destruct Hi as (Ht & [-> | Hi]);
    [discriminate Ht |].
  apply in_map_iff in Hi. destruct Hi as (k & <- & Hk).
  apply picks_incl in Hk. apply filter_In in Hk. destruct Hk as (Hk & Hn).
  exists k. split; [assumption |]. split; [apply named_true, Hn | reflexivity].
Qed.

Lemma last_named n s :
  let i := last (map id (picks n (filter (named n) s) (Some 0))) "" in
  i = "" \/ exists k, In k s /\ name k = n /\ id k = i.
Proof.
  simpl. destruct (last_picked (map id (picks n (filter (named n) s) (Some 0))) "")
    as [He | Hin]; [left; assumption | right].
  apply in_map_iff in Hin. destruct Hin as (k & Hid & Hk).
  apply picks_incl in Hk. apply filter_In in Hk. destruct Hk as (Hk & Hn).
  exists k. split; [assumption |]. split; [apply named_true, Hn | assumption].
Qed.

(** What a run of the scan behind [getNewestKeyIDByName] leaves of a key
    of another name. *)
Lemma scan_spares n token w r w' o k :
  getNewestKeyIDByName (Some (keyProtectClient (keyProtectObj w) token)) n w
  = (r, w', o) ->
  NoDup (map id (store w)) ->
  In k (store w) -> name k <> n ->
  In k (store w')
  /\ (forall kid, r = Ok kid ->
        kid = "" \/ exists k', In k' (store w) /\ name k' = n /\ id k' = kid).
Proof.
  intros H Hnd Hk Hn.
  apply getNewestKeyIDByName_inv in H.
  destruct H as (L & listing & rest & _ & HL & Hscan).
  assert (Hgone : forall gone,
             incl gone (doomed "" (picks n L (Some 0))) ->
             In k (without gone (store w))).
  { intros gone Hincl. apply kept_without; [assumption |].
    intros Hin. apply Hincl in Hin.
    destruct HL as [(-> & _) | (-> & _)]; [| destruct Hin].
    apply doomed_named in Hin. destruct Hin as (k' & Hk' & Hn' & Hid).
    apply Hn. rewrite <- Hn'. f_equal.
    apply (@unique_by_id (store w)); auto. }
  destruct Hscan as [(-> & -> & _) | (reason & gone & culprit & -> & _ & Hincl & -> & _)].
  - split; [apply Hgone, incl_refl |].
    intros kid Hr. inversion Hr; subst.
    destruct HL as [(-> & _) | (-> & _)]; [apply last_named | left; reflexivity].
  - split; [apply Hgone, Hincl |]. intros kid Hr. discriminate Hr.
Qed.

(** [createKey] and [getNewestKeyByName], whatever their outcome, leave
    every key of another name where it was: while identifiers are unique,
    a key the service held under another name before the call is still
    held after it. *)
Theorem other_names_are_left_alone keyName w k :
  NoDup (map id (store w)) ->
  In k (store w) -> name k <> keyName ->
  (forall keyPayload r w' o,
      createKey keyName keyPayload w = (r, w', o) -> In k (store w'))
  /\ (forall r w' o,
         getNewestKeyByName keyName w = (r, w', o) -> In k (store w')).
Proof.
  intros Hnd Hk Hn. split.
  - intros keyPayload r w' o H. unfold createKey in H. branches.
    all: repeat match goal with
           | H : parseKeyID _ _ = _ |- _ =>
               apply parseKeyID_inv in H; destruct H as (-> & _ & _)
           end.
    all: frames.
    all: try (match goal with
              | H : getNewestKeyIDByName _ _ ?wa = _ |- _ =>
                  replace (store w) with (store wa) in Hnd, Hk by congruence;
                  eapply scan_spares in H; [| eassumption ..];
                  destruct H as (Hin & Hkid)
              end).
    all: repeat match goal with
           | H : deleteKey _ _ = _ |- _ =>
               apply deleteKey_inv in H;
               destruct H as (_ & _ & _ & [(_ & Hst3 & _) | (? & _ & Hst3 & _)])
           end.
    all: repeat match goal with
           | H : exchange POST _ _ _ = (inl _, _) |- _ =>
               apply exchange_answered in H; simpl in H;
               destruct H as (_ & _ & ? & _ & Hst4 & _)
           end.
    all: repeat match goal with
           | H : store ?a = _ |- In _ (store ?a) => rewrite H
           | |- In _ (_ ++ _) => apply in_or_app; left
           | |- In _ (without [_] _) =>
               apply kept_without; [| intros [Hx | []]]
           end; try assumption.
    all: match goal with
         | Hkid : forall kid, Ok ?a = Ok kid -> _, Ht : truthy ?a = true,
           Hx : ?a = id _ |- _ =>
             destruct (Hkid a eq_refl) as [He | (k' & Hk' & Hn' & Hid')];
             [ rewrite He in Ht; discriminate Ht
             | apply Hn; rewrite <- Hn'; f_equal;
               eapply unique_by_id; [exact Hnd | assumption .. | congruence] ]
         end.
  - intros r w' o H. unfold getNewestKeyByName in H. branches.
    all: repeat match goal with
           | H : parseKeyPayload _ _ = _ |- _ =>
               apply parseKeyPayload_same in H; subst
           end.
    all: frames.
    all: try (match goal with
              | H : getNewestKeyIDByName _ _ ?wa = _ |- _ =>
                  replace (store w) with (store wa) in Hnd, Hk by congruence;
                  eapply scan_spares in H; [| eassumption ..];
                  destruct H as (Hin & Hkid)
              end).
    all: repeat match goal with
           | H : exchange GET _ _ _ = (inl _, _) |- _ =>
               apply exchange_answered in H; simpl in H;
               destruct H as (_ & _ & Hst4 & _)
           end.
    all: repeat match goal with
           | H : store ?a = _ |- In _ (store ?a) => rewrite H
           end; try assumption.
Qed.

(** *** The newest key *)

Lemma isBefore_inv x d :
  isBefore (Some x) d = true -> exists z, d = Some z /\ x < z.
Proof.
  destruct d as [z |]; simpl; [| discriminate].
  intros H. exists z. split; [reflexivity | apply Z.ltb_lt, H].
Qed.

(** The date the scan ends with is no earlier than that of any key of the
    name. *)
Lemma newest_max n l :
  forall x y,
    newest n l (Some x) = Some y ->
    forall k t, In k l -> named n k = true -> creationDate k = Some t -> t <= y.
Proof.
  induction l as [| key rest IH]; intros x y Hy k t Hk Hn Ht;
    [destruct Hk |].
  change (newest n (key :: rest) (Some x))
    with (if named n key && isBefore (Some x) (creationDate key)
          then newest n rest (creationDate key)
          else newest n rest (Some x)) in Hy.
  destruct (named n key && isBefore (Some x) (creationDate key)) eqn:Hp.
  - apply andb_prop in Hp. destruct Hp as (_ & Hb).
    apply isBefore_inv in Hb. destruct Hb as (z & Hz & Hxz).
    rewrite Hz in Hy. destruct Hk as [<- | Hk].
    + destruct (newest_grows n rest z) as (y' & Hy' & Hle).
      rewrite Hy in Hy'. inversion Hy'; subst. congruence.
    + eapply IH; eassumption.
  - destruct Hk as [<- | Hk]; [| eapply IH; eassumption].
    rewrite Hn in Hp. simpl in Hp. rewrite Ht in Hp. simpl in Hp.
    apply Z.ltb_ge in Hp.
    destruct (newest_grows n rest x) as (y' & Hy' & Hle).
    rewrite Hy in Hy'. inversion Hy'; subst. lia.
Qed.

(** Either the scan picks nothing, or the last key it picks carries the
    date it ends with. *)
Lemma picks_newest n l :
  forall x,
    (picks n l (Some x) = [] /\ newest n l (Some x) = Some x)
    \/ (exists P k y,
           picks n l (Some x) = P ++ [k] /\ In k l /\ named n k = true
           /\ creationDate k = Some y /\ newest n l (Some x) = Some y
           /\ x < y).
Proof.
  assert (Hone : forall a d,
             (named n a && isBefore (Some d) (creationDate a) = true
              /\ picks n [a] (Some d) = [a]
              /\ newest n [a] (Some d) = creationDate a)
             \/ (picks n [a] (Some d) = [] /\ newest n [a] (Some d) = Some d)).
  { intros a d.
    change (picks n [a] (Some d))
      with (if named n a && isBefore (Some d) (creationDate a)
            then [a] else []).
    change (newest n [a] (Some d))
      with (if named n a && isBefore (Some d) (creationDate a)
            then creationDate a else Some d).
    destruct (named n a && isBefore (Some d) (creationDate a));
      [left | right]; auto. }
  induction l as [| a l IH] using rev_ind; intros x; [left; auto |].
  rewrite picks_app, newest_app.
  destruct (IH x) as [(Hp & Hn) | (P & k & y & Hp & Hk & Hnk & Hd & Hn & Hlt)].
  - rewrite Hp, Hn.
    destruct (Hone a x) as [(Ha & -> & ->) | (-> & ->)]; [| left; auto].
    apply andb_prop in Ha. destruct Ha as (Hna & Hb).
    apply isBefore_inv in Hb. destruct Hb as (z & Hz & Hxz).
    right. exists [], a, z.
    split; [reflexivity |]. split; [apply in_or_app; right; left; reflexivity |].
    auto.
  - rewrite Hp, Hn.
    destruct (Hone a y) as [(Ha & -> & ->) | (-> & ->)].
    + apply andb_prop in Ha. destruct Ha as (Hna & Hb).
      apply isBefore_inv in Hb. destruct Hb as (z & Hz & Hyz).
      right. exists (P ++ [k]), a, z.
      split; [reflexivity |]. split; [apply in_or_app; right; left; reflexivity |].
      split; [assumption |]. split; [assumption |]. split; [assumption | lia].
    + right. exists P, k, y. rewrite app_nil_r.
      split; [reflexivity |]. split; [apply in_or_app; left; assumption |].
      auto.
Qed.

Lemma picks_NoDup n l :
  forall d, NoDup (map id l) -> NoDup (map id (picks n l d)).
Proof.
  induction l as [| key rest IH]; intros d Hnd; simpl; [constructor |].
  inversion Hnd as [| ? ? Hnotin Hrest]; subst.
  destruct (named n key && isBefore d (creationDate key)); [| apply IH, Hrest].
  simpl. constructor; [| apply IH, Hrest].
  intros Hin. apply Hnotin. apply in_map_iff in Hin.
  destruct Hin as (k & Hid & Hk). apply picks_incl in Hk.
  apply in_map_iff. exists k. auto.
Qed.

(** The scan does not delete the last key it picks. *)
Lemma last_not_doomed P k :
  NoDup (map id (P ++ [k])) -> ~ In (id k) (doomed "" (P ++ [k])).
Proof.
  intros Hnd Hin. unfold doomed in Hin.
  rewrite map_app in Hin. change (map id [k]) with [id k] in Hin.
  rewrite app_comm_cons, removelast_last in Hin.
  apply filter_In in Hin. destruct Hin as ([He | Hin] & Ht).
  - rewrite <- He in Ht. discriminate Ht.
  - rewrite map_app in Hnd. simpl in Hnd.
    apply NoDup_remove_2 in Hnd. apply Hnd. rewrite app_nil_r. assumption.
Qed.

(** A call of [getNewestKeyIDByName] that returns, having obtained the
    listing, while identifiers are unique and not empty. If it returns an
    identifier, that is the identifier of a key of the name whose creation
    date is valid, after the epoch and no earlier than that of any other
    key of the name, and that key is still held after the call. If it
    returns [''], no key of the name has a valid creation date after the
    epoch, and no key was deleted. *)
Theorem newest_key_is_returned searchName token w kid w' o :
  getNewestKeyIDByName (Some (keyProtectClient (keyProtectObj w) token))
    searchName w = (Ok kid, w', o) ->
  In (Called GET (base w) true) o ->
  wellFormed (store w) ->
  (truthy kid = true ->
   exists k t,
     In k (store w) /\ In k (store w') /\ name k = searchName /\ id k = kid
     /\ creationDate k = Some t /\ 0 < t
     /\ forall k' t',
          In k' (store w) -> name k' = searchName ->
          creationDate k' = Some t' -> t' <= t)
  /\ (truthy kid = false ->
      store w' = store w
      /\ forall k t,
           In k (store w) -> name k = searchName ->
           creationDate k = Some t -> t <= 0).
Proof.
  intros H Hgot (Hnd & Hids).
  apply getNewestKeyIDByName_inv in H.
  destruct H as (L & listing & rest & Hrem & HL & Hscan).
  destruct Hscan as [(Hr & Hst & Hrest) | (? & ? & ? & Hr & _)];
    [| discriminate Hr].
  injection Hr as Hkid. subst kid.
  assert (HLs : L = filter (named searchName) (store w)).
  { destruct HL as [(-> & _) | (-> & Hl)]; [reflexivity |].
    exfalso. apply remote_In in Hgot; [| reflexivity].
    rewrite Hrem, Hrest in Hgot. simpl in Hgot. rewrite app_nil_r in Hgot.
    destruct Hl as [-> | ->]; simpl in Hgot; [contradiction |].
    destruct Hgot as [Hgot | []]. discriminate. }
  rewrite HLs, picks_filter in *.
  assert (Hall : forall k t y,
             newest searchName (store w) (Some 0) = Some y ->
             In k (store w) -> name k = searchName ->
             creationDate k = Some t -> t <= y).
  { intros k t y Hy Hk Hn Ht. eapply newest_max; try eassumption.
    apply named_true, Hn. }
  destruct (picks_newest searchName (store w) 0)
    as [(Hp & Hn) | (P & k & y & Hp & Hk & Hnk & Hd & Hn & Hlt)].
  - rewrite Hp in *. split; [discriminate |].
    intros _. split; [rewrite Hst; apply without_nil |].
    intros k t. apply Hall, Hn.
  - rewrite Hp in *.
    assert (Hlast : last (map id (P ++ [k])) "" = id k).
    { rewrite map_app. apply last_last. }
    rewrite Hlast.
    assert (Hndp : NoDup (map id (P ++ [k]))).
    { rewrite <- Hp. apply picks_NoDup, Hnd. }
    split.
    + intros _. exists k, y. split; [assumption |].
      split.
      { rewrite Hst. apply kept_without; [assumption |].
        apply last_not_doomed, Hndp. }
      split; [apply named_true, Hnk |]. split; [reflexivity |].
      split; [assumption |]. split; [assumption |].
      intros k' t'. apply Hall, Hn.
    + intros Ht. rewrite Forall_forall in Hids. rewrite (Hids k Hk) in Ht.
      discriminate Ht.
Qed.

(** *** Writing a key and reading it back *)

Lemma bind_ok {W A B} (c : M W A) (k : A -> M W B) w a w1 o1 r w2 o2 :
  c w = (Ok a, w1, o1) -> k a w1 = (r, w2, o2) ->
  bind c k w = (r, w2, o1 ++ o2).
Proof. intros Hc Hk. unfold bind. rewrite Hc, Hk. reflexivity. Qed.

Lemma tryCatch_ok {W A} (body : M W A) handler w a w1 o1 :
  body w = (Ok a, w1, o1) -> tryCatch body handler w = (Ok a, w1, o1).
Proof. intros Hb. unfold tryCatch. rewrite Hb. reflexivity. Qed.

Lemma delivered_tl {B} n (script : list (Event B)) :
  Delivery.delivered (S n) script -> Delivery.delivered n (tl script).
Proof.
  intros H i e Hi He. apply (H (S i) e); [lia |].
  destruct script; [destruct i; discriminate He | exact He].
Qed.

Lemma delivered_head {B} n (script : list (Event B)) :
  Delivery.delivered (S n) script ->
  script = [] \/ exists b rest, script = Deliver b :: rest.
Proof.
  intros H. destruct script as [| e rest]; [left; reflexivity | right].
  destruct (H 0%nat e) as (b & ->); [lia | reflexivity |]. eauto.
Qed.

Lemma token_delivered key w :
  Delivery.delivered 1 (net w) ->
  getCloudIAMToken key w
  = (Ok (bearer w), after w (store w) (serial w), [Token true]).
Proof.
  intros H. apply delivered_head in H. unfold getCloudIAMToken.
  destruct H as [-> | (b & rest & ->)]; reflexivity.
Qed.

Lemma exchange_delivered m path body w :
  Delivery.delivered 1 (net w) ->
  exchange m path body w
  = match serve m path body w with
    | (inl r, w1) => (inl r, w1)
    | (inr e, w1) => (inr (badStatus e), w1)
    end.
Proof.
  intros H. apply delivered_head in H. unfold exchange.
  destruct H as [-> | (b & rest & ->)]; reflexivity.
Qed.

Lemma request_answered client m path body w resp w1 :
  exchange m path body w = (inl resp, w1) ->
  request client m path body w
  = (Ok resp, w1,
     [Attempt m (target client path) true; Called m (target client path) true]).
Proof.
  intros H. unfold request, Rax.call. rewrite RaxFacts.send_eq, H. reflexivity.
Qed.

(** A run of [createKey] that returns had a complete configuration and
    leaves it as it was. *)
Lemma createKey_config keyName keyPayload w kid w' o :
  createKey keyName keyPayload w = (Ok kid, w', o) ->
  missingVar (keyProtectObj w) = None
  /\ keyProtectObj w' = keyProtectObj w /\ bearer w' = bearer w.
Proof.
  unfold createKey. intros H. branches.
  all: repeat match goal with
         | H : parseKeyID _ _ = _ |- _ =>
             apply parseKeyID_inv in H; destruct H as (-> & _ & _)
         | H : deleteKey _ _ = _ |- _ =>
             apply deleteKey_inv in H; destruct H as (? & ? & _)
         | H : getNewestKeyIDByName _ _ _ = _ |- _ =>
             unfold getNewestKeyIDByName in H; step H
         | H : getKeysByName _ _ _ = _ |- _ =>
             apply getKeysByName_inv in H; destruct H as (? & _)
         | H : scan _ _ _ _ _ = _ |- _ =>
             apply scan_inv in H; destruct H as (? & ? & _)
         | H : exchange POST _ _ _ = (inl _, _) |- _ =>
             apply exchange_answered in H; destruct H as (? & ? & _)
         end.
  all: frames.
  all: split; [assumption |]; split; congruence.
Qed.

Lemma filter_without_fresh i gone s :
  ~ In i (map id s) ->
  filter (fun k => String.eqb (id k) i) (without gone s) = [].
Proof.
  intros Hfresh. induction s as [| k s IH]; [reflexivity |].
  unfold without in *. simpl.
  assert (Hk : String.eqb (id k) i = false).
  { apply String.eqb_neq. intros He. apply Hfresh. left. assumption. }
  destruct (negb (existsb (String.eqb (id k)) gone)); simpl;
    rewrite ?Hk; apply IH; intros Hin; apply Hfresh; right; assumption.
Qed.

(** A key written by [createKey] reads back through [getKeyByID]: when the
    token request and the read that follow are delivered, the identifier
    the service gave the key is new and not empty, and the codecs of the
    platform invert each other on the payload, the read returns the
    payload that was written. *)
Theorem created_key_reads_back keyName keyPayload w kid w1 o1 :
  createKey keyName keyPayload w = (Ok kid, w1, o1) ->
  ~ In (keyId (serial w)) (map id (store w)) ->
  truthy (keyId (serial w)) = true ->
  truthy (toBase64 (stringify keyPayload)) = true ->
  fromBase64 (toBase64 (stringify keyPayload)) = stringify keyPayload ->
  parse (stringify keyPayload) = Some keyPayload ->
  Delivery.delivered 2 (net w1) ->
  exists w2 o2,
    getKeyByID kid w1 = (Ok (Parsed keyPayload), w2, o2)
    /\ sameService w1 w2.
Proof.
  intros Hcreate Hfresh Hid Hp64 Hb64 Hjson Hnet.
  destruct (createKey_config _ _ _ Hcreate) as (Hcfg & Hobj & _).
  apply createKey_ok in Hcreate.
  destruct Hcreate as (L & listing & t & _ & Hst & -> & _).
  set (created := {| id := keyId (serial w); name := keyName;
                     creationDate := Some t;
                     payload := Some (toBase64 (stringify keyPayload)) |}) in *.
  set (wT := after w1 (store w1) (serial w1)).
  assert (Hex : exchange GET (keyId (serial w)) None wT
                = (inl {| resp_status := 200; resp_resources := Some [created] |},
                   after wT (store wT) (serial wT))).
  { rewrite exchange_delivered by (apply delivered_tl, Hnet).
    unfold serve. rewrite Hid.
    change (store wT) with (store w1). rewrite Hst, filter_app.
    rewrite filter_without_fresh by assumption.
    simpl. rewrite String.eqb_refl. reflexivity. }
  do 2 eexists. split.
  - unfold getKeyByID. apply tryCatch_ok.
    eapply bind_ok.
    { unfold validateConfig. rewrite Hobj, Hcfg. reflexivity. }
    eapply bind_ok; [reflexivity |].
    eapply bind_ok.
    { apply token_delivered. intros i e Hi. apply Hnet. lia. }
    eapply bind_ok; [reflexivity |].
    eapply bind_ok; [apply request_answered, Hex |].
    eapply bind_ok; [reflexivity |].
    unfold parseKeyPayload. apply tryCatch_ok. simpl.
    rewrite Hp64, Hb64, Hjson. reflexivity.
  - unfold sameService. simpl. auto.
Qed.

Lemma validateConfig_ok w :
  missingVar (keyProtectObj w) = None -> validateConfig w = (Ok tt, w, []).
Proof. intros H. unfold validateConfig. rewrite H. reflexivity. Qed.

(** The listing, when it is delivered. *)
Lemma getKeysByName_delivered client keyName w :
  missingVar (keyProtectObj w) = None ->
  Delivery.delivered 1 (net w) ->
  exists o,
    getKeysByName (Some client) keyName w
    = (Ok (filter (named keyName) (store w)),
       after w (store w) (serial w), o).
Proof.
  intros Hcfg Hnet. eexists.
  unfold getKeysByName. apply tryCatch_ok.
  eapply bind_ok; [apply validateConfig_ok, Hcfg |].
  eapply bind_ok.
  { simpl. unfold getAllKeysHelper. apply tryCatch_ok.
    eapply bind_ok; [apply validateConfig_ok, Hcfg |].
    eapply bind_ok.
    { apply request_answered. rewrite exchange_delivered by assumption.
      reflexivity. }
    simpl. eapply bind_ok; reflexivity. }
  eapply bind_ok; reflexivity.
Qed.

(** After [createKey], [getNewestKeyByName] reads the key back. A call of
    [createKey] that returned, having obtained the listing while the keys
    of the name were listed oldest first and identifiers were unique and
    not empty, leaves one key of the name. When that key is dated after
    the epoch, its identifier is new, the three exchanges that follow are
    delivered and the codecs of the platform invert each other on the
    payload, [getNewestKeyByName] returns the payload that was written,
    and deletes nothing. *)
Theorem created_key_is_the_newest keyName keyPayload w kid w1 o1 :
  createKey keyName keyPayload w = (Ok kid, w1, o1) ->
  In (Called GET (base w) true) o1 ->
  wellFormed (store w) ->
  ascending (Some 0) (filter (named keyName) (store w)) = true ->
  ~ In (keyId (serial w)) (map id (store w)) ->
  truthy (keyId (serial w)) = true ->
  (forall k t, In k (store w1) -> id k = kid -> creationDate k = Some t -> 0 < t) ->
  truthy (toBase64 (stringify keyPayload)) = true ->
  fromBase64 (toBase64 (stringify keyPayload)) = stringify keyPayload ->
  parse (stringify keyPayload) = Some keyPayload ->
  Delivery.delivered 3 (net w1) ->
  exists w2 o2,
    getNewestKeyByName keyName w1 = (Ok (Parsed keyPayload), w2, o2)
    /\ sameService w1 w2.
Proof.
  intros Hcreate Hlisted Hwf Hasc Hfresh Hid Hdate Hp64 Hb64 Hjson Hnet.
  destruct (createKey_config _ _ _ Hcreate) as (Hcfg & Hobj & _).
  assert (Hcfg1 : missingVar (keyProtectObj w1) = None) by (rewrite Hobj; exact Hcfg).
  apply createKey_ok in Hcreate.
  destruct Hcreate as (L & listing & t & Hl & Hst & -> & Hrem).
  set (created := {| id := keyId (serial w); name := keyName;
                     creationDate := Some t;
                     payload := Some (toBase64 (stringify keyPayload)) |}) in *.
  assert (HL : L = filter (named keyName) (store w)).
  { destruct Hl as [(-> & _) | (-> & Hl)]; [reflexivity |].
    exfalso. apply remote_In in Hlisted; [| reflexivity].
    rewrite Hrem in Hlisted. simpl in Hlisted.
    destruct Hlisted as [Hx | Hx]; [discriminate |].
    apply in_app_or in Hx.
    destruct Hx as [Hx | [Hx | []]]; [| discriminate].
    destruct Hl as [-> | ->]; simpl in Hx; [contradiction |].
    destruct Hx as [Hx | []]. discriminate. }
  subst L.
  rewrite picks_ascending in Hst by (try apply named_filter; assumption).
  rewrite wellFormed_named in Hst by assumption.
  rewrite without_named in Hst by apply Hwf.
  assert (Hnamed : filter (named keyName) (store w1) = [created]).
  { rewrite Hst. apply filter_named_others. unfold named. simpl.
    apply String.eqb_refl. }
  assert (Hpos : 0 < t).
  { apply (Hdate created t); [| reflexivity | reflexivity].
    rewrite Hst. apply in_or_app. right. left. reflexivity. }
  set (wT := after w1 (store w1) (serial w1)).
  set (wL := after wT (store wT) (serial wT)).
  assert (Hex : exchange GET (keyId (serial w)) None wL
                = (inl {| resp_status := 200; resp_resources := Some [created] |},
                   after wL (store wL) (serial wL))).
  { rewrite exchange_delivered
      by (apply delivered_tl; apply delivered_tl; exact Hnet).
    unfold serve. rewrite Hid.
    change (store wL) with (store w1). rewrite Hst, filter_app.
    assert (Hnone : filter (fun k => String.eqb (id k) (keyId (serial w)))
                      (filter (fun k => negb (named keyName k)) (store w)) = []).
    { clear - Hfresh. induction (store w) as [| k s IH]; [reflexivity |].
      simpl. assert (Hk : String.eqb (id k) (keyId (serial w)) = false).
      { apply String.eqb_neq. intros He. apply Hfresh. left. assumption. }
      destruct (negb (named keyName k)); simpl; rewrite ?Hk; apply IH;
        intros Hin; apply Hfresh; right; assumption. }
    rewrite Hnone. simpl. rewrite String.eqb_refl. reflexivity. }
  destruct (getKeysByName_delivered
              (keyProtectClient (keyProtectObj wT) (bearer w1)) keyName wT)
    as (oL & HlistT).
  { exact Hcfg1. }
  { apply delivered_tl. intros i e Hi. apply Hnet. lia. }
  change (store wT) with (store w1) in HlistT. rewrite Hnamed in HlistT.
  do 2 eexists. split.
  - unfold getNewestKeyByName. apply tryCatch_ok.
    eapply bind_ok; [apply validateConfig_ok, Hcfg1 |].
    eapply bind_ok; [reflexivity |].
    eapply bind_ok.
    { apply token_delivered. intros i e Hi. apply Hnet. lia. }
    eapply bind_ok; [reflexivity |].
    eapply bind_ok.
    { unfold getNewestKeyIDByName. eapply bind_ok; [exact HlistT |].
      simpl. rewrite String.eqb_refl.
      replace (Z.ltb 0 t) with true by (symmetry; apply Z.ltb_lt; exact Hpos).
      simpl. eapply bind_ok; reflexivity. }
    change (id created) with (keyId (serial w)). rewrite Hid. simpl negb.
    cbv iota.
    eapply bind_ok; [apply request_answered, Hex |].
    eapply bind_ok; [reflexivity |].
    unfold parseKeyPayload. apply tryCatch_ok. simpl.
    rewrite Hp64, Hb64, Hjson. reflexivity.
  - unfold sameService. simpl. auto.
Qed.

End WithPlatform.

Lemma createKey_rejects_witness :
  createKey (platform := Demo.demo) "" JNull (Demo.kpWorld Demo.kpConfig [] [])
  = (Throw (Error "Failed to create key in KeyProtect: keyName is empty"),
     Demo.kpWorld Demo.kpConfig [] [],
     [Log LError "Failed to create key in KeyProtect: keyName is empty"]).
Proof.
  apply (@createKey_rejects_empty_input Demo.demo "" JNull
           (Demo.kpWorld Demo.kpConfig [] []));
    [reflexivity | left; reflexivity].
Defined.

Lemma other_names_witness :
  In Samples.otherKey
     (store (snd (fst (createKey (platform := Demo.demo) "K" (JObj [])
                         (Demo.kpWorld Demo.kpConfig Samples.mixedKeys []))))).
Proof.
  set (w := Demo.kpWorld Demo.kpConfig Samples.mixedKeys []).
  set (run := createKey (platform := Demo.demo) "K" (JObj []) w).
  apply (proj1 (@other_names_are_left_alone Demo.demo "K" w Samples.otherKey
                  ltac:(repeat constructor; simpl; intuition discriminate)
                  ltac:(simpl; tauto)
                  ltac:(discriminate))
           (JObj []) (fst (fst run)) (snd (fst run)) (snd run)).
  vm_compute. reflexivity.
Defined.

Lemma newest_key_witness :
  exists k,
    In k Demo.ascendingKeys /\ id k = "c" /\ creationDate k = Some 3
    /\ forall k' t',
         In k' Demo.ascendingKeys -> name k' = "K" ->
         creationDate k' = Some t' -> t' <= 3.
Proof.
  set (w := Demo.kpWorld Demo.kpConfig Demo.ascendingKeys []).
  set (run := getNewestKeyIDByName (platform := Demo.demo)
                (Some (keyProtectClient (keyProtectObj w) "token")) "K" w).
  destruct (@newest_key_is_returned Demo.demo "K" "token" w "c"
              (snd (fst run)) (snd run)) as (Hnewest & _).
  - vm_compute. reflexivity.
  - vm_compute. tauto.
  - split.
    + simpl. repeat constructor; simpl; intuition discriminate.
    + repeat constructor.
  - destruct (Hnewest eq_refl) as (k & t & Hk & _ & _ & Hid & Hd & _ & Hmax).
    exists k. split; [exact Hk |]. split; [exact Hid |].
    assert (Ht : t = 3).
    { simpl in Hk. destruct Hk as [<- | [<- | [<- | []]]];
        simpl in Hid; try discriminate Hid.
      simpl in Hd. congruence. }
    subst t. split; [exact Hd | exact Hmax].
Defined.

Lemma created_key_witness :
  let w := Demo.kpWorld Demo.kpConfig Demo.ascendingKeys [] in
  let w1 := snd (fst (createKey (platform := Samples.codec) "K" (JObj []) w)) in
  exists w2 o2,
    getKeyByID (platform := Samples.codec) "key-0" w1
    = (Ok (Parsed (JObj [])), w2, o2)
    /\ sameService w1 w2.
Proof.
  set (w := Demo.kpWorld Demo.kpConfig Demo.ascendingKeys []).
  set (run := createKey (platform := Samples.codec) "K" (JObj []) w).
  apply (@created_key_reads_back Samples.codec "K" (JObj []) w "key-0"
           (snd (fst run)) (snd run)).
  - vm_compute. reflexivity.
  - simpl. intuition discriminate.
  - reflexivity.
  - reflexivity.
  - reflexivity.
  - reflexivity.
  - intros i e Hi He. vm_compute in He. destruct i; discriminate He.
Defined.

Lemma created_newest_witness :
  let w := Demo.kpWorld Demo.kpConfig Demo.ascendingKeys [] in
  let w1 := snd (fst (createKey (platform := Samples.codec) "K" (JObj []) w)) in
  exists w2 o2,
    getNewestKeyByName (platform := Samples.codec) "K" w1
    = (Ok (Parsed (JObj [])), w2, o2)
    /\ sameService w1 w2.
Proof.
  set (w := Demo.kpWorld Demo.kpConfig Demo.ascendingKeys []).
  set (run := createKey (platform := Samples.codec) "K" (JObj []) w).
  apply (@created_key_is_the_newest Samples.codec "K" (JObj []) w "key-0"
           (snd (fst run)) (snd run)).
  - vm_compute. reflexivity.
  - vm_compute. tauto.
  - split.
    + simpl. repeat constructor; simpl; intuition discriminate.
    + repeat constructor.
  - reflexivity.
  - simpl. intuition discriminate.
  - reflexivity.
  - intros k t Hk Hid Hd. vm_compute in Hk.
    destruct Hk as [<- | []]. vm_compute in Hd. injection Hd as <-. lia.
  - reflexivity.
  - reflexivity.
  - reflexivity.
  - intros i e Hi He. vm_compute in He. destruct i; discriminate He.
Defined.

End KeyFrames.

(** ** keyprotect-helper.js: keys that go away *)

Module KeyLosses.
Import JS Seen Net KeyProtect Run KeyProtectFacts KeyLists Reconciliation TieBreak.
Local Open Scope js_scope.

Lemma without_filter (P : KeyRecord -> bool) ids s :
  filter P (without ids s) = without ids (filter P s).
Proof.
  unfold without. induction s as [| k s IH]; [reflexivity |].
  simpl. destruct (negb (existsb (String.eqb (id k)) ids)) eqn:Hk;
    destruct (P k) eqn:Hp; simpl; rewrite ?Hk, ?Hp, IH; reflexivity.
Qed.

Lemma without_all s : without (map id s) s = [].
Proof.
  unfold without.
  assert (H : forall ids, incl (map id s) ids ->
                          filter (fun k => negb (existsb (String.eqb (id k)) ids)) s = []).
  { induction s as [| k s IH]; intros ids Hincl; [reflexivity |].
    simpl. replace (existsb (String.eqb (id k)) ids) with true.
    - simpl. apply IH. intros x Hx. apply Hincl. right. exact Hx.
    - symmetry. apply existsb_exists. exists (id k).
      split; [apply Hincl; left; reflexivity | apply String.eqb_refl]. }
  apply H, incl_refl.
Qed.

Lemma without_absent ids s :
  (forall k, In k s -> ~ In (id k) ids) -> without ids s = s.
Proof.
  unfold without. induction s as [| k s IH]; intros H; [reflexivity |].
  simpl. replace (existsb (String.eqb (id k)) ids) with false.
  - simpl. f_equal. apply IH. intros k' Hk'. apply H. right. exact Hk'.
  - symmetry. apply not_true_is_false. intros Hex.
    apply existsb_exists in Hex. destruct Hex as (i & Hi & Heq).
    apply String.eqb_eq in Heq. apply (H k (or_introl eq_refl)).
    rewrite Heq. exact Hi.
Qed.

(** Of keys with distinct identifiers, the last is what is left when the
    others are gone. *)
Lemma without_older older k :
  NoDup (map id (older ++ [k])) ->
  without (map id older) (older ++ [k]) = [k].
Proof.
  intros Hnd. unfold without. rewrite filter_app.
  change (filter _ older) with (without (map id older) older).
  rewrite without_all. simpl.
  replace (existsb (String.eqb (id k)) (map id older)) with false;
    [reflexivity |].
  symmetry. apply not_true_is_false. intros Hex.
  apply existsb_exists in Hex. destruct Hex as (i & Hi & Heq).
  apply String.eqb_eq in Heq. subst i.
  rewrite map_app in Hnd. simpl in Hnd.
  apply NoDup_remove_2 in Hnd. apply Hnd. rewrite app_nil_r. exact Hi.
Qed.

Lemma NoDup_ids_filter (P : KeyRecord -> bool) s :
  NoDup (map id s) -> NoDup (map id (filter P s)).
Proof.
  induction s as [| k s IH]; intros Hnd; [constructor |].
  inversion Hnd as [| ? ? Hnotin Hrest]; subst. simpl.
  destruct (P k); [| apply IH, Hrest].
  simpl. constructor; [| apply IH, Hrest].
  intros Hin. apply Hnotin. apply in_map_iff in Hin.
  destruct Hin as (k' & Hid & Hk'). apply filter_In in Hk'.
  apply in_map_iff. exists k'. tauto.
Qed.

(** What the scan deletes of keys listed oldest first: all but the last. *)
Lemma doomed_older older k :
  Forall (fun x => truthy (id x) = true) older ->
  doomed "" (older ++ [k]) = map id older.
Proof.
  intros Hids. unfold doomed. rewrite map_app.
  change (map id [k]) with [id k].
  rewrite app_comm_cons, removelast_last. simpl.
  apply truthy_ids. exact Hids.
Qed.

Lemma filter_none_named n s :
  filter (named n) (filter (fun k => negb (named n k)) s) = [].
Proof.
  induction s as [| k s IH]; [reflexivity |].
  simpl. destruct (named n k) eqn:Hk; simpl; rewrite ?Hk; exact IH.
Qed.

(** Goes through the calls of a run for one that is there. *)
Ltac hunt H :=
  repeat first
    [ contradiction
    | discriminate H
    | progress (rewrite ?remote_app in H; simpl in H)
    | destruct H as [H | H]
    | apply in_app_or in H; destruct H as [H | H]
    | match type of H with
      | In _ (remote ?o) =>
          match goal with E : remote o = _ |- _ => rewrite E in H end
      end
    | match type of H with
      | In _ (deletions _ _) =>
          unfold deletions in H; apply in_flat_map in H;
          destruct H as (? & _ & H)
      end
    | match type of H with
      | In (Called _ _ _) ?rest =>
          match goal with
          | F : forall m u ok, In (Called m u ok) rest -> _ |- _ =>
              apply F in H; destruct H as (H & _)
          end
      end ].

Section WithPlatform.
Context {platform : Platform}.

(** Reading the newest key of a name prunes the name. A call of
    [getNewestKeyByName] that returns a payload, made while the keys of
    the name are listed oldest first and identifiers are unique and not
    empty, has deleted every key of the name but the last-listed one, and
    no key of another name. *)
Theorem reading_the_newest_prunes keyName w j w' o :
  getNewestKeyByName keyName w = (Ok (Parsed j), w', o) ->
  wellFormed (store w) ->
  ascending (Some 0) (filter (named keyName) (store w)) = true ->
  exists older k,
    filter (named keyName) (store w) = older ++ [k]
    /\ filter (named keyName) (store w') = [k]
    /\ filter (fun x => negb (named keyName x)) (store w')
       = filter (fun x => negb (named keyName x)) (store w)
    /\ remote o
       = Token true :: Called GET (base w) true
         :: deletions (keyProtectClient (keyProtectObj w) (bearer w))
                      (map id older)
         ++ [Called GET (target (keyProtectClient (keyProtectObj w) (bearer w))
                                (id k)) true].
Proof.
  intros H (Hnd & Hids) Hasc. unfold getNewestKeyByName in H. branches.
  all: repeat match goal with
         | H : parseKeyPayload _ _ = _ |- _ =>
             let Hr := fresh "Hr" in
             pose proof (KeyFrames.parseKeyPayload_same _ _ H); subst;
             apply Failures.parseKeyPayload_inv in H;
             destruct H as (_ & Hremp & v & Hr & _); settle Hr
         end.
  apply getNewestKeyIDByName_inv in Hrun0.
  destruct Hrun0 as (L & listing & rest & Hrem & HL & Hscan).
  destruct Hscan as [(Hr & Hst & ->) | (? & ? & ? & Hr & _)];
    [| discriminate Hr].
  injection Hr as Hkid.
  apply negb_false_iff in Heqb.
  apply exchange_answered in Hex. simpl in Hex.
  destruct Hex as (_ & _ & Hst3 & _).
  specialize (Hq (quiet_keyProtectClient _ _)).
  frames.
  assert (HLs : L = filter (named keyName) (store w) /\ listing = [Called GET (base w) true]).
  { destruct HL as [(-> & ->) | (-> & _)].
    - unfold base. split; congruence.
    - simpl in Hkid. subst a0. discriminate Heqb. }
  destruct HLs as (-> & ->).
  rewrite picks_ascending in Hkid, Hst, Hrem
    by (try apply named_filter; assumption).
  destruct (exists_last (l := filter (named keyName) (store w)))
    as (older & k & HL').
  { intros Hnil. rewrite Hnil in Hkid. simpl in Hkid. subst a0.
    discriminate Heqb. }
  assert (Hall : Forall (fun x => truthy (id x) = true)
                   (filter (named keyName) (store w))).
  { apply Forall_forall. intros x Hx. apply filter_In in Hx.
    rewrite Forall_forall in Hids. apply Hids, Hx. }
  assert (Hndf : NoDup (map id (older ++ [k]))).
  { rewrite <- HL'. apply NoDup_ids_filter, Hnd. }
  rewrite HL' in Hkid, Hst, Hrem, Hall.
  rewrite doomed_older in Hst, Hrem
    by (apply Forall_app in Hall; apply Hall).
  assert (Hk : a0 = id k).
  { transitivity (last (map id (older ++ [k])) "");
      [congruence | rewrite map_app; apply last_last]. }
  subst a0.
  assert (Hleft : store w3 = without (map id older) (store w)).
  { congruence. }
  exists older, k. split; [exact HL' |]. split.
  { rewrite Hleft, without_filter, HL'. apply without_older, Hndf. }
  split.
  { rewrite Hleft, without_filter. apply without_absent.
    intros x Hx Hin. apply filter_In in Hx. destruct Hx as (Hx & Hnot).
    apply in_map_iff in Hin. destruct Hin as (y & Hid & Hy).
    assert (Hyin : In y (filter (named keyName) (store w))).
    { rewrite HL'. apply in_or_app. left. exact Hy. }
    apply filter_In in Hyin. destruct Hyin as (Hyin & Hyn).
    assert (x = y) by (apply (@unique_by_id (store w)); auto).
    subst y. rewrite Hyn in Hnot. discriminate Hnot. }
  rewrite !remote_app, Hrem, Hq, Hremp. simpl.
  rewrite ?app_nil_r.
  replace (keyProtectObj w1) with (keyProtectObj w) by congruence.
  replace (bearer w1) with (bearer w) by congruence.
  rewrite ?Hk. reflexivity.
Qed.

(** [createKey] deletes before it creates, and does not undo. A call of
    [createKey] whose create request failed, having obtained the listing
    while the keys of the name were listed oldest first and identifiers
    were unique and not empty, throws and leaves no key of the name: the
    keys it found are deleted and none is created; the keys of other names
    are as before. *)
Theorem failed_create_loses_the_old_keys keyName keyPayload w e w' o :
  createKey keyName keyPayload w = (Throw e, w', o) ->
  (exists u, In (Called POST u false) o) ->
  In (Called GET (base w) true) o ->
  wellFormed (store w) ->
  ascending (Some 0) (filter (named keyName) (store w)) = true ->
  store w' = filter (fun k => negb (named keyName k)) (store w)
  /\ filter (named keyName) (store w') = [].
Proof.
  intros H (u & Hpost) Hgot Hwf Hasc.
  apply remote_In in Hpost; [| reflexivity].
  apply remote_In in Hgot; [| reflexivity].
  unfold createKey in H. branches.
  all: repeat match goal with
         | H : parseKeyID _ _ = _ |- _ =>
             apply parseKeyID_inv in H; destruct H as (-> & ? & ?)
         end.
  all: try match goal with
           | H : getNewestKeyIDByName _ _ _ = _ |- _ =>
               apply getNewestKeyIDByName_inv in H;
               destruct H as (L & listing & rest & Hrem & HL & Hscan)
           end.
  all: try match goal with
           | H : deleteKey _ _ = _ |- _ =>
               apply deleteKey_inv in H;
               destruct H as (Hc3 & Hb3 & Hs3 & Hdel)
           end.
  all: try match goal with
           | H : Throw _ = Ok _ |- _ => discriminate H
           end.
  all: try match goal with
           | Hscan : _ \/ (exists reason gone culprit, _) |- _ =>
               destruct Hscan as [(Hr & Hst & Hrest)
                                 | (reason & gone & culprit & Hr & _ & Hincl
                                    & Hst & Hcalls)];
               try discriminate Hr
           end.
  all: try match goal with
           | Hdel : _ \/ (exists reason, _) |- _ =>
               destruct Hdel as [(Hr3 & Hst3 & Hrem3)
                                | (reason3 & Hr3 & Hst3
                                   & [Hrem3 | [Hrem3 | Hrem3]])];
               try discriminate Hr3
           end.
  all: try match goal with
           | Hq : quiet _ -> remote _ = [] |- _ =>
               specialize (Hq (quiet_keyProtectClient _ _))
           end.
  all: try (destruct HL as [(HLs & Hlisting) | (HLs & [Hlisting | Hlisting])]).
  all: subst.
  all: hunt Hpost.
  all: try (exfalso; hunt Hgot; fail).
  all: clear Hgot Hpost.
  all: frames.
  all: replace (store w6) with (store w) in * by congruence.
  all: rewrite picks_ascending in *
    by (try apply named_filter; assumption).
  all: injection Hr as Hlast.
  all: assert (Hgone : store w0
                       = without (map id (filter (named keyName) (store w)))
                                 (store w)).
  - rewrite Hstore, Hst3, Hst, <- without_app.
    rewrite <- (wellFormed_named keyName Hwf).
    rewrite <- (doomed_and_last (filter (named keyName) (store w))).
    rewrite <- Hlast, Heqb1. reflexivity.
  - rewrite Hgone, without_named by apply Hwf.
    split; [reflexivity | apply filter_none_named].
  - rewrite Hstore, Hst.
    rewrite <- (wellFormed_named keyName Hwf).
    rewrite <- (doomed_and_last (filter (named keyName) (store w))).
    rewrite <- Hlast, Heqb1. rewrite app_nil_r. reflexivity.
  - rewrite Hgone, without_named by apply Hwf.
    split; [reflexivity | apply filter_none_named].
Qed.

(** A listing that fails makes [createKey] add a key beside the old ones.
    A call of [createKey] that returns although its listing call failed
    has found no key, deleted none, and created one: every key held
    before is still held, the keys of the name among them. *)
Theorem failed_listing_adds_a_duplicate keyName keyPayload w kid w' o :
  createKey keyName keyPayload w = (Ok kid, w', o) ->
  In (Called GET (base w) false) o ->
  exists t,
    store w'
    = store w ++ [{| id := kid; name := keyName; creationDate := Some t;
                     payload := Some (toBase64 (stringify keyPayload)) |}]
    /\ remote o = [Token true; Called GET (base w) false;
                   Called POST (base w) true].
Proof.
  intros H Hfailed. apply remote_In in Hfailed; [| reflexivity].
  apply createKey_ok in H.
  destruct H as (L & listing & t & HL & Hst & -> & Hrem).
  destruct HL as [(-> & ->) | (-> & Hl)].
  - exfalso. rewrite Hrem in Hfailed. hunt Hfailed.
  - simpl in Hst, Hrem. rewrite without_nil in Hst.
    exists t. split; [exact Hst |].
    destruct Hl as [-> | ->]; [| exact Hrem].
    exfalso. rewrite Hrem in Hfailed. hunt Hfailed.
Qed.

End WithPlatform.

Lemma reading_prunes_witness :
  let w := Demo.kpWorld Demo.kpConfig Samples.storedKeys [] in
  let run := getNewestKeyByName (platform := Samples.codec) "K" w in
  exists older k,
    filter (named "K") (store w) = older ++ [k]
    /\ filter (named "K") (store (snd (fst run))) = [k]
    /\ filter (fun x => negb (named "K" x)) (store (snd (fst run)))
       = filter (fun x => negb (named "K" x)) (store w)
    /\ remote (snd run)
       = Token true :: Called GET (base w) true
         :: deletions (keyProtectClient (keyProtectObj w) (bearer w))
                      (map id older)
         ++ [Called GET (target (keyProtectClient (keyProtectObj w) (bearer w))
                                (id k)) true].
Proof.
  set (w := Demo.kpWorld Demo.kpConfig Samples.storedKeys []).
  set (run := getNewestKeyByName (platform := Samples.codec) "K" w).
  apply (@reading_the_newest_prunes Samples.codec "K" w (JObj [])
           (snd (fst run)) (snd run)).
  - vm_compute. reflexivity.
  - split.
    + simpl. repeat constructor; simpl; intuition discriminate.
    + repeat constructor.
  - reflexivity.
Defined.

Lemma failed_create_witness :
  let w := Demo.kpWorld Demo.kpConfig Demo.ascendingKeys Samples.lostCreate in
  let run := createKey (platform := Demo.demo) "K" (JObj []) w in
  store (snd (fst run)) = [] /\ filter (named "K") (store (snd (fst run))) = [].
Proof.
  set (w := Demo.kpWorld Demo.kpConfig Demo.ascendingKeys Samples.lostCreate).
  set (run := createKey (platform := Demo.demo) "K" (JObj []) w).
  apply (@failed_create_loses_the_old_keys Demo.demo "K" (JObj []) w
           (Error "Failed to create key in KeyProtect: socket hang up")
           (snd (fst run)) (snd run)).
  - vm_compute. reflexivity.
  - exists "https://kp.example/api/v2/keys". vm_compute. tauto.
  - vm_compute. tauto.
  - split.
    + simpl. repeat constructor; simpl; intuition discriminate.
    + repeat constructor.
  - reflexivity.
Defined.

Lemma failed_listing_witness :
  let w := Demo.kpWorld Demo.kpConfig [Demo.key "a" 1] Samples.lostListing in
  let run := createKey (platform := Demo.demo) "K" (JObj []) w in
  exists t,
    store (snd (fst run))
    = store w ++ [{| id := "key-0"; name := "K"; creationDate := Some t;
                     payload := Some "base64({})" |}]
    /\ remote (snd run) = [Token true; Called GET (base w) false;
                           Called POST (base w) true].
Proof.
  set (w := Demo.kpWorld Demo.kpConfig [Demo.key "a" 1] Samples.lostListing).
  set (run := createKey (platform := Demo.demo) "K" (JObj []) w).
  apply (@failed_listing_adds_a_duplicate Demo.demo "K" (JObj []) w "key-0"
           (snd (fst run)) (snd run)).
  - vm_compute. reflexivity.
  - vm_compute. tauto.
Defined.

End KeyLosses.

(** ** app-id-helper.js: what a failed login throws, and what the user
    reconciliation lets through *)

Module LoginFailures.
Import JS Seen Net AppID Run AppIDFacts.
Local Open Scope js_scope.

Section WithPlatform.
Context {platform : Platform}.

(** What [loginAppID] makes of the failure [f] of its call. *)
Lemma request_failure client line m path w e w' o :
  raxConfig client = Some (appIdRaxConfig line) ->
  request client m path w = (Throw e, w', o) ->
  exists f wp,
    e = Rejected f /\ sameConfig w wp /\ exchange wp = (inr f, w')
    /\ remote o = [Called m (tpl [baseURL client; path]) false].
Proof.
  unfold request. intros -> H.
  apply RaxFacts.call_inv in H. destruct H as (x & o1 & Hs & Hx).
  pose proof (RaxFacts.send_last exchange sameConfig
                (appIdRaxConfig line) m (tpl [baseURL client; path])
                sameConfig_refl sameConfig_trans
                (fun w f w1 => @exchange_same w (inr f) w1) 0 w Hs)
    as (wp & Hsame & He).
  assert (Hrem : remote o1 = []).
  { eapply RaxFacts.send_remote; [| exact Hs]. intros n. reflexivity. }
  destruct Hx as [(a & _ & Hr & _) | (f & -> & Hr & ->)]; [discriminate Hr |].
  injection Hr as Hthrown. subst e. exists f, wp.
  split; [reflexivity |]. split; [assumption |]. split; [assumption |].
  rewrite remote_app, Hrem. reflexivity.
Qed.

(** What [loginAppID] throws when it fails. With a required field of the
    configuration missing, it throws its own error object with status 500
    and the message of the validation, and nothing was asked of the
    service. Otherwise the login call failed, and what is thrown follows
    the last failure of that call. When no response came back: the error
    object with status 500, the code and the message of the failure. When
    a response came back with a data that is neither [undefined] nor
    [null]: the error object with the status and the status text of the
    response and the [error_description] of its data, which may be
    undefined. When the data of the response is [undefined] or [null]:
    the [TypeError] of reading [error_description] of it, raised inside
    the catch block, and not the error object. *)
Theorem loginAppID_failure_by_cause username password w e w' o :
  loginAppID username password w = (Throw e, w', o) ->
  (exists v,
      missingVar (appIDObj w) = Some v
      /\ e = LoginError 500 None
               (Some (tpl ["Invalid AppID config: missing variable '"; v; "'"]))
      /\ w' = w /\ remote o = [])
  \/ (missingVar (appIDObj w) = None
      /\ remote o = [Called POST (loginUrl w) false]
      /\ exists f wp,
           sameConfig w wp /\ exchange wp = (inr f, w')
           /\ e = match response f with
                  | Some r =>
                      match data r with
                      | NoData =>
                          LoginError (status r) (Some (statusText r)) (Some "")
                      | Undefined => TypeError (cannotRead "undefined")
                      | Null => TypeError (cannotRead "null")
                      | JS.Body d =>
                          LoginError (status r) (Some (statusText r))
                            (error_description d)
                      end
                  | None => LoginError 500 (Some (code f)) (Some (message f))
                  end).
Proof.
  unfold loginAppID. intros H.
  repeat match goal with
         | H : validateConfig _ = _ |- _ =>
             apply appIdValidateConfig_inv in H;
             destruct H as (? & ? & [(Hr & Hmv) | (v & Hmv & Hr)]);
             settle Hr; subst
         | H : appIdLoginClient _ = _ |- _ =>
             apply appIdLoginClient_inv in H; destruct H as (Hr & ? & ?);
             settle Hr; subst
         | H : request _ _ _ _ = (Throw _, _, _) |- _ =>
             eapply request_failure in H; [| reflexivity];
             destruct H as (f & wp & ? & Hs & Hex & Hrem); subst
         | H : request _ _ _ _ = (Ok _, _, _) |- _ => clear H
         | H : bind _ _ _ = _ |- _ => step H
         | H : tryCatch _ _ _ = _ |- _ => step H
         | H : ret _ _ = _ |- _ => step H
         | H : throw _ _ = _ |- _ => step H
         | H : log _ _ _ = _ |- _ => step H
         | H : match ?x with _ => _ end _ = (_, _, _) |- _ => destruct x eqn:?
         end.
  all: try match goal with
           | H : responseOf (Error _) = Some _ |- _ => discriminate H
           end.
  all: rewrite ?remote_app, ?app_nil_r; simpl remote.
  all: first
         [ (* the validation threw *)
           left; eexists; split; [eassumption |];
           split; [reflexivity |]; split; reflexivity
         | (* the call failed *)
           right; split; [assumption |];
           split; [rewrite Hrem; reflexivity |];
           exists f, wp; split; [assumption |]; split; [assumption |];
           repeat match goal with
                  | H : responseOf (Rejected _) = _ |- _ => simpl in H; rewrite H
                  | H : data _ = _ |- _ => rewrite H
                  end; reflexivity ].
Qed.

Lemma activate_same username password w0 token w r w' o :
  activateNewUserProfile username password (mgmtClientOf w0 token) w
  = (r, w', o) ->
  sameConfig w w'.
Proof.
  unfold activateNewUserProfile. intros H. asteps.
  all: repeat match goal with
         | H : loginAppID _ _ _ = _ |- _ =>
             apply loginAppID_inv in H; destruct H as (? & _)
         end.
  all: first [ assumption | eapply sameConfig_trans; eassumption ].
Qed.

(** [existUserCheckFunc] catches whatever its steps throw. *)
Lemma existUserCheckFunc_returns username password w r w' o :
  existUserCheckFunc username password w = (r, w', o) ->
  sameConfig w w' /\ exists outcome, r = Ok outcome.
Proof.
  unfold existUserCheckFunc, appIdMgmtClient. intros H. asteps.
  all: repeat match goal with
         | H : loginAppID _ _ _ = _ |- _ =>
             apply loginAppID_inv in H; destruct H as (? & _)
         | H : getAllRolesIds _ _ = _ |- _ =>
             apply getAllRolesIds_inv in H; destruct H as (? & _)
         | H : createUserCloudDirectory _ _ _ _ = _ |- _ =>
             apply createUserCloudDirectory_inv in H; destruct H as (? & _)
         | H : activateNewUserProfile _ _ _ _ = _ |- _ =>
             apply activate_same in H
         | H : updateUserRoles _ _ _ _ = _ |- _ =>
             apply updateUserRoles_inv in H; destruct H as (? & _)
         | H : updateUserAttributes _ _ _ = _ |- _ =>
             apply updateUserAttributes_inv in H; destruct H as (? & _)
         end.
  all: split; [| eexists; reflexivity].
  all: sames; unfold sameConfig; repeat split; congruence.
Qed.

(** With a required field of the configuration missing, the first login
    and the preparation of the management client both stop at the
    validation. *)
Lemma existUserCheckFunc_unconfigured username password w v :
  missingVar (appIDObj w) = Some v ->
  exists e o,
    existUserCheckFunc username password w = (Ok (Some e), w, o)
    /\ remote o = [].
Proof.
  intros Hmv. do 2 eexists.
  unfold existUserCheckFunc, loginAppID, appIdMgmtClient, bind, tryCatch,
    validateConfig, log, ret, throw, get.
  rewrite Hmv. simpl. rewrite ?Hmv. simpl. split; reflexivity.
Qed.

(** [existUserCheck] never raises: whatever the configuration and whatever
    the services answer, it returns, having left the configuration of the
    module as it was; a failure is only logged. With a required field of
    the configuration missing it returns after an error line in the log,
    without having asked anything of a remote service. *)
Theorem existUserCheck_never_raises username password w :
  exists w' o,
    existUserCheck username password w = (Ok tt, w', o)
    /\ sameConfig w w'
    /\ (missingVar (appIDObj w) <> None ->
        w' = w /\ remote o = [] /\ exists msg, In (Log LError msg) o).
Proof.
  destruct (existUserCheckFunc username password w) as [[r w1] o1] eqn:H.
  destruct (existUserCheckFunc_returns _ _ _ H) as (Hs & outcome & ->).
  exists w1,
    (o1 ++ [match outcome with
            | Some e =>
                Log LError (tpl ["Login was not successful! "; messageOf e])
            | None => Log LInfo "Login was successful!"
            end]).
  split; [| split; [exact Hs |]].
  - unfold existUserCheck, bind. rewrite H.
    destruct outcome; unfold log; reflexivity.
  - intros Hmv. destruct (missingVar (appIDObj w)) as [v |] eqn:Hv;
      [| contradiction].
    destruct (existUserCheckFunc_unconfigured username password w Hv)
      as (e & o' & He & Hrem).
    rewrite He in H. injection H as H1 H2 H3. subst.
    split; [reflexivity |]. rewrite remote_app, Hrem.
    split; [reflexivity |]. eexists. apply in_or_app. right. left. reflexivity.
Qed.

End WithPlatform.

(** A login refused with a description of the error; and a login refused
    with a response whose data is [null]. *)
Lemma loginAppID_failure_witness :
  let w := Demo.appWorld [Net.Refused Samples.unauthorized] in
  let run := loginAppID (platform := Demo.demo) "a@b.com" "pw" w in
  (fst (fst run)
   = Throw (LoginError 401 (Some "Unauthorized")
              (Some "The user credentials are wrong"))
   /\ remote (snd run) = [Called POST (loginUrl w) false])
  /\ fst (fst (loginAppID (platform := Demo.demo) "a@b.com" "pw"
                 (Demo.appWorld [Net.Refused Samples.nullData])))
     = Throw (TypeError
                "Cannot read properties of null (reading 'error_description')").
Proof.
  set (w := Demo.appWorld [Net.Refused Samples.unauthorized]).
  set (run := loginAppID (platform := Demo.demo) "a@b.com" "pw" w).
  split; [| vm_compute; reflexivity].
  split; [vm_compute; reflexivity |].
  destruct (@loginAppID_failure_by_cause Demo.demo "a@b.com" "pw" w
              (LoginError 401 (Some "Unauthorized")
                 (Some "The user credentials are wrong"))
              (snd (fst run)) (snd run))
    as [(v & Hv & _) | (_ & Hrem & _)].
  - vm_compute. reflexivity.
  - vm_compute in Hv. discriminate Hv.
  - exact Hrem.
Defined.

End LoginFailures.

(** ** cloudant-helper.js: the connection, and the databases made over it *)

Module ConnectionFacts.
Import JS Seen Net Cloudant Run CloudantFacts.
Local Open Scope js_scope.

Section WithPlatform.
Context {platform : Platform}.

(** A connection an object holds stays through any call of a program. *)
Lemma perform_keeps op w r w' o l s :
  perform op w = (r, w', o) ->
  cloudantOf w l = Some s -> cloudantOf w' l = Some s.
Proof.
  intros H Hc. destruct op as [d | this | this]; simpl in H.
  - (* getInstance *)
    assert (Hg : exists r0 o0, getInstance d w = (r0, w', o0)).
    { step H; eauto. step Hrun0. eauto. }
    destruct Hg as (r0 & o0 & Hg).
    destruct d as [d |];
      [| rewrite getInstance_nullish in Hg; inversion Hg; subst; exact Hc].
    unfold getInstance in Hg. simpl in Hg.
    destruct (instance w) as [l0 |].
    + destruct (cloudantOf _ l0); inversion Hg; subst; exact Hc.
    + inversion Hg; subst. unfold cloudantOf in *. simpl.
      destruct (nth_error (heap w) l) as [h |] eqn:Hn; [| discriminate Hc].
      rewrite nth_error_app1 by (apply nth_error_Some; congruence).
      rewrite Hn. exact Hc.
  - (* setupCloudant *)
    assert (Hs : exists r0 o0, setupCloudant this w = (r0, w', o0)).
    { step H; eauto. step Hrun0. eauto. }
    destruct Hs as (r0 & o0 & Hs).
    destruct (Nat.eq_dec l this) as [-> | Hne].
    + unfold setupCloudant in Hs. step Hs; [| step Hrun; congruence].
      step Hrun. rewrite Hc in Hrun0. step Hrun0. exact Hc.
    + apply setupCloudant_inv in Hs. destruct Hs as (_ & _ & _ & Hother & _).
      rewrite Hother by assumption. exact Hc.
  - (* pingCloudant *)
    destruct (pingCloudant_inv this w)
      as (b & w1 & o1 & Hp & _ & _ & Hheap & _).
    unfold bind in H. rewrite Hp in H. simpl in H. inversion H; subst.
    unfold cloudantOf in *. rewrite Hheap. exact Hc.
Qed.

(** Once a helper object holds a connection, nothing a program calls
    replaces it: whatever configuration later [getInstance] calls pass and
    however often [setupCloudant] is called again, the object keeps the
    credentials and the URL of its first successful set-up. *)
Theorem connection_is_never_replaced ops w this s :
  cloudantOf w this = Some s ->
  cloudantOf (snd (session ops w)) this = Some s.
Proof.
  revert w. induction ops as [| op rest IH]; intros w Hc; [exact Hc |].
  simpl. destruct (perform op w) as [[r w1] o] eqn:Hp.
  destruct (session rest w1) as [h w2] eqn:Hs. simpl.
  change w2 with (snd (h, w2)). rewrite <- Hs.
  apply IH. eapply perform_keeps; eassumption.
Qed.

Lemma nth_error_setNth_same (l : list Helper) this x :
  (this < List.length l)%nat -> nth_error (setNth l this x) this = Some x.
Proof.
  revert this. induction l as [| h l IH]; intros this Hlt;
    [simpl in Hlt; lia |].
  destruct this as [| k]; simpl; [reflexivity |].
  apply IH. simpl in Hlt. lia.
Qed.

Lemma truthyStr_inv o : truthyStr o = true -> exists s, o = Some s.
Proof. destruct o as [s |]; [eauto | discriminate]. Qed.

(** The service [initCloudant] builds from a connection. *)
Lemma initCloudant_ok w a w0 o d c :
  initCloudant w = (Ok a, w0, o) ->
  cloudantObj w = Some d -> connection d = Some c ->
  (truthyStr (account c) && truthyStr (iamApiKey c) = true ->
   exists key,
     iamApiKey c = Some key
     /\ a = {| authenticator := IamAuthenticator key; serviceUrl := url c |})
  /\ (truthyStr (account c) && truthyStr (iamApiKey c) = false ->
      exists u p,
        username c = Some u /\ password c = Some p
        /\ truthyStr (url c) = true
        /\ a = {| authenticator := BasicAuthenticator u p;
                  serviceUrl := if truthyStr (proxyUrl c) then proxyUrl c
                                else url c |}).
Proof.
  unfold initCloudant. intros H Hd Hc. step H. step Hrun.
  rewrite Hd, Hc in Hrun0.
  destruct (truthyStr (account c) && truthyStr (iamApiKey c)) eqn:Hiam.
  - split; [intros _ | discriminate].
    apply andb_prop in Hiam. destruct Hiam as (_ & Hk).
    apply truthyStr_inv in Hk. destruct Hk as (key & Hk).
    exists key. split; [assumption |].
    rewrite Hk in Hrun0. simpl in Hrun0. unfold newIam in Hrun0.
    csteps. reflexivity.
  - split; [discriminate | intros _].
    destruct (truthyStr (url c) && truthyStr (username c)
              && truthyStr (password c)) eqn:Hleg; [| csteps].
    apply andb_prop in Hleg. destruct Hleg as (Hleg & Hp).
    apply andb_prop in Hleg. destruct Hleg as (Hu & Hn).
    apply truthyStr_inv in Hn. destruct Hn as (u & Hn).
    apply truthyStr_inv in Hp. destruct Hp as (p & Hp).
    exists u, p. split; [assumption |]. split; [assumption |].
    split; [assumption |].
    rewrite Hn, Hp in Hrun0. simpl in Hrun0. unfold newBasic in Hrun0.
    csteps; reflexivity.
Qed.

(** A first [setupCloudant] that succeeds chooses the credentials as
    follows. With [account] and [iamApiKey] both set the connection
    authenticates with the IAM key and goes to [url], whatever [username],
    [password] and [proxyUrl] hold. Otherwise [url], [username] and
    [password] are all set, and the connection authenticates with them
    and goes to [proxyUrl] when that is set, to [url] when not. *)
Theorem setupCloudant_selects_credentials this w w' o d c :
  setupCloudant this w = (Ok tt, w', o) ->
  cloudantObj w = Some d -> connection d = Some c ->
  cloudantOf w this = None -> (this < List.length (heap w))%nat ->
  (truthyStr (account c) && truthyStr (iamApiKey c) = true ->
   exists key,
     iamApiKey c = Some key
     /\ cloudantOf w' this
        = Some {| authenticator := IamAuthenticator key;
                  serviceUrl := url c |})
  /\ (truthyStr (account c) && truthyStr (iamApiKey c) = false ->
      exists u p,
        username c = Some u /\ password c = Some p
        /\ truthyStr (url c) = true
        /\ cloudantOf w' this
           = Some {| authenticator := BasicAuthenticator u p;
                     serviceUrl := if truthyStr (proxyUrl c) then proxyUrl c
                                   else url c |}).
Proof.
  intros H Hd Hcon Hnone Hlt.
  unfold setupCloudant in H. step H. step Hrun. rewrite Hnone in Hrun0.
  step Hrun0; [| csteps].
  step Hrun.
  pose proof (initCloudant_inv _ Hrun0) as ->.
  pose proof (initCloudant_ok _ Hrun0 Hd Hcon) as (Hiam & Hleg).
  injection Hrun1 as <- _. unfold cloudantOf. simpl.
  rewrite nth_error_setNth_same by assumption. simpl.
  split; intros Hb.
  - destruct (Hiam Hb) as (key & Hk & ->). eauto.
  - destruct (Hleg Hb) as (u & p & Hu & Hp & Hurl & ->). eauto 10.
Qed.

(** After a failed set-up the instance can still be recovered by a caller
    that kept the object: while the instance holds no connection,
    [getInstance] passed a configuration object throws its status-500
    object, yet stores that configuration; a [setupCloudant] on the object
    then connects with it; and from then on, whatever the program calls
    in between, [getInstance] returns the object for every configuration
    object it is passed. *)
Theorem recovery_needs_the_object this w d c key :
  instance w = Some this -> cloudantOf w this = None ->
  (this < List.length (heap w))%nat ->
  connection d = Some c ->
  truthyStr (account c) = true -> iamApiKey c = Some key ->
  truthy key = true -> badCredential key = false ->
  exists w1 o1 w2 o2,
    getInstance (Some d) w = (Throw (Status500 notInitialized), w1, o1)
    /\ setupCloudant this w1 = (Ok tt, w2, o2)
    /\ cloudantOf w2 this
       = Some {| authenticator := IamAuthenticator key; serviceUrl := url c |}
    /\ forall ops d',
         exists w4,
           getInstance (Some d') (snd (session ops w2)) = (Ok this, w4, []).
Proof.
  intros Hi Hnone Hlt Hcon Hacc Hkey Htk Hgood.
  do 4 eexists. split; [eapply getInstance_trapdoor; eassumption |].
  assert (Hsetup :
            setupCloudant this
              {| cloudantObj := Some d; instance := instance w;
                 heap := heap w; net := net w |}
            = (Ok tt,
               {| cloudantObj := Some d; instance := instance w;
                  heap := setNth (heap w) this
                            {| cloudant :=
                                 Some {| authenticator := IamAuthenticator key;
                                         serviceUrl := url c |} |};
                  net := net w |},
               [Log LInfo "Use IAM auth for DB connection"])).
  { unfold setupCloudant, bind, get, tryCatch, initCloudant.
    change (cloudantOf {| cloudantObj := Some d; instance := instance w;
                          heap := heap w; net := net w |} this)
      with (cloudantOf w this).
    rewrite Hnone. cbn [cloudantObj]. unfold bind, get, log. cbn [cloudantObj].
    rewrite Hcon. cbn iota beta. rewrite Hacc, Hkey. cbn [truthyStr andb].
    rewrite Htk. unfold newIam. cbn [Rax.orDefault]. rewrite Hgood.
    reflexivity. }
  split; [exact Hsetup |].
  set (s := {| authenticator := IamAuthenticator key; serviceUrl := url c |}).
  set (w2 := {| cloudantObj := Some d; instance := instance w;
                heap := setNth (heap w) this {| cloudant := Some s |};
                net := net w |}).
  assert (Hc : cloudantOf w2 this = Some s).
  { unfold cloudantOf, w2. simpl.
    rewrite nth_error_setNth_same by assumption. reflexivity. }
  split; [exact Hc |].
  intros ops d'.
  destruct (session ops w2) as [h w3] eqn:Hs. cbn [snd].
  assert (Hkeep : forall ops0 w0 h0 w',
             session ops0 w0 = (h0, w') ->
             cloudantOf w0 this = Some s -> cloudantOf w' this = Some s).
  { induction ops0 as [| op rest IH]; intros w0 h0 w' H0 Hc0; simpl in H0.
    - inversion H0; subst. exact Hc0.
    - destruct (perform op w0) as [[r wa] oa] eqn:Hp.
      destruct (session rest wa) as [hb wb] eqn:Hr.
      inversion H0; subst.
      eapply IH; [eassumption |]. eapply perform_keeps; eassumption. }
  apply session_inv in Hs as Hinv.
  2:{ intros l Hl. unfold w2 in *. simpl in *. rewrite length_setNth.
      congruence. }
  destruct Hinv as (_ & Hstay & _).
  eexists. eapply getInstance_again.
  - apply Hstay. exact Hi.
  - eapply Hkeep; eassumption.
Qed.

End WithPlatform.

Lemma connection_witness :
  cloudantOf
    (snd (session (platform := Demo.demo)
            [CallGetInstance (Some Samples.legacyConfig); CallSetup 0;
             CallGetInstance None; CallPing 0]
            (Demo.dbReady [])))
    0
  = Some {| authenticator := IamAuthenticator "key";
            serviceUrl := Some "https://db.example" |}.
Proof.
  apply (@connection_is_never_replaced Demo.demo). reflexivity.
Defined.

Lemma setupCloudant_witness :
  cloudantOf (snd (fst (setupCloudant (platform := Demo.demo) 0 Samples.dbFresh))) 0
  = Some {| authenticator := IamAuthenticator "key";
            serviceUrl := Some "https://db.example" |}.
Proof.
  set (run := setupCloudant (platform := Demo.demo) 0 Samples.dbFresh).
  destruct (@setupCloudant_selects_credentials Demo.demo 0 Samples.dbFresh
              (snd (fst run)) (snd run) Demo.dbConfig
              {| account := Some "acct"; iamApiKey := Some "key";
                 url := Some "https://db.example";
                 username := None; password := None;
                 proxyUrl := None; timeout := Some 5000 |})
    as (Hiam & _).
  - vm_compute. reflexivity.
  - reflexivity.
  - reflexivity.
  - reflexivity.
  - vm_compute. lia.
  - destruct (Hiam eq_refl) as (key & Hkey & Hc).
    injection Hkey as <-. exact Hc.
Defined.

Lemma recovery_witness :
  exists w1 o1 w2 o2,
    getInstance (Some Demo.dbConfig) Samples.dbFresh
    = (Throw (Status500 notInitialized), w1, o1)
    /\ setupCloudant (platform := Demo.demo) 0 w1 = (Ok tt, w2, o2)
    /\ cloudantOf w2 0
       = Some {| authenticator := IamAuthenticator "key";
                 serviceUrl := Some "https://db.example" |}
    /\ forall ops d',
         exists w4,
           getInstance (Some d') (snd (session (platform := Demo.demo) ops w2))
           = (Ok 0%nat, w4, []).
Proof.
  apply (@recovery_needs_the_object Demo.demo 0 Samples.dbFresh Demo.dbConfig
           {| account := Some "acct"; iamApiKey := Some "key";
              url := Some "https://db.example";
              username := None; password := None;
              proxyUrl := None; timeout := Some 5000 |} "key");
    try reflexivity.
  vm_compute. lia.
Defined.

End ConnectionFacts.

(** ** cloudant-helper.js: creating and deleting databases *)

Module DatabaseFacts.
Import JS Seen Net Cloudant Databases Run CloudantFacts.
Local Open Scope js_scope.

Lemma sameObjects_refl w : sameObjects w w.
Proof. unfold sameObjects. auto. Qed.

Lemma sameObjects_trans w1 w2 w3 :
  sameObjects w1 w2 -> sameObjects w2 w3 -> sameObjects w1 w3.
Proof.
  unfold sameObjects. intros (a & b & c) (a' & b' & c').
  repeat split; congruence.
Qed.

Lemma address_same w w' this path :
  sameObjects w w' -> address w' this path = address w this path.
Proof.
  intros (_ & _ & Hh). unfold address, cloudantOf. rewrite Hh. reflexivity.
Qed.

Lemma cloudantOf_same w w' this :
  sameObjects w w' -> cloudantOf w' this = cloudantOf w this.
Proof. intros (_ & _ & Hh). unfold cloudantOf. rewrite Hh. reflexivity. Qed.

(** A call of the SDK, settled. *)
Lemma sdk_inv this method m path w r w' o :
  sdk this method m path w = (r, w', o) ->
  sameObjects w w'
  /\ ((exists msg, r = Throw (TypeError msg) /\ remote o = []
                   /\ cloudantOf w this = None)
      \/ (r = Ok tt /\ remote o = [Called m (address w this path) true]
          /\ cloudantOf w this <> None)
      \/ (exists f, r = Throw (Rejected f)
                    /\ remote o = [Called m (address w this path) false]
                    /\ cloudantOf w this <> None)).
Proof.
  unfold sdk, address. intros H. step H; [| step Hrun]. step Hrun.
  destruct (cloudantOf w this) as [service |].
  - apply direct_inv in Hrun0.
    destruct Hrun0 as (Ho & Hi & Hh & [(a & -> & ->) | (f & -> & ->)]).
    + split; [unfold sameObjects; auto |]. right. left. destruct a.
      repeat split; discriminate.
    + split; [unfold sameObjects; auto |]. right. right. exists f.
      repeat split; discriminate.
  - step Hrun0. split; [apply sameObjects_refl |]. left. eauto.
Qed.

Ltac sdks :=
  repeat match goal with
         | H : sdk _ _ _ _ _ = _ |- _ =>
             let Hs := fresh "Hs" in let Hr := fresh "Hr" in
             let Hrem := fresh "Hrem" in let Hc := fresh "Hc" in
             apply sdk_inv in H;
             destruct H as (Hs & [(? & Hr & Hrem & Hc)
                                 | [(Hr & Hrem & Hc) | (? & Hr & Hrem & Hc)]]);
             settle Hr
         | H : bind _ _ _ = _ |- _ => step H
         | H : tryCatch _ _ _ = _ |- _ => step H
         | H : ret _ _ = _ |- _ => step H
         | H : throw _ _ = _ |- _ => step H
         | H : log _ _ _ = _ |- _ => step H
         | H : get _ = _ |- _ => step H
         end.

(** An object that answered a call holds a connection at every later
    call. *)
Ltac connected :=
  try (exfalso;
       repeat match goal with
              | Hs : sameObjects _ ?x, H : cloudantOf ?x _ = None |- _ =>
                  rewrite (cloudantOf_same _ Hs) in H
              | Hs : sameObjects _ ?x, H : cloudantOf ?x _ <> None |- _ =>
                  rewrite (cloudantOf_same _ Hs) in H
              end;
       congruence).

Ltac objects :=
  first [ assumption | apply sameObjects_refl
        | eapply sameObjects_trans; eassumption
        | eapply sameObjects_trans;
          [eassumption | eapply sameObjects_trans; eassumption] ].

Section WithPlatform.
Context {platform : Platform}.

(** [deleteDB] looks the database up before it deletes it: the delete
    request is sent only after the look-up has succeeded, and whatever
    fails is thrown on to the caller. *)
Theorem deleteDB_looks_up_first this db w :
  let '(r, w', o) := deleteDB this db w in
  let found := Called GET (address w this (tpl ["/"; db])) in
  let deleted := Called DELETE (address w this (tpl ["/"; db])) in
  sameObjects w w'
  /\ ((r = Ok tt /\ remote o = [found true; deleted true])
      \/ (exists e,
             r = Throw e
             /\ (remote o = [] \/ remote o = [found false]
                 \/ remote o = [found true; deleted false]))).
Proof.
  destruct (deleteDB this db w) as [[r w'] o] eqn:H.
  unfold deleteDB in H. sdks.
  all: connected.
  all: simpl; split; [objects |].
  all: rewrite ?remote_app; simpl remote;
    repeat match goal with
           | H : remote _ = _ |- _ => rewrite H
           end;
    repeat match goal with
           | Hs : sameObjects _ ?x |- context [address ?x _ _] =>
               rewrite (address_same _ _ Hs)
           end; simpl.
  all: first [ left; split; reflexivity
             | right; eexists; split; [reflexivity |]; auto ].
Qed.

(** *** Creating a database with its indexes *)

Lemma createIndex_inv this db params w r w' o :
  createIndex this db params w = (r, w', o) ->
  r = Ok tt /\ sameObjects w w'
  /\ (remote o = []
      \/ exists ok, remote o
                    = [Called POST (address w this (tpl ["/"; db; "/_index"])) ok]).
Proof.
  unfold createIndex. intros H. sdks.
  all: split; [reflexivity |]; split; [objects |].
  all: rewrite ?remote_app; simpl remote;
    repeat match goal with
           | H : remote _ = _ |- _ => rewrite H
           end; simpl; eauto.
Qed.

Lemma createDesignDocument_inv this db payload w r w' o :
  createDesignDocument this db payload w = (r, w', o) ->
  let put := Called PUT (address w this
                           (tpl ["/"; db; "/_design/"; ddocOf payload])) in
  sameObjects w w'
  /\ ((r = Ok tt /\ remote o = [put true])
      \/ (exists msg, r = Throw (TypeError msg) /\ remote o = [])
      \/ (exists f, r = Throw (Rejected f) /\ remote o = [put false])).
Proof.
  unfold createDesignDocument. intros H. sdks.
  all: simpl; split; [objects |].
  all: rewrite ?remote_app; simpl remote;
    repeat match goal with
           | H : remote _ = _ |- _ => rewrite H
           end; simpl; eauto 6.
Qed.

Lemma objectKeys_inv x w r w' o :
  objectKeys x w = (r, w', o) ->
  w' = w /\ o = []
  /\ ((exists msg, r = Throw (TypeError msg) /\ indexPayload x = false)
      \/ exists keys,
           r = Ok keys
           /\ (indexPayload x = true ->
               exists first rest,
                 keys = first :: rest /\ String.eqb first "index" = true)).
Proof.
  destruct x as [| | | | | l]; simpl; intros H; step H;
    (split; [reflexivity |]); (split; [reflexivity |]);
    try (left; eexists; split; reflexivity);
    right; eexists; (split; [reflexivity |]); try discriminate.
  destruct l as [| [first v] rest]; [discriminate |].
  simpl. intros Hfirst. eauto.
Qed.

(** What [createDB] does with one payload, its keys being [keys]. *)
Lemma payload_inv this db p keys w r w' o :
  match keys with
  | first :: _ =>
      if String.eqb first "index" then createIndex this db p
      else createDesignDocument this db p
  | [] => createDesignDocument this db p
  end w = (r, w', o) ->
  sameObjects w w'
  /\ ((r = Ok tt /\ ~ failedPut (remote o))
      \/ (exists msg, r = Throw (TypeError msg) /\ remote o = [])
      \/ (exists f u, r = Throw (Rejected f)
                      /\ remote o = [Called PUT u false]))
  /\ ((exists first rest, keys = first :: rest
                          /\ String.eqb first "index" = true) ->
      r = Ok tt).
Proof.
  intros H.
  assert (Hdesign : forall r w' o,
             createDesignDocument this db p w = (r, w', o) ->
             sameObjects w w'
             /\ ((r = Ok tt /\ ~ failedPut (remote o))
                 \/ (exists msg, r = Throw (TypeError msg) /\ remote o = [])
                 \/ (exists f u, r = Throw (Rejected f)
                                 /\ remote o = [Called PUT u false]))).
  { intros r1 w1 o1 H1. apply createDesignDocument_inv in H1. simpl in H1.
    destruct H1 as (Hs & [(-> & ->) | [(msg & -> & ->) | (f & -> & ->)]]);
      (split; [assumption |]).
    - left. split; [reflexivity |]. intros (u & [Hu | []]). discriminate Hu.
    - right. left. eauto.
    - right. right. eauto. }
  destruct keys as [| first keys].
  - destruct (Hdesign _ _ _ H) as (Hs & Hcases).
    split; [assumption |]. split; [assumption |].
    intros (? & ? & Habs & _). discriminate Habs.
  - destruct (String.eqb first "index") eqn:Hfirst.
    + apply createIndex_inv in H.
      destruct H as (-> & Hs & Hrem). split; [assumption |].
      split; [| reflexivity]. left. split; [reflexivity |].
      destruct Hrem as [-> | (ok & ->)]; intros (u & Hin);
        [destruct Hin | destruct Hin as [Hu | []]; discriminate Hu].
    + destruct (Hdesign _ _ _ H) as (Hs & Hcases).
      split; [assumption |]. split; [assumption |].
      intros (f1 & r1 & Heq & Hidx). injection Heq as <- _. congruence.
Qed.

Lemma failedPut_app a b : failedPut (a ++ b) <-> failedPut a \/ failedPut b.
Proof.
  unfold failedPut. split.
  - intros (u & Hin). apply in_app_or in Hin. destruct Hin; eauto.
  - intros [(u & Hin) | (u & Hin)]; exists u; apply in_or_app; auto.
Qed.

(** The loop of [createDB]: a failed index request does not stop it, a
    failed design-document request does. *)
Lemma eachPayload_inv this db l :
  forall w r w' o,
    eachPayload this db l w = (r, w', o) ->
    sameObjects w w'
    /\ (r = Ok tt -> ~ failedPut (remote o))
    /\ (forall e,
           r = Throw e ->
           (exists msg, e = TypeError msg)
           \/ (exists f pre u,
                  e = Rejected f
                  /\ remote o = pre ++ [Called PUT u false]
                  /\ ~ failedPut pre))
    /\ (Forall (fun p => indexPayload p = true) l -> r = Ok tt).
Proof.
  induction l as [| p rest IH]; intros w r w' o H.
  - simpl in H. step H. split; [apply sameObjects_refl |].
    split; [intros _ (u & []) |]. split; [discriminate | reflexivity].
  - simpl in H. apply bind_inv in H.
    destruct H as [(keys & wk & ok & o2 & Hkeys & H & ->) | (e & Hkeys & ->)].
    + apply objectKeys_inv in Hkeys. destruct Hkeys as (-> & -> & Hk).
      assert (Hfirst : indexPayload p = true ->
                       exists first rest,
                         keys = first :: rest
                         /\ String.eqb first "index" = true).
      { destruct Hk as [(? & Hr & _) | (keys' & Hr & Hfirst)];
          [discriminate Hr |].
        injection Hr as ->. exact Hfirst. }
      clear Hk. apply bind_inv in H.
      destruct H as [(u0 & w1 & o1 & o3 & Hp & Hrest & ->) | (e & Hp & ->)].
      * (* the payload was handled, the loop goes on *)
        apply payload_inv in Hp. destruct Hp as (Hs1 & Hcase & _).
        destruct Hcase as [(_ & Hput1) | [(? & Hr & _) | (? & ? & Hr & _)]];
          try discriminate Hr.
        apply IH in Hrest. destruct Hrest as (Hs2 & Hok & Hthrow & Hall).
        split; [eapply sameObjects_trans; eassumption |].
        simpl app. rewrite remote_app.
        split.
        { intros Hr Hf. apply failedPut_app in Hf.
          destruct Hf; [auto | apply (Hok Hr); assumption]. }
        split.
        { intros e He. destruct (Hthrow e He)
            as [Hty | (f & pre & u & -> & Hrem & Hpre)]; [left; exact Hty |].
          right. exists f, (remote o1 ++ pre), u. split; [reflexivity |].
          split; [rewrite Hrem, app_assoc; reflexivity |].
          intros Hf. apply failedPut_app in Hf. destruct Hf; auto. }
        intros Hall'. inversion Hall'; subst. auto.
      * (* handling the payload threw: the loop ends here *)
        pose proof (payload_inv _ _ _ _ _ Hp) as (Hs1 & Hcase & Hidx).
        split; [assumption |]. split; [discriminate |].
        simpl app. split.
        { intros e' He'. injection He' as <-.
          destruct Hcase as [(Hr & _) | [(msg & Hr & _) | (f & u & Hr & Hrem)]];
            [discriminate Hr | left | right];
            injection Hr as ->; [eauto |].
          exists f, [], u. split; [reflexivity |]. split; [exact Hrem |].
          intros (u' & []). }
        intros Hall'. inversion Hall' as [| ? ? Hip _]; subst.
        specialize (Hidx (Hfirst Hip)). discriminate Hidx.
    + (* reading the keys threw *)
      apply objectKeys_inv in Hkeys. destruct Hkeys as (-> & -> & Hk).
      destruct Hk as [(msg & Hk & Hnot) | (keys & Hk & _)]; [| discriminate Hk].
      injection Hk as ->.
      split; [apply sameObjects_refl |]. split; [discriminate |].
      split; [intros e He; injection He as <-; left; eauto |].
      intros Hall. inversion Hall as [| ? ? Hp _]; subst. congruence.
Qed.

Lemma createDB_inv this db indexes w r w' o :
  createDB this db indexes w = (r, w', o) ->
  let created := Called PUT (address w this (tpl ["/"; db; "?partitioned=true"])) in
  sameObjects w w'
  /\ (r = Ok tt ->
      exists calls, remote o = created true :: calls /\ ~ failedPut calls)
  /\ (forall e,
         r = Throw e ->
         (exists msg, e = TypeError msg)
         \/ (exists f pre u,
                e = Rejected f
                /\ remote o = pre ++ [Called PUT u false]
                /\ ~ failedPut pre))
  /\ (forall l,
         indexes = JArr l -> Forall (fun p => indexPayload p = true) l ->
         In (created true) (remote o) -> r = Ok tt).
Proof.
  unfold createDB. intros H. simpl.
  apply tryCatch_inv in H.
  destruct H as [(u0 & H & ->) | (e & w1 & o1 & o2 & H & Hh & ->)].
  - (* the guarded block ran to its end *)
    apply bind_inv in H.
    destruct H as [(u1 & w1 & o1 & o2 & Hput & H & ->) | (? & _ & Hr)];
      [| discriminate Hr].
    apply sdk_inv in Hput.
    destruct Hput as (Hs1 & [(? & Hr & _) | [(_ & Hrem1 & _) | (? & Hr & _)]]);
      try discriminate Hr.
    apply bind_inv in H.
    destruct H as [(u2 & w2 & o3 & o4 & Hlog & H & ->) | (? & _ & Hr)];
      [| discriminate Hr].
    apply log_inv in Hlog. destruct Hlog as (_ & -> & ->).
    assert (Hloop : sameObjects w1 w' /\ ~ failedPut (remote o4)).
    { destruct indexes as [| | | | [| first rest] |];
        try (apply ret_inv in H; destruct H as (_ & -> & ->);
             split; [apply sameObjects_refl | intros (u & [])]).
      apply eachPayload_inv in H. destruct H as (Hs & Hok & _).
      split; [assumption | apply Hok; destruct u0; reflexivity]. }
    destruct Hloop as (Hs2 & Hput2).
    split; [eapply sameObjects_trans; eassumption |].
    rewrite !remote_app, Hrem1. simpl.
    split; [intros _; eauto |]. split; [discriminate |].
    intros; destruct u0; reflexivity.
  - (* it threw, the handler logged and threw on *)
    apply bind_inv in Hh.
    destruct Hh as [(u1 & w2 & o3 & o4 & Hlog & Hh & ->) | (? & Hlog & _)];
      [| apply log_inv in Hlog; destruct Hlog as (Hr & _); discriminate Hr].
    apply log_inv in Hlog. destruct Hlog as (_ & -> & ->).
    apply throw_inv in Hh. destruct Hh as (-> & -> & ->).
    apply bind_inv in H.
    destruct H as [(u2 & w2 & o5 & o6 & Hput & H & ->) | (e' & Hput & He)].
    + (* the database was created *)
      apply sdk_inv in Hput.
      destruct Hput as (Hs1 & [(? & Hr & _) | [(_ & Hrem1 & _) | (? & Hr & _)]]);
        try discriminate Hr.
      apply bind_inv in H.
      destruct H as [(u3 & w3 & o7 & o8 & Hlog & H & ->) | (? & Hlog & _)];
        [| apply log_inv in Hlog; destruct Hlog as (Hr & _); discriminate Hr].
      apply log_inv in Hlog. destruct Hlog as (_ & -> & ->).
      destruct indexes as [| | | | [| first rest] |];
        try (apply ret_inv in H; destruct H as (Hr & _); discriminate Hr).
      apply eachPayload_inv in H. destruct H as (Hs2 & _ & Hthrow & Hall).
      split; [eapply sameObjects_trans; eassumption |].
      split; [discriminate |].
      rewrite !remote_app, Hrem1. simpl remote. rewrite !app_nil_r.
      split.
      * intros e0 He0. injection He0 as <-.
        destruct (Hthrow e eq_refl)
          as [Hty | (f & pre & u & -> & Hrem & Hpre)]; [left; exact Hty |].
        right. eexists f, (_ :: pre), u. split; [reflexivity |].
        split; [simpl; rewrite Hrem; reflexivity |].
        intros (u' & [Hu | Hin]); [discriminate Hu |].
        apply Hpre. exists u'. exact Hin.
      * intros l Hl Hidx _. injection Hl as <-.
        specialize (Hall Hidx). discriminate Hall.
    + (* the database was not created *)
      injection He as <-. apply sdk_inv in Hput.
      destruct Hput as (Hs1 & [(msg & Hr & Hrem1 & _)
                              | [(Hr & _) | (f & Hr & Hrem1 & _)]]);
        try discriminate Hr; injection Hr as ->.
      * split; [assumption |]. split; [discriminate |].
        rewrite !remote_app, Hrem1. simpl.
        split; [intros e0 He0; injection He0 as <-; left; eauto |].
        intros l _ _ [].
      * split; [assumption |]. split; [discriminate |].
        rewrite !remote_app, Hrem1. simpl.
        split.
        { intros e0 He0. injection He0 as <-. right.
          exists f, [], (address w this (tpl ["/"; db; "?partitioned=true"])).
          split; [reflexivity |]. split; [reflexivity |]. intros (u & []). }
        intros l _ _ [Habs | []]. discriminate Habs.
Qed.

(** [createDB] throws only when a request to put something has failed (the
    database itself, or a design document) and nothing was asked after
    that request, or on a [TypeError]; a failed request for an index is
    logged and passed over. When it returns, the database was created and
    no request to put a design document has failed. With payloads that
    are all indexes, it returns as soon as the database was created,
    whatever became of the index requests. *)
Theorem createDB_fails_only_on_put this db indexes w :
  let '(r, w', o) := createDB this db indexes w in
  let created := Called PUT (address w this (tpl ["/"; db; "?partitioned=true"])) in
  sameObjects w w'
  /\ (r = Ok tt ->
      exists calls, remote o = created true :: calls /\ ~ failedPut calls)
  /\ (forall e,
         r = Throw e ->
         (exists msg, e = TypeError msg)
         \/ (exists f pre u,
                e = Rejected f
                /\ remote o = pre ++ [Called PUT u false]
                /\ ~ failedPut pre))
  /\ (forall l,
         indexes = JArr l -> Forall (fun p => indexPayload p = true) l ->
         In (created true) (remote o) -> r = Ok tt).
Proof.
  destruct (createDB this db indexes w) as [[r w'] o] eqn:H.
  exact (createDB_inv _ _ _ _ H).
Qed.

(** [getOrCreateDB] creates nothing when the look-up of the database
    succeeds: that request is then its only one, and it returns. When the
    look-up fails, for whatever reason, it goes on to [createDB] and ends
    as that ends; so it throws only when a request to put something has
    failed, or on a [TypeError]. *)
Theorem getOrCreateDB_creates_after_failed_lookup this db indexes w :
  let '(r, w', o) := getOrCreateDB this db indexes w in
  let found := Called GET (address w this (tpl ["/"; db])) in
  sameObjects w w'
  /\ ((r = Ok tt /\ remote o = [found true])
      \/ (exists w1 o1 o2,
             sameObjects w w1
             /\ (remote o1 = [] \/ remote o1 = [found false])
             /\ createDB this db indexes w1 = (r, w', o2)
             /\ o = o1 ++ o2))
  /\ (forall e,
         r = Throw e ->
         (exists msg, e = TypeError msg)
         \/ (exists f pre u,
                e = Rejected f
                /\ remote o = pre ++ [Called PUT u false])).
Proof.
  destruct (getOrCreateDB this db indexes w) as [[r w'] o] eqn:H.
  unfold getOrCreateDB in H. simpl.
  apply tryCatch_inv in H.
  destruct H as [(u0 & H & ->) | (e & w1 & o1 & o2 & H & Hh & ->)].
  - apply bind_inv in H.
    destruct H as [(u1 & w1 & o1 & o2 & Hget & H & ->) | (? & _ & Hr)];
      [| discriminate Hr].
    apply log_inv in H. destruct H as (_ & -> & ->).
    apply sdk_inv in Hget.
    destruct Hget as (Hs1 & [(? & Hr & _) | [(_ & Hrem1 & _) | (? & Hr & _)]]);
      try discriminate Hr.
    split; [assumption |]. rewrite remote_app, Hrem1. simpl.
    split; [left; destruct u0; auto | discriminate].
  - apply bind_inv in Hh.
    destruct Hh as [(u1 & w2 & o3 & o4 & Hlog & Hh & ->) | (? & Hlog & _)];
      [| apply log_inv in Hlog; destruct Hlog as (Hr & _); discriminate Hr].
    apply log_inv in Hlog. destruct Hlog as (_ & -> & ->).
    assert (Hlook : sameObjects w w1
                    /\ (remote o1 = []
                        \/ remote o1
                           = [Called GET (address w this (tpl ["/"; db])) false])).
    { apply bind_inv in H.
      destruct H as [(u2 & w3 & o5 & o6 & Hget & H & ->) | (e' & Hget & _)].
      - apply log_inv in H. destruct H as (Hr & _). discriminate Hr.
      - apply sdk_inv in Hget.
        destruct Hget as (Hs1 & [(? & _ & Hrem1 & _)
                                | [(Hr & _) | (? & _ & Hrem1 & _)]]);
          [| discriminate Hr |]; auto. }
    destruct Hlook as (Hs1 & Hrem1).
    pose proof (createDB_inv _ _ _ _ Hh) as Hc. simpl in Hc.
    destruct Hc as (Hs2 & _ & Hthrow & _).
    split; [eapply sameObjects_trans; eassumption |].
    split.
    { right.
      exists w1,
        (o1 ++ [Log LError (tpl ["Failed to get Cloudant database "; db; ": ";
                                 messageOf e])]), o4.
      split; [assumption |]. split.
      - rewrite remote_app. simpl. rewrite app_nil_r. assumption.
      - split; [assumption |]. rewrite <- app_assoc. reflexivity. }
    intros e0 He0. destruct (Hthrow e0 He0)
      as [Hty | (f & pre & u & -> & Hrem & _)]; [left; exact Hty |].
    right. exists f, (remote o1 ++ pre), u. split; [reflexivity |].
    rewrite !remote_app. simpl. rewrite Hrem, app_assoc. reflexivity.
Qed.

End WithPlatform.
End DatabaseFacts.
